(** * Codex whale search: the per-wallet extraction pipeline of [src/index.js]

    A shallow embedding of the program's text extractors, retry wrapper,
    verification gate and wallet loop, with the properties the specification
    states about them.

    - JavaScript strings are sequences of UTF-16 code units: [list N].
    - The regular expressions of the source are values of a small syntax
      ([regex]) run by a backtracking matcher with the priorities of the
      ECMAScript semantics (greedy quantifiers, left alternative first,
      leftmost start position first).
    - Asynchronous code is sequential code: every [await] is a sequencing
      point, so an async function is a computation in a monad that threads
      the external world, accumulates the observable actions in a trace and
      may throw.  [promise.catch(h)] is try/catch. *)

From Stdlib Require Import List String Ascii ZArith NArith Bool Lia Arith.
From Stdlib Require Import DecimalString.
Import ListNotations.

Set Implicit Arguments.
Local Open Scope Z_scope.

(* ================================================================== *)
(** ** JavaScript strings *)

(** A string is its sequence of UTF-16 code units. *)
Definition jsstring : Type := list N.

Module Js.

(** A source literal (ASCII only in this program) as code units. *)
Definition lit (s : string) : jsstring :=
map N_of_ascii (list_ascii_of_string s).

Definition eqb (a b : jsstring) : bool :=
if list_eq_dec N.eq_dec a b then true else false.

(** [a.startsWith(b)] on code units. *)
Fixpoint starts_with (p s : jsstring) : bool :=
match p, s with
| [], _ => true
| _ :: _, [] => false
| a :: p', b :: s' => N.eqb a b && starts_with p' s'
end.

(** [s.includes(p)]: [p] occurs in [s] as a contiguous run of code units. *)
Fixpoint includes (s p : jsstring) : bool :=
starts_with p s ||
match s with
| [] => false
| _ :: s' => includes s' p
end.

(** WhiteSpace and LineTerminator code points of ECMAScript: the set of
  [\s] in a regular expression and of [String.prototype.trim]. *)
Definition is_space (c : N) : bool :=
((9 <=? c) && (c <=? 13) || (c =? 32) || (c =? 160) || (c =? 5760)
 || (8192 <=? c) && (c <=? 8202) || (c =? 8232) || (c =? 8233)
 || (c =? 8239) || (c =? 8287) || (c =? 12288) || (c =? 65279))%N.

(** LineTerminator: what [.] does not match. *)
Definition is_line_terminator (c : N) : bool :=
((c =? 10) || (c =? 13) || (c =? 8232) || (c =? 8233))%N.

(** [\d] *)
Definition is_digit (c : N) : bool := ((48 <=? c) && (c <=? 57))%N.

Definition SPACE : N := 32%N.
Definition COMMA : N := 44%N.
Definition DOLLAR : N := 36%N.

(** Canonicalize of a code unit under the [i] flag without the [u] flag.
  A code unit of value 128 or more is never mapped below 128, and the
  upper case of an ASCII code unit is its ASCII upper case; the pattern
  characters of this program are all ASCII, so only the ASCII part of the
  mapping is ever compared and the rest is left in place. *)
Definition canonicalize (c : N) : N :=
(if (97 <=? c) && (c <=? 122) then c - 32 else c)%N.

(** [s.trim()] *)
Fixpoint trim_start (s : jsstring) : jsstring :=
match s with
| c :: s' => if is_space c then trim_start s' else s
| [] => []
end.

Definition trim_end (s : jsstring) : jsstring := rev (trim_start (rev s)).

Definition trim (s : jsstring) : jsstring := trim_end (trim_start s).

(** [s.replace(/\s+/g, ' ')]: every maximal run of white space becomes one
  space.  [in_run] tells that the previous code unit was white space, in
  which case the run has already been replaced. *)
Fixpoint collapse_spaces (in_run : bool) (s : jsstring) : jsstring :=
match s with
| [] => []
| c :: s' =>
    if is_space c
    then (if in_run then collapse_spaces true s'
          else SPACE :: collapse_spaces true s')
    else c :: collapse_spaces false s'
end.

(** [s.replace(/,/g, '')] *)
Definition remove_commas (s : jsstring) : jsstring :=
filter (fun c => negb (N.eqb c COMMA)) s.

(** Number to string, for integers: the decimal numeral.  (This is what
  Number-to-string gives for the integers of magnitude below 2^53, the
  row numbers of a sheet and the times of the clock among them; larger
  Numbers are printed with their shortest digits, and from 10^21 on with
  an exponent.) *)
Definition of_Z (z : Z) : jsstring :=
lit (NilZero.string_of_int (Z.to_int z)).

(** The Number nearest to the integer [z]: a Number has 53 significant
  bits, so an integer of magnitude 2^53 or more loses its low bits, to
  the nearest, ties going to the even significand.  (No integer of the
  program is large enough to round to an infinity.) *)
Definition round (z : Z) : Z :=
let a := Z.abs z in
if a <? 2 ^ 53 then z
else
  let e := Z.log2 a - 52 in
  let q := Z.shiftr a e in
  let r := a - Z.shiftl q e in
  let half := Z.shiftl 1 (e - 1) in
  let q' :=
    if r <? half then q
    else if half <? r then q + 1
    else if Z.even q then q else q + 1 in
  Z.sgn z * Z.shiftl q' e.

(** [a + b] on Numbers that hold integers: the exact sum, rounded. *)
Definition add (a b : Z) : Z := round (a + b).

End Js.

(* ================================================================== *)
(** ** Regular expressions *)

Module Regex.

(** The fragment of the pattern syntax the program uses.  Every quantifier
  of the source applies to a single-character atom, so a quantified atom
  is a class with its bounds ([None] for no upper bound).  There is at
  most one capturing group per pattern. *)
Inductive regex : Type :=
| Empty : regex
| Chr : (N -> bool) -> regex
| Rep : (N -> bool) -> nat -> option nat -> regex
| Seq : regex -> regex -> regex
| Alt : regex -> regex -> regex
| Group : regex -> regex.

(** A pattern character under the [i] flag. *)
Definition ci (a : ascii) : N -> bool :=
fun c => N.eqb (Js.canonicalize c) (Js.canonicalize (N_of_ascii a)).

(** A matcher of pattern characters under the [i] flag. *)
Fixpoint word (s : string) : regex :=
match s with
| EmptyString => Empty
| String a s' => Seq (Chr (ci a)) (word s')
end.

Definition star (p : N -> bool) : regex := Rep p 0 None.
Definition plus (p : N -> bool) : regex := Rep p 1 None.
Definition opt (p : N -> bool) : regex := Rep p 0 (Some 1%nat).

Definition room (hi : option nat) : bool :=
match hi with
| None => true
| Some h => negb (Nat.eqb h 0)
end.

Definition less (hi : option nat) : option nat :=
match hi with
| None => None
| Some h => Some (Nat.pred h)
end.

Section Matcher.
Variable R : Type.

(** A greedy quantified class: take one more character when allowed and
  try the rest; when that fails, stop here if the lower bound is
  reached. *)
Fixpoint rep (p : N -> bool) (lo : nat) (hi : option nat)
       (s : jsstring) (k : jsstring -> option R) : option R :=
let stop := if Nat.eqb lo 0 then k s else None in
match s with
| [] => stop
| c :: s' =>
    if p c && room hi
    then match rep p (Nat.pred lo) (less hi) s' k with
         | Some x => Some x
         | None => stop
         end
    else stop
end.

(** The matcher in continuation-passing style: [k] is the rest of the
  pattern, given the rest of the input and the capture so far; [None]
  makes the matcher backtrack. *)
Fixpoint matcher (r : regex) (s : jsstring) (cap : option jsstring)
       (k : jsstring -> option jsstring -> option R) : option R :=
match r with
| Empty => k s cap
| Chr p =>
    match s with
    | c :: s' => if p c then k s' cap else None
    | [] => None
    end
| Rep p lo hi => rep p lo hi s (fun s' => k s' cap)
| Seq a b => matcher a s cap (fun s' cap' => matcher b s' cap' k)
| Alt a b =>
    match matcher a s cap k with
    | Some x => Some x
    | None => matcher b s cap k
    end
| Group a =>
    matcher a s cap
        (fun s' _ => k s' (Some (firstn (List.length s - List.length s') s)))
end.
End Matcher.

(** The result of [String.prototype.match] without the [g] flag: the
  matched text ([m[0]]) and the capture of group 1 ([m[1]]). *)
Record match_result : Type := MkMatch {
whole : jsstring;
group1 : option jsstring
}.

(** A match starting at the head of [s]. *)
Definition match_here (r : regex) (s : jsstring) : option match_result :=
matcher r s None
    (fun rest cap => Some (MkMatch (firstn (List.length s - List.length rest) s) cap)).

(** [s.match(r)]: the first start position, from the left, that matches. *)
Fixpoint exec (r : regex) (s : jsstring) : option match_result :=
match match_here r s with
| Some m => Some m
| None =>
    match s with
    | [] => None
    | _ :: s' => exec r s'
    end
end.

(** [r.test(s)] *)
Definition test (r : regex) (s : jsstring) : bool :=
match exec r s with Some _ => true | None => false end.

End Regex.

Import Regex.

(* ================================================================== *)
(** ** The patterns of the source *)

Definition digit_or_comma (c : N) : bool :=
  Js.is_digit c || N.eqb c Js.COMMA.

Definition dot (c : N) : bool := negb (Js.is_line_terminator c).

(** [/.{0,50}activit.{0,50}/i] *)
Definition re_snippet : regex :=
  Seq (Rep dot 0 (Some 50%nat))
      (Seq (word "activit") (Rep dot 0 (Some 50%nat))).

(** [activit(?:y|ies)] *)
Definition re_activity : regex :=
  Seq (word "activit") (Alt (word "y") (word "ies")).

(** [/Total\s+([\d,]+)\s+activit(?:y|ies)/i] *)
Definition re_total : regex :=
  Seq (word "Total")
      (Seq (plus Js.is_space)
           (Seq (Group (plus digit_or_comma))
                (Seq (plus Js.is_space) re_activity))).

(** [/More\s+than\s+([\d,]+)\s+activit(?:y|ies)/i] *)
Definition re_more_than : regex :=
  Seq (word "More")
      (Seq (plus Js.is_space)
           (Seq (word "than")
                (Seq (plus Js.is_space)
                     (Seq (Group (plus digit_or_comma))
                          (Seq (plus Js.is_space) re_activity))))).

(** [/Total\s+0\s+activit(?:y|ies)/i] *)
Definition re_zero : regex :=
  Seq (word "Total")
      (Seq (plus Js.is_space)
           (Seq (word "0") (Seq (plus Js.is_space) re_activity))).

(** The pattern of [extractJupiterHoldingsPnl], flag [i]:
    [Holdings\s+PnL[^\$]*\$?] followed by the group [[-+]?[\d,]+\.?\d*]. *)
Definition re_holdings : regex :=
  Seq (word "Holdings")
      (Seq (plus Js.is_space)
           (Seq (word "PnL")
                (Seq (star (fun c => negb (N.eqb c Js.DOLLAR)))
                     (Seq (opt (fun c => N.eqb c Js.DOLLAR))
                          (Group
                             (Seq (opt (fun c => N.eqb c 45 || N.eqb c 43)%N)
                                  (Seq (plus digit_or_comma)
                                       (Seq (opt (fun c => N.eqb c 46)%N)
                                            (star Js.is_digit))))))))).

(* ================================================================== *)
(** ** Values, errors and observable actions *)

(** What the program throws: an [Error] object with its message, or
    [undefined] (the initial value of [lastError] in [withRetries]). *)
Inductive thrown : Type :=
| Undefined : thrown
| Error : jsstring -> thrown.

Inductive Res (A : Type) : Type :=
| Ok : A -> Res A
| Throw : thrown -> Res A.
Arguments Ok {A} _.
Arguments Throw {A} _.

(** What a call into the environment (browser, file system, row store)
    does: it returns, or throws an [Error] object. *)
Inductive outcome (A : Type) : Type :=
| Returns : A -> outcome A
| Raises : jsstring -> outcome A.
Arguments Returns {A} _.
Arguments Raises {A} _.

(** The values that appear in log contexts. *)
Inductive JsVal : Type :=
| VNum : Z -> JsVal
| VStr : jsstring -> JsVal
| VUndef : JsVal.

Definition VOpt (v : option jsstring) : JsVal :=
  match v with Some s => VStr s | None => VUndef end.

(** The observable actions of a run, in the order they happen. *)
Inductive Event : Type :=
| ELog (message : jsstring) (context : list (string * JsVal))
| ESleep (ms : Z)
| EGoto (url : jsstring)
| ETitle
| ELocatorCount (selector : jsstring)
| EWaitForTimeout (ms : Z)
| ETextContent (selector : jsstring)
| EQuestion (prompt : jsstring)
| EExists (dir : jsstring)
| EMkdir (dir : jsstring)
| EScreenshot (path : jsstring)
| ESheetsClient
| ECsvRead (path : jsstring)
| ESheetsGet (range : jsstring)
| ESheetsUpdate (range : jsstring) (activitiesValue pnlValue : jsstring)
| ELaunch (headless : bool) (timeoutMs : Z)
| EClose.

(** The environment of a run: the one browser page, the file system, the
    clock, the operator's console and the row store.  [World] is whatever
    state they have; every call may change it. *)
Record Env (World : Type) : Type := MkEnv {
  page_goto : jsstring -> World -> outcome unit * World;
  page_title : World -> outcome jsstring * World;
  page_url : World -> jsstring;
  locator_count : jsstring -> World -> outcome Z * World;
  page_waitForTimeout : Z -> World -> outcome unit * World;
  page_textContent : jsstring -> World -> outcome (option jsstring) * World;
  page_screenshot : jsstring -> World -> outcome unit * World;
  fs_existsSync : jsstring -> World -> bool;
  fs_mkdirSync : jsstring -> World -> outcome unit * World;
  date_now : World -> Z;
  path_join : jsstring -> jsstring -> jsstring;
  toLowerCase : jsstring -> jsstring;
  (* [setTimeout]: the world after [ms] milliseconds *)
  timer : Z -> World -> World;
  (* the operator answers the console question *)
  readline_question : jsstring -> World -> World;
  sheets_client : World -> outcome unit * World;
  csv_records : jsstring -> World -> outcome (list (list (string * jsstring))) * World;
  sheets_values_get : jsstring -> World -> outcome (option (list (list jsstring))) * World;
  sheets_values_update : jsstring -> jsstring -> jsstring -> World -> outcome unit * World;
  chromium_launch : bool -> Z -> World -> outcome unit * World;
  browser_close : World -> outcome unit * World
}.

(** [CONFIG].  The numeric fields are the integers [Number.parseInt]
    read; an environment variable that is not a number is outside this
    model. *)
Record Config : Type := MkConfig {
  sheetId : option jsstring;
  sheetName : jsstring;
  serviceAccountJson : option jsstring;
  csvPath : option jsstring;
  startRow : Z;
  headless : bool;
  rateLimitMs : Z;
  maxRetries : Z;
  timeoutMs : Z;
  screenshotDir : jsstring
}.

(** An entry of [wallets]; a field the loader did not set is [undefined]. *)
Record WalletEntry : Type := MkWallet {
  wallet : option jsstring;
  activities : option jsstring;
  holdingsPnl : option jsstring;
  rowIndex : Z
}.

(** Truthiness of a string or [undefined]. *)
Definition truthy (v : option jsstring) : bool :=
  match v with
  | Some (_ :: _) => true
  | _ => false
  end.

(** [a || b] *)
Definition or_else (a b : option jsstring) : option jsstring :=
  if truthy a then a else b.

(* ================================================================== *)
(** ** The monad of async functions *)

Section Monad.
Variable World : Type.

Record Out (A : Type) : Type := MkOut {
  res : Res A;
  world : World;
  trace : list Event
}.

Definition M (A : Type) : Type := World -> Out A.

(** The outcome [o], after the actions [t]. *)
Definition prepend {A} (t : list Event) (o : Out A) : Out A :=
  MkOut (res o) (world o) (t ++ trace o).

Definition ret {A} (a : A) : M A := fun w => MkOut (Ok a) w [].

Definition throw {A} (e : thrown) : M A := fun w => MkOut (Throw e) w [].

Definition bind {A B} (m : M A) (f : A -> M B) : M B :=
  fun w =>
    let o := m w in
    match res o with
    | Ok a => prepend (trace o) (f a (world o))
    | Throw e => MkOut (Throw e) (world o) (trace o)
    end.

(** [try { m } catch (e) { h e }], also [m.catch(h)] *)
Definition try_catch {A} (m : M A) (h : thrown -> M A) : M A :=
  fun w =>
    let o := m w in
    match res o with
    | Ok a => o
    | Throw e => prepend (trace o) (h e (world o))
    end.

(** An action with no result from the environment. *)
Definition emit (ev : Event) : M unit := fun w => MkOut (Ok tt) w [ev].

(** A call into the environment. *)
Definition call {A} (ev : Event) (f : World -> outcome A * World) : M A :=
  fun w =>
    let (r, w') := f w in
    match r with
    | Returns a => MkOut (Ok a) w' [ev]
    | Raises msg => MkOut (Throw (Error msg)) w' [ev]
    end.

(** A synchronous read of the environment. *)
Definition read {A} (f : World -> A) : M A := fun w => MkOut (Ok (f w)) w [].
End Monad.

Arguments ret {World A} _ _.
Arguments throw {World A} _ _.
Arguments emit {World} _ _.

Declare Scope monad_scope.
Delimit Scope monad_scope with monad.
Notation "x <- m ;; k" := (bind m (fun x => k))
  (at level 61, m at next level, right associativity) : monad_scope.
Notation "m ;; k" := (bind m (fun _ => k))
  (at level 61, right associativity) : monad_scope.

(* ================================================================== *)
(** ** The program *)

Section Program.
Context {World : Type}.
Variable env : Env World.
Variable CONFIG : Config.

Local Open Scope string_scope.
Local Open Scope list_scope.
Local Open Scope Z_scope.
Local Open Scope monad_scope.
Local Abbreviation lit := Js.lit.

(** [log(message, context)]: one line on the console. *)
Definition log (message : jsstring) (context : list (string * JsVal))
  : M World unit :=
  emit (ELog message context).

(** [sleep(ms)]: resolves after [ms] milliseconds. *)
Definition sleep (ms : Z) : M World unit :=
  fun w => MkOut (Ok tt) (timer env ms w) [ESleep ms].

Definition ensureConfig : M World unit :=
  if negb (truthy (sheetId CONFIG))
  then throw (Error (lit "SHEET_ID is required."))
  else if negb (truthy (serviceAccountJson CONFIG))
  then throw (Error (lit "GOOGLE_SERVICE_ACCOUNT_JSON is required. Set it to either:"
                         ++ [10%N]
                         ++ lit "  1. A path to your service account JSON file, or"
                         ++ [10%N]
                         ++ lit "  2. The JSON credentials directly as a string"))
  else ret tt.

(** [getSheetsClient]: reading the credentials and building the client
    are the environment's; it returns the client or throws. *)
Definition getSheetsClient : M World unit :=
  call ESheetsClient (sheets_client env).

(** [record.name] for a record of the parsed file: its columns are an
    object's properties, each name once; a column that is not there reads
    as [undefined]. *)
Definition field (name : string) (record : list (string * jsstring))
  : option jsstring :=
  match find (fun kv => String.eqb (fst kv) name) record with
  | Some kv => Some (snd kv)
  | None => None
  end.

(** [records.map((record, index) => ...)] with the index counted from
    [index]. *)
Fixpoint map_indexed {A B} (f : A -> Z -> B) (index : Z) (l : list A)
  : list B :=
  match l with
  | [] => []
  | a :: l' => f a index :: map_indexed f (index + 1) l'
  end.

Definition loadWalletsFromCsv : M World (list WalletEntry) :=
  match csvPath CONFIG with
  | Some (c :: p) =>
      records <- call (ECsvRead (c :: p)) (csv_records env (c :: p)) ;;
      ret (map_indexed
             (fun record index =>
                MkWallet
                  (or_else (field "wallet" record)
                     (or_else (field "Wallet" record)
                        (or_else (field "address" record)
                           (field "Address" record))))
                  None None (Js.add (startRow CONFIG) index))
             0 records)
  | _ => ret []
  end.

Definition loadWalletsFromSheet : M World (list WalletEntry) :=
  let range :=
    sheetName CONFIG ++ lit "!A" ++ Js.of_Z (startRow CONFIG) ++ lit ":D" in
  values <- call (ESheetsGet range) (sheets_values_get env range) ;;
  let rows := match values with Some rows => rows | None => [] end in
  ret (map_indexed
         (fun row index =>
            MkWallet (nth_error row 0) (nth_error row 2) (nth_error row 3)
                     (Js.add (startRow CONFIG) index))
         0 rows).

(** [range] in [writeSheetValues]. *)
Definition resultRange (rowIndex : Z) : jsstring :=
  sheetName CONFIG ++ lit "!C" ++ Js.of_Z rowIndex
            ++ lit ":D" ++ Js.of_Z rowIndex.

Definition writeSheetValues (rowIndex : Z) (activitiesValue pnlValue : jsstring)
  : M World unit :=
  let range := resultRange rowIndex in
  call (ESheetsUpdate range activitiesValue pnlValue)
       (sheets_values_update env range activitiesValue pnlValue).

(** Blocks until the operator answers; there is no timeout. *)
Definition promptToContinue (message : jsstring) : M World unit :=
  log message [] ;;
  let question := lit "Press Enter to continue..." in
  fun w => MkOut (Ok tt) (readline_question env question w) [EQuestion question].

Definition verificationSelectors : list jsstring :=
  [ lit "text=verify you are human";
    lit "text=complete the security check";
    lit "#challenge-form";
    lit ".cf-challenge-running" ].

(** The [for] loop of [detectVerification] over the selectors. *)
Fixpoint anySelector (selectors : list jsstring) : M World bool :=
  match selectors with
  | [] => ret false
  | selector :: rest =>
      element <- call (ELocatorCount selector) (locator_count env selector) ;;
      if 0 <? element then ret true else anySelector rest
  end.

Definition detectVerification : M World bool :=
  title <- call ETitle (page_title env) ;;
  url <- read (page_url env) ;;
  if Js.includes (toLowerCase env title) (lit "just a moment")
     || Js.includes url (lit "challenge-platform")
  then ret true
  else anySelector verificationSelectors.

Definition waitIfVerification (contextLabel : jsstring) : M World unit :=
  detected <- detectVerification ;;
  if detected
  then promptToContinue
         (lit "Verification detected on " ++ contextLabel ++ lit ".")
  else ret tt.

(** [page.textContent('body')]; a method call on a [null] result is a
    [TypeError]. *)
Definition bodyText (method : string) : M World jsstring :=
  textContent <- call (ETextContent (lit "body"))
                      (page_textContent env (lit "body")) ;;
  match textContent with
  | Some text => ret text
  | None =>
      throw (Error (lit "Cannot read properties of null (reading '"
                        ++ lit method ++ lit "')"))
  end.

(** The patterns of [extractSolscanActivities], with their sources. *)
Definition patterns : list (string * regex) :=
  [ ("Total\s+([\d,]+)\s+activit(?:y|ies)", re_total);
    ("More\s+than\s+([\d,]+)\s+activit(?:y|ies)", re_more_than) ].

(** The [for] loop over [patterns]: the first pattern that matches. *)
Fixpoint firstPattern (ps : list (string * regex)) (cleanText : jsstring)
  : option (string * jsstring) :=
  match ps with
  | [] => None
  | (source, pattern) :: rest =>
      match exec pattern cleanText with
      | Some m =>
          Some (source,
                Js.remove_commas
                  (match group1 m with Some g => g | None => [] end))
      | None => firstPattern rest cleanText
      end
  end.

Definition cleanUp (textContent : jsstring) : jsstring :=
  Js.trim (Js.collapse_spaces false textContent).

Definition extractSolscanActivities : M World jsstring :=
  call (EWaitForTimeout 3000) (page_waitForTimeout env 3000) ;;
  textContent <- bodyText "replace" ;;
  let cleanText := cleanUp textContent in
  match exec re_snippet cleanText with
  | Some activityTextMatch =>
      log (lit "Found text containing 'activit':")
          [("snippet", VStr (whole activityTextMatch))]
  | None => log (lit "No text containing 'activit' found in page body") []
  end ;;
  match firstPattern patterns cleanText with
  | Some (source, activityCount) =>
      log (lit "Found activity count: " ++ activityCount)
          [("pattern", VStr (lit source))] ;;
      ret activityCount
  | None =>
      if test re_zero cleanText
      then log (lit "Found 0 activities explicitly stated") [] ;;
           ret (lit "0")
      else
        url <- read (page_url env) ;;
        if Js.includes url (lit "#activities")
        then log (lit "No activities section found on page, assuming 0 activities") [] ;;
             ret (lit "0")
        else throw (Error (lit "Unable to locate Solscan activities section on page."))
  end.

Definition extractJupiterHoldingsPnl : M World jsstring :=
  call (EWaitForTimeout 3000) (page_waitForTimeout env 3000) ;;
  textContent <- bodyText "match" ;;
  match exec re_holdings textContent with
  | Some m =>
      ret (Js.trim (match group1 m with Some g => g | None => [] end))
  | None => throw (Error (lit "Unable to locate Holdings PnL value on page."))
  end.

(** [error.message]; reading a property of [undefined] is a [TypeError]. *)
Definition message_of (error : thrown) : M World jsstring :=
  match error with
  | Error message => ret message
  | Undefined =>
      throw (Error (lit "Cannot read properties of undefined (reading 'message')"))
  end.

Section Retries.
Variable A : Type.
Variable task : M World A.
Variable label : jsstring.

(** The loop of [withRetries], about to test [attempt <= attempts].
    [fuel] bounds the number of iterations for the recursion; the loop
    needs [attempts] of them. *)
Fixpoint retryLoop (fuel : nat) (attempts attempt : Z) (lastError : thrown)
  : M World A :=
  if attempt <=? attempts
  then match fuel with
       | O => throw lastError
       | S fuel' =>
           try_catch task
             (fun error =>
                message <- message_of error ;;
                log (lit "Retrying after failure")
                    [("label", VStr label); ("attempt", VNum attempt);
                     ("error", VStr message)] ;;
                sleep (2000 * attempt) ;;
                retryLoop fuel' attempts (attempt + 1) error)
       end
  else throw lastError.

Definition withRetries (attempts : Z) : M World A :=
  retryLoop (Z.to_nat attempts) attempts 1 Undefined.
End Retries.

Definition ensureScreenshotDir : M World unit :=
  emit (EExists (screenshotDir CONFIG)) ;;
  exists_ <- read (fs_existsSync env (screenshotDir CONFIG)) ;;
  if negb exists_
  then call (EMkdir (screenshotDir CONFIG))
            (fs_mkdirSync env (screenshotDir CONFIG))
  else ret tt.

(** [/[^a-zA-Z0-9_.-]/] *)
Definition unsafe_char (c : N) : bool :=
  negb ((97 <=? c) && (c <=? 122) || (65 <=? c) && (c <=? 90)
        || (48 <=? c) && (c <=? 57) || (c =? 95) || (c =? 46) || (c =? 45))%N.

(** [filepath] in [captureFailureScreenshot], at the time [now]. *)
Definition screenshotPath (wallet label : jsstring) (now : Z) : jsstring :=
  let filename :=
    map (fun c => if unsafe_char c then 95%N else c)
        (label ++ lit "-" ++ wallet ++ lit "-" ++ Js.of_Z now ++ lit ".png") in
  path_join env (screenshotDir CONFIG) filename.

Definition captureFailureScreenshot (wallet label : jsstring) : M World unit :=
  ensureScreenshotDir ;;
  now <- read (date_now env) ;;
  let filepath := screenshotPath wallet label now in
  call (EScreenshot filepath) (page_screenshot env filepath) ;;
  log (lit "Saved failure screenshot") [("filepath", VStr filepath)].

(** The task of the first [withRetries] call of [run]. *)
Definition solscanTask (wallet : jsstring) : M World jsstring :=
  let url := lit "https://solscan.io/account/" ++ wallet ++ lit "#activities" in
  call (EGoto url) (page_goto env url) ;;
  waitIfVerification (lit "Solscan") ;;
  extractSolscanActivities.

(** The task of the second [withRetries] call of [run]. *)
Definition jupiterTask (wallet : jsstring) : M World jsstring :=
  let url := lit "https://jup.ag/portfolio/" ++ wallet in
  call (EGoto url) (page_goto env url) ;;
  waitIfVerification (lit "Jupiter") ;;
  extractJupiterHoldingsPnl.

(** [withRetries(task, ...).catch(async (error) => { await
    captureFailureScreenshot(...); throw error; })] *)
Definition guarded {A} (task : M World A) (label : jsstring)
           (hook : M World unit) : M World A :=
  try_catch (withRetries task label (maxRetries CONFIG))
            (fun error => hook ;; throw error).

Definition fetchActivities (wallet : jsstring) : M World jsstring :=
  guarded (solscanTask wallet) (lit "solscan-" ++ wallet)
          (captureFailureScreenshot wallet (lit "solscan")).

Definition fetchHoldingsPnl (wallet : jsstring) : M World jsstring :=
  guarded (jupiterTask wallet) (lit "jupiter-" ++ wallet)
          (captureFailureScreenshot wallet (lit "jupiter")).

(** The part of the loop body after the two skip tests. *)
Definition processWallet (index : Z) (wallet : jsstring) (rowIndex : Z)
  : M World unit :=
  log (lit "Processing wallet")
      [("index", VNum (index + 1)); ("wallet", VStr wallet);
       ("rowIndex", VNum rowIndex)] ;;
  activitiesValue <- fetchActivities wallet ;;
  sleep (rateLimitMs CONFIG) ;;
  pnlValue <- fetchHoldingsPnl wallet ;;
  writeSheetValues rowIndex activitiesValue pnlValue ;;
  log (lit "Updated sheet row")
      [("rowIndex", VNum rowIndex); ("activitiesValue", VStr activitiesValue);
       ("pnlValue", VStr pnlValue)] ;;
  sleep (rateLimitMs CONFIG).

(** One iteration of the loop of [run]; [continue] ends it. *)
Definition iteration (index : Z) (walletEntry : WalletEntry) : M World unit :=
  if negb (truthy (wallet walletEntry))
  then log (lit "Skipping empty wallet row")
           [("rowIndex", VNum (rowIndex walletEntry))]
  else if truthy (activities walletEntry) && truthy (holdingsPnl walletEntry)
  then log (lit "Skipping already processed row")
           [("rowIndex", VNum (rowIndex walletEntry));
            ("wallet", VOpt (wallet walletEntry))]
  else match wallet walletEntry with
       | Some w => processWallet index w (rowIndex walletEntry)
       | None => ret tt
       end.

(** [for (const [index, walletEntry] of wallets.entries())] *)
Fixpoint walletLoop (index : Z) (wallets : list WalletEntry) : M World unit :=
  match wallets with
  | [] => ret tt
  | walletEntry :: rest =>
      iteration index walletEntry ;;
      walletLoop (index + 1) rest
  end.

(** The start of [run], up to [wallets]. *)
Definition loadWallets : M World (list WalletEntry) :=
  ensureConfig ;;
  getSheetsClient ;;
  csvWallets <- loadWalletsFromCsv ;;
  sheetWallets <- loadWalletsFromSheet ;;
  ret (match csvWallets with [] => sheetWallets | _ :: _ => csvWallets end).

Definition run : M World unit :=
  wallets <- loadWallets ;;
  match wallets with
  | [] => log (lit "No wallets found to process.") []
  | _ :: _ =>
      call (ELaunch (headless CONFIG) (timeoutMs CONFIG))
           (chromium_launch env (headless CONFIG) (timeoutMs CONFIG)) ;;
      walletLoop 0 wallets ;;
      call EClose (browser_close env)
  end.

(** [run().catch((error) => { log("Fatal error", ...); process.exit(1); })]:
    the exit code of the process.  When the handler itself throws (its
    [error.message] on [undefined]) the rejection is unhandled, which
    ends the process with code 1 as well, without the log line. *)
Definition main (w : World) : Z * World * list Event :=
  let o := run w in
  match res o with
  | Ok _ => (0, world o, trace o)
  | Throw (Error message) =>
      (1, world o,
       trace o ++ [ELog (lit "Fatal error") [("error", VStr message)]])
  | Throw Undefined => (1, world o, trace o)
  end.

End Program.

(* ================================================================== *)
(** ** A scripted environment, for the examples *)

Module Sim.

(** What the next navigation will find. *)
Inductive load : Type :=
| LoadFails (message : jsstring)
| Loads (title body : jsstring).

Record world : Type := MkWorld {
  url : jsstring;
  title : jsstring;
  body : jsstring;
  script : list load;
  screenshots_fail : bool;
  clock : Z;
  rows : list (list jsstring)
}.

Definition goto (u : jsstring) (w : world) : outcome unit * world :=
  match script w with
  | [] => (Raises (Js.lit "Timeout 45000ms exceeded."), w)
  | LoadFails message :: rest =>
      (Raises message,
       MkWorld (url w) (title w) (body w) rest (screenshots_fail w)
               (clock w) (rows w))
  | Loads t b :: rest =>
      (Returns tt,
       MkWorld u t b rest (screenshots_fail w) (clock w) (rows w))
  end.

Definition lower (s : jsstring) : jsstring :=
  map (fun c => if (65 <=? c) && (c <=? 90) then c + 32 else c)%N s.

Definition tick (ms : Z) (w : world) : world :=
  MkWorld (url w) (title w) (body w) (script w) (screenshots_fail w)
          (clock w + ms) (rows w).

Definition env : Env world :=
  {| page_goto := goto;
     page_title := fun w => (Returns (title w), w);
     page_url := url;
     locator_count := fun _ w => (Returns 0, w);
     page_waitForTimeout := fun ms w => (Returns tt, tick ms w);
     page_textContent := fun _ w => (Returns (Some (body w)), w);
     page_screenshot := fun _ w =>
       (if screenshots_fail w
        then Raises (Js.lit "ENOSPC: no space left on device")
        else Returns tt, w);
     fs_existsSync := fun _ _ => true;
     fs_mkdirSync := fun _ w => (Returns tt, w);
     date_now := clock;
     path_join := fun a b => a ++ Js.lit "/" ++ b;
     toLowerCase := lower;
     timer := tick;
     readline_question := fun _ w => w;
     sheets_client := fun w => (Returns tt, w);
     csv_records := fun _ w => (Returns [], w);
     sheets_values_get := fun _ w => (Returns (Some (rows w)), w);
     sheets_values_update := fun _ _ _ w => (Returns tt, w);
     chromium_launch := fun _ _ w => (Returns tt, w);
     browser_close := fun w => (Returns tt, w) |}.

Definition config : Config :=
  {| sheetId := Some (Js.lit "sheet");
     sheetName := Js.lit "Sheet1";
     serviceAccountJson := Some (Js.lit "key.json");
     csvPath := None;
     startRow := 2;
     headless := true;
     rateLimitMs := 500;
     maxRetries := 3;
     timeoutMs := 45000;
     screenshotDir := Js.lit "screenshots" |}.

(** A world about to navigate, with the given script. *)
Definition start (s : list load) : world :=
  MkWorld [] [] [] s false 0 [].

(** A world whose page is loaded. *)
Definition on_page (u t b : jsstring) : world :=
  MkWorld u t b [] false 0 [].

End Sim.

(* ================================================================== *)
(** ** What the matcher computes *)

Module RegexFacts.

(** The upper bound of a quantifier. *)
Definition within (hi : option nat) (n : nat) : Prop :=
  match hi with
  | None => True
  | Some h => (n <= h)%nat
  end.

(** [Matches r w c c']: the pattern [r] matches exactly the text [w],
    and the capture goes from [c] to [c']. *)
Inductive Matches : regex -> jsstring -> option jsstring -> option jsstring -> Prop :=
| MEmpty : forall c, Matches Empty [] c c
| MChr : forall p ch c, p ch = true -> Matches (Chr p) [ch] c c
| MRep : forall p lo hi w c,
    forallb p w = true -> (lo <= List.length w)%nat ->
    within hi (List.length w) ->
    Matches (Rep p lo hi) w c c
| MSeq : forall a b w1 w2 c c1 c2,
    Matches a w1 c c1 -> Matches b w2 c1 c2 ->
    Matches (Seq a b) (w1 ++ w2) c c2
| MAltL : forall a b w c c', Matches a w c c' -> Matches (Alt a b) w c c'
| MAltR : forall a b w c c', Matches b w c c' -> Matches (Alt a b) w c c'
| MGroup : forall a w c c', Matches a w c c' -> Matches (Group a) w c (Some w).

#[local] Hint Constructors Matches : core.

Lemma firstn_consumed (w rest : jsstring) :
  firstn (List.length (w ++ rest) - List.length rest) (w ++ rest) = w.
Proof.
  rewrite length_app.
  replace (List.length w + List.length rest - List.length rest)%nat
    with (List.length w + 0)%nat by lia.
  rewrite firstn_app_2. simpl. apply app_nil_r.
Qed.

Section Rep.
Variable R : Type.
Variable p : N -> bool.

Lemma rep_sound (s : jsstring) :
  forall lo hi (k : jsstring -> option R) x,
    rep p lo hi s k = Some x ->
    exists w rest,
      s = w ++ rest /\ forallb p w = true /\
      (lo <= List.length w)%nat /\ within hi (List.length w) /\
      k rest = Some x.
Proof.
  assert (Stop : forall lo hi (k : jsstring -> option R) s0 x,
             (if Nat.eqb lo 0 then k s0 else None) = Some x ->
             exists w rest,
               s0 = w ++ rest /\ forallb p w = true /\
               (lo <= List.length w)%nat /\ within hi (List.length w) /\
               k rest = Some x).
  { intros lo hi k s0 x H. destruct (Nat.eqb_spec lo 0); [|discriminate].
    exists [], s0. subst lo. simpl. repeat split; auto.
    destruct hi; simpl; lia. }
  induction s as [|c s' IH]; intros lo hi k x H; simpl in H.
  - eauto.
  - destruct (p c && room hi) eqn:E; [|eauto].
    destruct (rep p (Nat.pred lo) (less hi) s' k) eqn:E'; [|eauto].
    inversion H; subst r; clear H.
    apply andb_prop in E. destruct E as [Epc Eroom].
    destruct (IH _ _ _ _ E') as (w & rest & -> & Hw & Hlo & Hhi & Hk).
    exists (c :: w), rest. simpl. rewrite Epc, Hw.
    repeat split; auto; try lia.
    destruct hi as [h|]; simpl in *; auto.
    destruct h; simpl in *; [discriminate | lia].
Qed.

Lemma rep_complete (w : jsstring) :
  forall lo hi rest (k : jsstring -> option R) x,
    forallb p w = true -> (lo <= List.length w)%nat ->
    within hi (List.length w) -> k rest = Some x ->
    exists y, rep p lo hi (w ++ rest) k = Some y.
Proof.
  induction w as [|c w' IH]; intros lo hi rest k x Hw Hlo Hhi Hk; simpl in *.
  - assert (lo = O) by lia. subst lo.
    destruct rest as [|c s']; simpl; [eauto|].
    destruct (p c && room hi); [|eauto].
    destruct (rep p 0 (less hi) s' k); eauto.
  - apply andb_prop in Hw. destruct Hw as [Hc Hw]. rewrite Hc.
    assert (room hi = true) as ->.
    { destruct hi as [[|h]|]; simpl in *; auto; lia. }
    simpl.
    destruct (IH (Nat.pred lo) (less hi) rest k x Hw) as [y Hy]; auto.
    + lia.
    + destruct hi as [h|]; simpl in *; auto; lia.
    + rewrite Hy. eauto.
Qed.
End Rep.

(** Whatever the matcher returns comes from a match of the pattern on a
    prefix of the input, followed by a successful continuation. *)
Lemma matcher_sound (R : Type) (r : regex) :
  forall s cap (k : jsstring -> option jsstring -> option R) x,
    matcher r s cap k = Some x ->
    exists w rest c',
      s = w ++ rest /\ Matches r w cap c' /\ k rest c' = Some x.
Proof.
  induction r as [|p|p lo hi|a IHa b IHb|a IHa b IHb|a IHa];
    intros s cap k x H; simpl in H.
  - exists [], s, cap. auto.
  - destruct s as [|c s']; [discriminate|].
    destruct (p c) eqn:E; [|discriminate].
    exists [c], s', cap. auto.
  - apply rep_sound in H.
    destruct H as (w & rest & -> & Hw & Hlo & Hhi & Hk).
    exists w, rest, cap. auto.
  - apply IHa in H. destruct H as (w1 & rest1 & c1 & -> & Ha & H).
    apply IHb in H. destruct H as (w2 & rest & c2 & -> & Hb & Hk).
    exists (w1 ++ w2), rest, c2. rewrite <- app_assoc. eauto.
  - destruct (matcher a s cap k) eqn:E.
    + inversion H; subst r. apply IHa in E.
      destruct E as (w & rest & c' & -> & Ha & Hk). eauto 8.
    + apply IHb in H.
      destruct H as (w & rest & c' & -> & Hb & Hk). eauto 8.
  - apply IHa in H. destruct H as (w & rest & c' & -> & Ha & Hk).
    rewrite firstn_consumed in Hk. eauto 8.
Qed.

(** Backtracking is exhaustive: when the pattern matches a prefix after
    which the continuation succeeds, the matcher succeeds (maybe with an
    alternative of higher priority). *)
Lemma matcher_complete (R : Type) (r : regex) (w : jsstring) cap c' :
  Matches r w cap c' ->
  forall rest (k : jsstring -> option jsstring -> option R) x,
    k rest c' = Some x ->
    exists y, matcher r (w ++ rest) cap k = Some y.
Proof.
  induction 1 as [c|p ch c Hp|p lo hi w c Hw Hlo Hhi
                  |a b w1 w2 c c1 c2 Ha IHa Hb IHb
                  |a b w c c' Ha IHa|a b w c c' Hb IHb|a w c c' Ha IHa];
    intros rest k x Hk; simpl.
  - eauto.
  - rewrite Hp. eauto.
  - eapply rep_complete; eauto.
  - rewrite <- app_assoc.
    destruct (IHb rest k x Hk) as [y Hy].
    eapply IHa. exact Hy.
  - destruct (IHa rest k x Hk) as [y ->]. eauto.
  - destruct (matcher a (w ++ rest) c k); eauto.
  - eapply IHa. rewrite firstn_consumed. exact Hk.
Qed.

(** An occurrence of the pattern in a text: where it starts, the matched
    text, and the capture. *)
Definition occurs (r : regex) (text pre w : jsstring) (c : option jsstring) : Prop :=
  exists post, text = pre ++ w ++ post /\ Matches r w None c.

Lemma match_here_sound r s m :
  match_here r s = Some m ->
  occurs r s [] (whole m) (group1 m).
Proof.
  unfold match_here. intros H. apply matcher_sound in H.
  destruct H as (w & rest & c' & -> & Hm & Hk).
  rewrite firstn_consumed in Hk. inversion Hk; subst m; simpl.
  exists rest. auto.
Qed.

Lemma match_here_complete r w post c :
  Matches r w None c ->
  exists m, match_here r (w ++ post) = Some m.
Proof.
  intros H. unfold match_here. eapply matcher_complete; eauto.
Qed.

Lemma exec_unfold r s :
  exec r s =
  match match_here r s with
  | Some m => Some m
  | None => match s with [] => None | _ :: s' => exec r s' end
  end.
Proof. destruct s; reflexivity. Qed.

(** [exec] returns an occurrence, and no occurrence starts before it. *)
Lemma exec_sound r s :
  forall m, exec r s = Some m ->
    exists pre,
      occurs r s pre (whole m) (group1 m) /\
      forall pre' w' c', occurs r s pre' w' c' ->
                         (List.length pre <= List.length pre')%nat.
Proof.
  induction s as [|ch s' IH]; intros m H; simpl in H.
  - destruct (match_here r []) eqn:E; [|discriminate].
    inversion H; subst m0. exists []. split.
    + apply match_here_sound; auto.
    + intros; simpl; lia.
  - destruct (match_here r (ch :: s')) eqn:E.
    + inversion H; subst m0. exists []. split.
      * apply match_here_sound; auto.
      * intros; simpl; lia.
    + destruct (IH _ H) as (pre & (post & Hs & Hm) & Hleft).
      exists (ch :: pre). split.
      * exists post. simpl. rewrite <- Hs. auto.
      * intros pre' w' c' (post' & Hs' & Hm').
        destruct pre' as [|ch' pre'].
        -- simpl in Hs'.
           destruct (match_here_complete post' Hm') as [m' Hm''].
           rewrite <- Hs' in Hm''. congruence.
        -- simpl in Hs'. inversion Hs'; subst ch'.
           simpl. apply le_n_S. eapply Hleft. exists post'. eauto.
Qed.

Lemma exec_complete r s pre w c :
  occurs r s pre w c -> exists m, exec r s = Some m.
Proof.
  intros (post & -> & Hm). induction pre as [|ch pre IH]; simpl.
  - destruct (match_here_complete post Hm) as [m Hm'].
    rewrite exec_unfold, Hm'. eauto.
  - destruct (match_here r (ch :: pre ++ w ++ post)); eauto.
Qed.

Lemma exec_none r s :
  exec r s = None -> forall pre w c, ~ occurs r s pre w c.
Proof.
  intros H pre w c Ho. destruct (exec_complete Ho) as [m Hm]. congruence.
Qed.

End RegexFacts.

(* ================================================================== *)
(** ** The phrases the activity patterns describe *)

Module Phrases.
Import RegexFacts.

(** The same letters, whatever the case. *)
Definition same_word (w : jsstring) (s : string) : Prop :=
  map Js.canonicalize w = map Js.canonicalize (Js.lit s).

(** A non-empty run of white space. *)
Definition blank (w : jsstring) : Prop :=
  w <> [] /\ forallb Js.is_space w = true.

(** The number as the page prints it: digits and thousands separators. *)
Definition count_text (n : jsstring) : Prop :=
  n <> [] /\ forallb digit_or_comma n = true.

Definition activity_word (a : jsstring) : Prop :=
  same_word a "activity" \/ same_word a "activities".

(** "Total <N> activity/activities" *)
Definition total_phrase (ph n : jsstring) : Prop :=
  exists t s1 s2 a,
    ph = t ++ s1 ++ n ++ s2 ++ a /\
    same_word t "Total" /\ blank s1 /\ count_text n /\ blank s2 /\
    activity_word a.

(** "More than <N> activity/activities" *)
Definition more_than_phrase (ph n : jsstring) : Prop :=
  exists m s0 t s1 s2 a,
    ph = m ++ s0 ++ t ++ s1 ++ n ++ s2 ++ a /\
    same_word m "More" /\ blank s0 /\ same_word t "than" /\ blank s1 /\
    count_text n /\ blank s2 /\ activity_word a.

(** The phrase occurs in [text] after [pre], with number [n]. *)
Definition contains (P : jsstring -> jsstring -> Prop)
           (text pre n : jsstring) : Prop :=
  exists ph post, text = pre ++ ph ++ post /\ P ph n.

(** [n] is the number of an occurrence that no other one starts before. *)
Definition first (P : jsstring -> jsstring -> Prop) (text n : jsstring) : Prop :=
  exists pre,
    contains P text pre n /\
    forall pre' n', contains P text pre' n' ->
                    (List.length pre <= List.length pre')%nat.

Definition absent (P : jsstring -> jsstring -> Prop) (text : jsstring) : Prop :=
  forall pre n, ~ contains P text pre n.

(** *** Inversion of [Matches] *)

Lemma Matches_Seq a b w c c2 :
  Matches (Seq a b) w c c2 <->
  exists w1 w2 c1, w = w1 ++ w2 /\ Matches a w1 c c1 /\ Matches b w2 c1 c2.
Proof.
  split.
  - intros H. inversion H; subst. eauto 8.
  - intros (w1 & w2 & c1 & -> & Ha & Hb). econstructor; eauto.
Qed.

Lemma Matches_Chr p w c c' :
  Matches (Chr p) w c c' <-> exists ch, w = [ch] /\ p ch = true /\ c' = c.
Proof.
  split.
  - intros H. inversion H; subst. eauto.
  - intros (ch & -> & Hp & ->). constructor; auto.
Qed.

Lemma Matches_Empty w c c' : Matches Empty w c c' <-> w = [] /\ c' = c.
Proof.
  split.
  - intros H. inversion H; subst. auto.
  - intros (-> & ->). constructor.
Qed.

Lemma Matches_Alt a b w c c' :
  Matches (Alt a b) w c c' <-> Matches a w c c' \/ Matches b w c c'.
Proof.
  split.
  - intros H. inversion H; subst; auto.
  - intros [H|H]; [apply MAltL | apply MAltR]; auto.
Qed.

Lemma Matches_Group a w c c' :
  Matches (Group a) w c c' <-> c' = Some w /\ exists c1, Matches a w c c1.
Proof.
  split.
  - intros H. inversion H; subst. eauto.
  - intros (-> & c1 & H). econstructor; eauto.
Qed.

Lemma Matches_plus p w c c' :
  Matches (plus p) w c c' <-> (w <> [] /\ forallb p w = true) /\ c' = c.
Proof.
  unfold plus. split.
  - intros H. inversion H; subst. repeat split; auto.
    intros ->. simpl in *. lia.
  - intros ((Hne & Hw) & ->). constructor; simpl; auto.
    destruct w; simpl; [congruence | lia].
Qed.

Lemma Matches_word s : forall w c c',
  Matches (word s) w c c' <-> same_word w s /\ c' = c.
Proof.
  unfold same_word.
  induction s as [|a s IH]; intros w c c'; simpl.
  - rewrite Matches_Empty. split.
    + intros (-> & ->). auto.
    + intros (H & ->). destruct w; [auto | discriminate].
  - rewrite Matches_Seq. split.
    + intros (w1 & w2 & c1 & -> & H1 & H2).
      apply Matches_Chr in H1. destruct H1 as (ch & -> & Hp & ->).
      apply IH in H2. destruct H2 as (H2 & ->).
      unfold ci in Hp. apply N.eqb_eq in Hp. simpl.
      unfold Js.lit in *. simpl. rewrite Hp, H2. auto.
    + intros (H & ->). destruct w as [|ch w]; [discriminate|].
      unfold Js.lit in *. simpl in H. inversion H as [[Hch Hw]].
      exists [ch], w, c. repeat split; auto.
      * apply Matches_Chr. exists ch. unfold ci.
        rewrite Hch, N.eqb_refl. auto.
      * apply IH. auto.
Qed.

Lemma Matches_activity w c c' :
  Matches re_activity w c c' <-> activity_word w /\ c' = c.
Proof.
  unfold re_activity, activity_word. rewrite Matches_Seq. split.
  - intros (w1 & w2 & c1 & -> & H1 & H2).
    apply Matches_word in H1. destruct H1 as (H1 & ->).
    apply Matches_Alt in H2.
    destruct H2 as [H2|H2]; apply Matches_word in H2;
      destruct H2 as (H2 & ->); split; auto; [left|right];
      unfold same_word in *; rewrite map_app, H1, H2; reflexivity.
  - intros ([H|H] & ->); unfold same_word in H.
    + change (map Js.canonicalize (Js.lit "activity"))
        with (map Js.canonicalize (Js.lit "activit")
                  ++ map Js.canonicalize (Js.lit "y")) in H.
      apply map_eq_app in H. destruct H as (w1 & w2 & -> & H1 & H2).
      exists w1, w2, c. repeat split; auto.
      * apply Matches_word. auto.
      * apply Matches_Alt. left. apply Matches_word. auto.
    + change (map Js.canonicalize (Js.lit "activities"))
        with (map Js.canonicalize (Js.lit "activit")
                  ++ map Js.canonicalize (Js.lit "ies")) in H.
      apply map_eq_app in H. destruct H as (w1 & w2 & -> & H1 & H2).
      exists w1, w2, c. repeat split; auto.
      * apply Matches_word. auto.
      * apply Matches_Alt. right. apply Matches_word. auto.
Qed.

Ltac inv_matches :=
  repeat match goal with
    | H : Matches (Seq _ _) _ _ _ |- _ =>
        apply Matches_Seq in H; destruct H as (?w & ?w & ?c & -> & ? & ?)
    | H : Matches (word _) _ _ _ |- _ =>
        apply Matches_word in H; destruct H as (? & ->)
    | H : Matches (plus _) _ _ _ |- _ =>
        apply Matches_plus in H; destruct H as (? & ->)
    | H : Matches (Group _) _ _ _ |- _ =>
        apply Matches_Group in H; destruct H as (-> & ?c & ?)
    | H : Matches re_activity _ _ _ |- _ =>
        apply Matches_activity in H; destruct H as (? & ->)
    end.

(** *** The patterns match exactly the phrases *)

Lemma Matches_total ph c :
  Matches re_total ph None c <-> exists n, c = Some n /\ total_phrase ph n.
Proof.
  unfold re_total, total_phrase. split.
  - intros H. inv_matches. eexists. split; [reflexivity|]. eauto 12.
  - intros (n & -> & t & s1 & s2 & a & -> & Ht & Hs1 & Hn & Hs2 & Ha).
    eapply MSeq; [apply Matches_word; eauto|].
    eapply MSeq; [apply Matches_plus; eauto|].
    eapply MSeq; [eapply MGroup; apply Matches_plus; eauto|].
    eapply MSeq; [apply Matches_plus; eauto|].
    apply Matches_activity; eauto.
Qed.

Lemma Matches_more_than ph c :
  Matches re_more_than ph None c <->
  exists n, c = Some n /\ more_than_phrase ph n.
Proof.
  unfold re_more_than, more_than_phrase. split.
  - intros H. inv_matches. eexists. split; [reflexivity|]. eauto 14.
  - intros (n & -> & m & s0 & t & s1 & s2 & a & ->
            & Hm & Hs0 & Ht & Hs1 & Hn & Hs2 & Ha).
    eapply MSeq; [apply Matches_word; eauto|].
    eapply MSeq; [apply Matches_plus; eauto|].
    eapply MSeq; [apply Matches_word; eauto|].
    eapply MSeq; [apply Matches_plus; eauto|].
    eapply MSeq; [eapply MGroup; apply Matches_plus; eauto|].
    eapply MSeq; [apply Matches_plus; eauto|].
    apply Matches_activity; eauto.
Qed.

(** The explicit-zero pattern describes a "Total" phrase whose number is
    the one digit 0. *)
Lemma Matches_zero ph c c' :
  Matches re_zero ph c c' -> total_phrase ph (Js.lit "0").
Proof.
  unfold re_zero, total_phrase. intros H. inv_matches.
  match goal with
  | H : same_word ?z "0" |- _ =>
      destruct z as [|d [|? ?]]; try discriminate H;
      unfold same_word in H; simpl in H; inversion H as [Hd]
  end.
  assert (d = 48%N) as ->.
  { change (Js.canonicalize 48) with 48%N in Hd.
    unfold Js.canonicalize in Hd.
    destruct ((97 <=? d) && (d <=? 122))%N eqn:E; [|assumption].
    apply andb_prop in E. destruct E as [E1 E2].
    apply N.leb_le in E1. lia. }
  do 4 eexists. split; [reflexivity|].
  unfold blank, count_text in *. intuition auto; discriminate.
Qed.

Section Search.
Variable r : regex.
Variable P : jsstring -> jsstring -> Prop.
Hypothesis r_is_P :
  forall ph c, Matches r ph None c <-> exists n, c = Some n /\ P ph n.

Lemma occurs_contains text pre w c :
  occurs r text pre w c ->
  exists n, c = Some n /\ contains P text pre n.
Proof.
  intros (post & -> & H). apply r_is_P in H.
  destruct H as (n & -> & H). exists n. split; auto.
  exists w, post. auto.
Qed.

Lemma contains_occurs text pre n :
  contains P text pre n -> exists w, occurs r text pre w (Some n).
Proof.
  intros (ph & post & -> & H). exists ph, post. split; auto.
  apply r_is_P. eauto.
Qed.

Lemma exec_first text m :
  exec r text = Some m ->
  exists n, group1 m = Some n /\ first P text n.
Proof.
  intros H. apply exec_sound in H. destruct H as (pre & Ho & Hleft).
  destruct (occurs_contains Ho) as (n & Hn & Hc).
  exists n. split; auto. exists pre. split; auto.
  intros pre' n' Hc'. destruct (contains_occurs Hc') as (w' & Ho').
  eapply Hleft; eauto.
Qed.

Lemma exec_absent text : exec r text = None -> absent P text.
Proof.
  intros H pre n Hc. destruct (contains_occurs Hc) as (w & Ho).
  exact (exec_none H Ho).
Qed.

Lemma exec_present text pre n :
  contains P text pre n -> exists m, exec r text = Some m.
Proof.
  intros Hc. destruct (contains_occurs Hc) as (w & Ho).
  eapply exec_complete; eauto.
Qed.
End Search.

(** *** The number of a phrase is determined by where the phrase starts *)

Lemma space_not_count c : Js.is_space c = true -> digit_or_comma c = false.
Proof.
  intros H. apply not_true_is_false. intros H'.
  unfold Js.is_space, digit_or_comma, Js.is_digit, Js.COMMA in *.
  rewrite ?orb_true_iff, ?andb_true_iff, ?N.leb_le, ?N.eqb_eq in *. lia.
Qed.

Lemma count_not_space c : digit_or_comma c = true -> Js.is_space c = false.
Proof.
  intros H. apply not_true_is_false. intros H'.
  apply space_not_count in H'. congruence.
Qed.

Lemma letter_not_space c (a : ascii) :
  (65 <= N_of_ascii a <= 90 \/ 97 <= N_of_ascii a <= 122)%N ->
  Js.canonicalize c = Js.canonicalize (N_of_ascii a) ->
  Js.is_space c = false.
Proof.
  intros Ha H. apply not_true_is_false. intros H'.
  unfold Js.canonicalize, Js.is_space in *.
  destruct ((97 <=? c) && (c <=? 122))%N eqn:E;
    destruct ((97 <=? N_of_ascii a) && (N_of_ascii a <=? 122))%N eqn:E';
    rewrite ?orb_true_iff, ?andb_true_iff, ?andb_false_iff,
      ?N.leb_le, ?N.eqb_eq, ?N.leb_gt in *; lia.
Qed.

(** The text after a run: empty, or starting outside the class. *)
Definition stops (p : N -> bool) (x : jsstring) : Prop :=
  match x with
  | [] => True
  | c :: _ => p c = false
  end.

Lemma run_unique (p : N -> bool) : forall u u' x x',
  u ++ x = u' ++ x' ->
  forallb p u = true -> forallb p u' = true ->
  stops p x -> stops p x' ->
  u = u' /\ x = x'.
Proof.
  induction u as [|c u IH]; intros [|c' u'] x x' E Hu Hu' Hx Hx';
    simpl in *.
  - auto.
  - subst x. simpl in Hx. apply andb_prop in Hu'. destruct Hu'. congruence.
  - subst x'. simpl in Hx'. apply andb_prop in Hu. destruct Hu. congruence.
  - inversion E; subst c'.
    apply andb_prop in Hu. apply andb_prop in Hu'.
    destruct Hu, Hu'.
    destruct (IH u' x x') as [-> ->]; auto.
Qed.

Lemma same_word_length w s :
  same_word w s -> List.length w = String.length s.
Proof.
  unfold same_word, Js.lit. intros H.
  apply (f_equal (@List.length N)) in H.
  rewrite !length_map in H. rewrite H.
  clear. induction s; simpl; auto.
Qed.

Lemma same_length_prefix (a a' b b' : jsstring) :
  List.length a = List.length a' -> a ++ b = a' ++ b' -> a = a' /\ b = b'.
Proof.
  revert a'. induction a as [|c a IH]; intros [|c' a'] L E;
    simpl in *; try discriminate; auto.
  inversion E; subst. destruct (IH a') as [-> ->]; auto.
Qed.

Lemma stops_count n x : count_text n -> stops Js.is_space (n ++ x).
Proof.
  intros [Hne Hn]. destruct n as [|c n]; [congruence|]. simpl in *.
  apply andb_prop in Hn. destruct Hn. apply count_not_space. auto.
Qed.

Lemma stops_blank s x : blank s -> stops digit_or_comma (s ++ x).
Proof.
  intros [Hne Hs]. destruct s as [|c s]; [congruence|]. simpl in *.
  apply andb_prop in Hs. destruct Hs. apply space_not_count. auto.
Qed.

(** After the white space that follows the first word, the number is the
    whole run of digits and commas. *)
Lemma number_unique s1 n s2 x s1' n' s2' x' :
  blank s1 -> count_text n -> blank s2 ->
  blank s1' -> count_text n' -> blank s2' ->
  s1 ++ n ++ s2 ++ x = s1' ++ n' ++ s2' ++ x' ->
  n = n'.
Proof.
  intros Hs1 Hn Hs2 Hs1' Hn' Hs2' E.
  apply run_unique with (p := Js.is_space) in E;
    try apply stops_count; auto; try apply Hs1; try apply Hs1'.
  destruct E as [_ E].
  apply run_unique with (p := digit_or_comma) in E;
    try apply stops_blank; auto; try apply Hn; try apply Hn'.
  tauto.
Qed.

Lemma total_phrase_number ph n post ph' n' post' :
  total_phrase ph n -> total_phrase ph' n' ->
  ph ++ post = ph' ++ post' -> n = n'.
Proof.
  intros (t & s1 & s2 & a & -> & Ht & Hs1 & Hn & Hs2 & Ha)
         (t' & s1' & s2' & a' & -> & Ht' & Hs1' & Hn' & Hs2' & Ha') E.
  rewrite <- !app_assoc in E.
  apply same_length_prefix in E.
  - destruct E as [_ E].
    eapply number_unique;
      [exact Hs1|exact Hn|exact Hs2|exact Hs1'|exact Hn'|exact Hs2'|exact E].
  - apply same_word_length in Ht, Ht'. congruence.
Qed.

Lemma more_than_phrase_number ph n post ph' n' post' :
  more_than_phrase ph n -> more_than_phrase ph' n' ->
  ph ++ post = ph' ++ post' -> n = n'.
Proof.
  intros (m & s0 & t & s1 & s2 & a & -> & Hm & Hs0 & Ht & Hs1 & Hn & Hs2 & Ha)
         (m' & s0' & t' & s1' & s2' & a' & ->
          & Hm' & Hs0' & Ht' & Hs1' & Hn' & Hs2' & Ha') E.
  rewrite <- !app_assoc in E.
  assert (St : forall w x, same_word w "than" -> stops Js.is_space (w ++ x)).
  { intros w x H. destruct w as [|c w]; [discriminate|].
    unfold same_word in H. simpl in H. inversion H as [[Hc Hw]].
    simpl. apply (@letter_not_space c "t"%char); auto.
    simpl. lia. }
  apply same_length_prefix in E.
  - destruct E as [_ E].
    apply run_unique with (p := Js.is_space) in E;
      auto; try apply Hs0; try apply Hs0'.
    destruct E as [_ E].
    apply same_length_prefix in E.
    + destruct E as [_ E].
    eapply number_unique;
      [exact Hs1|exact Hn|exact Hs2|exact Hs1'|exact Hn'|exact Hs2'|exact E].
    + apply same_word_length in Ht, Ht'. congruence.
  - apply same_word_length in Hm, Hm'. congruence.
Qed.

(** Two first occurrences carry the same number. *)
Lemma first_unique (P : jsstring -> jsstring -> Prop) :
  (forall ph n post ph' n' post',
      P ph n -> P ph' n' -> ph ++ post = ph' ++ post' -> n = n') ->
  forall text n n', first P text n -> first P text n' -> n = n'.
Proof.
  intros HP text n n' (pre & Hc & Hleft) (pre' & Hc' & Hleft').
  pose proof (Hleft _ _ Hc') as L1. pose proof (Hleft' _ _ Hc) as L2.
  destruct Hc as (ph & post & E & HPn).
  destruct Hc' as (ph' & post' & E' & HPn').
  rewrite E in E'. apply same_length_prefix in E'; [|lia].
  destruct E' as [_ E']. eapply HP; eauto.
Qed.

End Phrases.

(* ================================================================== *)
(** ** Greedy matching *)

Module Greedy.
Import RegexFacts Phrases.

(** A quantified class takes the whole run when the run cannot go on (the
    text after it starts outside the class, or the upper bound is
    reached) and the rest of the pattern matches after it: no backtracking
    takes place. *)
Lemma rep_greedy (R : Type) (p : N -> bool) (run : jsstring) :
  forall lo hi rest (k : jsstring -> option R) x,
    forallb p run = true ->
    (lo <= List.length run)%nat ->
    within hi (List.length run) ->
    stops p rest \/ hi = Some (List.length run) ->
    k rest = Some x ->
    rep p lo hi (run ++ rest) k = Some x.
Proof.
  induction run as [|c run IH]; intros lo hi rest k x Hrun Hlo Hhi Hend Hk;
    simpl in *.
  - assert (lo = O) by lia. subst lo.
    destruct rest as [|c s']; simpl; auto.
    destruct Hend as [Hstop | ->]; simpl in *.
    + rewrite Hstop. simpl. auto.
    + rewrite andb_false_r. auto.
  - apply andb_prop in Hrun. destruct Hrun as [Hc Hrun]. rewrite Hc.
    assert (room hi = true) as ->.
    { destruct hi as [[|h]|]; simpl in *; auto; lia. }
    simpl. rewrite (IH (Nat.pred lo) (less hi) rest k x); auto.
    + lia.
    + destruct hi as [h|]; simpl in *; auto; lia.
    + destruct Hend as [Hstop | ->]; simpl; auto.
Qed.

(** A literal word matches the text that has its letters. *)
Lemma matcher_word (R : Type) (s : string) :
  forall w rest cap (k : jsstring -> option jsstring -> option R),
    same_word w s ->
    matcher (word s) (w ++ rest) cap k = k rest cap.
Proof.
  unfold same_word, Js.lit.
  induction s as [|a s IH]; intros w rest cap k H; simpl in *.
  - destruct w; [reflexivity | discriminate].
  - destruct w as [|c w]; [discriminate|]. inversion H as [[Hc Hw]].
    simpl. unfold ci at 1. rewrite Hc, N.eqb_refl. apply IH. auto.
Qed.

Lemma trim_start_id s :
  (forall c, In c s -> Js.is_space c = false) -> Js.trim_start s = s.
Proof.
  destruct s as [|c s]; simpl; auto. intros H.
  rewrite (H c); auto.
Qed.

(** A text without white space is its own [trim]. *)
Lemma trim_id s :
  (forall c, In c s -> Js.is_space c = false) -> Js.trim s = s.
Proof.
  intros H. unfold Js.trim, Js.trim_end.
  rewrite (trim_start_id s H), trim_start_id, rev_involutive; auto.
  intros c Hc. apply H. apply in_rev. auto.
Qed.

End Greedy.

(* ================================================================== *)
(** ** Reasoning about computations *)

Section MonadFacts.
Context {World : Type}.

Lemma prepend_nil A (o : Out World A) : prepend [] o = o.
Proof. destruct o; reflexivity. Qed.

Lemma prepend_prepend A t1 t2 (o : Out World A) :
  prepend t1 (prepend t2 o) = prepend (t1 ++ t2) o.
Proof. unfold prepend; simpl. rewrite app_assoc. reflexivity. Qed.

Lemma bind_ok A B (m : M World A) (f : A -> M World B) w a :
  res (m w) = Ok a ->
  bind m f w = prepend (trace (m w)) (f a (world (m w))).
Proof. unfold bind. intros ->. reflexivity. Qed.

Lemma bind_throw A B (m : M World A) (f : A -> M World B) w e :
  res (m w) = Throw e ->
  bind m f w = MkOut (Throw e) (world (m w)) (trace (m w)).
Proof. unfold bind. intros ->. reflexivity. Qed.

Lemma try_catch_ok A (m : M World A) h w a :
  res (m w) = Ok a -> try_catch m h w = m w.
Proof. unfold try_catch. intros ->. reflexivity. Qed.

Lemma try_catch_throw A (m : M World A) h w e :
  res (m w) = Throw e ->
  try_catch m h w = prepend (trace (m w)) (h e (world (m w))).
Proof. unfold try_catch. intros ->. reflexivity. Qed.

(** Every action of the computation is of the kind [Q]. *)
Definition emits (Q : Event -> bool) {A} (m : M World A) : Prop :=
  forall w, forallb Q (trace (m w)) = true.

(** The computation throws [Error] objects only. *)
Definition raises_errors {A} (m : M World A) : Prop :=
  forall w, res (m w) <> Throw Undefined.

Section Emits.
Variable Q : Event -> bool.

Lemma emits_ret A (a : A) : emits Q (ret (World := World) a).
Proof. intros w. reflexivity. Qed.

Lemma emits_throw A e : emits Q (throw (World := World) (A := A) e).
Proof. intros w. reflexivity. Qed.

Lemma emits_read A (f : World -> A) : emits Q (read f).
Proof. intros w. reflexivity. Qed.

Lemma emits_emit ev : Q ev = true -> emits Q (emit (World := World) ev).
Proof. intros H w. simpl. rewrite H. reflexivity. Qed.

Lemma emits_call A ev (f : World -> outcome A * World) :
  Q ev = true -> emits Q (call ev f).
Proof.
  intros H w. unfold call. destruct (f w) as [[a|msg] w']; simpl;
    rewrite H; reflexivity.
Qed.

Lemma emits_bind A B (m : M World A) (f : A -> M World B) :
  emits Q m -> (forall a, emits Q (f a)) -> emits Q (bind m f).
Proof.
  intros Hm Hf w. unfold bind. specialize (Hm w).
  destruct (res (m w)); simpl; auto.
  rewrite forallb_app, Hm. apply Hf.
Qed.

Lemma emits_try_catch A (m : M World A) h :
  emits Q m -> (forall e, emits Q (h e)) -> emits Q (try_catch m h).
Proof.
  intros Hm Hh w. unfold try_catch. specialize (Hm w).
  destruct (res (m w)); simpl; auto.
  rewrite forallb_app, Hm. apply Hh.
Qed.
End Emits.

Lemma emits_weaken (Q Q' : Event -> bool) A (m : M World A) :
  (forall ev, Q ev = true -> Q' ev = true) -> emits Q m -> emits Q' m.
Proof.
  intros H Hm w. specialize (Hm w).
  rewrite forallb_forall in *. auto.
Qed.

Lemma raises_ret A (a : A) : raises_errors (ret (World := World) a).
Proof. intros w. discriminate. Qed.

Lemma raises_throw A msg :
  raises_errors (throw (World := World) (A := A) (Error msg)).
Proof. intros w. discriminate. Qed.

Lemma raises_read A (f : World -> A) : raises_errors (read f).
Proof. intros w. discriminate. Qed.

Lemma raises_emit ev : raises_errors (emit (World := World) ev).
Proof. intros w. discriminate. Qed.

Lemma raises_call A ev (f : World -> outcome A * World) :
  raises_errors (call ev f).
Proof.
  intros w. unfold call. destruct (f w) as [[a|msg] w']; discriminate.
Qed.

Lemma raises_bind A B (m : M World A) (f : A -> M World B) :
  raises_errors m -> (forall a, raises_errors (f a)) ->
  raises_errors (bind m f).
Proof.
  intros Hm Hf w. unfold bind. specialize (Hm w).
  destruct (res (m w)) as [a|e] eqn:E; simpl; [apply Hf | congruence].
Qed.

Lemma raises_try_catch A (m : M World A) h :
  (forall e, e <> Undefined -> raises_errors (h e)) ->
  raises_errors m -> raises_errors (try_catch m h).
Proof.
  intros Hh Hm w. unfold try_catch. specialize (Hm w).
  destruct (res (m w)) as [a|e] eqn:E; simpl.
  - rewrite E. discriminate.
  - apply Hh. congruence.
Qed.
End MonadFacts.

Create HintDb emits discriminated.
#[export] Hint Resolve emits_ret emits_throw emits_read emits_emit emits_call
  emits_bind emits_try_catch : emits.
Create HintDb raises discriminated.
#[export] Hint Resolve raises_ret raises_throw raises_read raises_emit
  raises_call raises_bind : raises.

(** Takes a computation of the program apart, down to its primitive
    actions. *)
Ltac step_emits :=
  repeat match goal with
    | |- emits _ (bind _ _) => apply emits_bind; [|intros]
    | |- emits _ (try_catch _ _) => apply emits_try_catch; [|intros]
    | |- emits _ (ret _) => apply emits_ret
    | |- emits _ (throw _) => apply emits_throw
    | |- emits _ (read _) => apply emits_read
    | |- emits _ (emit _) => apply emits_emit; reflexivity
    | |- emits _ (call _ _) => apply emits_call; reflexivity
    | |- emits _ (if ?b then _ else _) => destruct b
    | |- emits _ (match ?x with _ => _ end) => destruct x
    end.

Ltac step_raises :=
  repeat match goal with
    | |- raises_errors (bind _ _) => apply raises_bind; [|intros]
    | |- raises_errors (ret _) => apply raises_ret
    | |- raises_errors (throw (Error _)) => apply raises_throw
    | |- raises_errors (read _) => apply raises_read
    | |- raises_errors (emit _) => apply raises_emit
    | |- raises_errors (call _ _) => apply raises_call
    | |- raises_errors (if ?b then _ else _) => destruct b
    | |- raises_errors (match ?x with _ => _ end) => destruct x
    end.

(* ================================================================== *)
(** ** Kinds of actions *)

Definition is_goto (ev : Event) : bool :=
  match ev with EGoto _ => true | _ => false end.

Definition is_sleep (ev : Event) : bool :=
  match ev with ESleep _ => true | _ => false end.

Definition is_update (ev : Event) : bool :=
  match ev with ESheetsUpdate _ _ _ => true | _ => false end.

Definition is_log (ev : Event) : bool :=
  match ev with ELog _ _ => true | _ => false end.

(** The start of the failure hook: [fs.existsSync(CONFIG.screenshotDir)]. *)
Definition is_hook_entry (ev : Event) : bool :=
  match ev with EExists _ => true | _ => false end.

(** What the verification detector does to the page. *)
Definition of_detection (ev : Event) : bool :=
  match ev with ETitle | ELocatorCount _ => true | _ => false end.

(** What an extractor does. *)
Definition of_extraction (ev : Event) : bool :=
  match ev with
  | EWaitForTimeout _ | ETextContent _ | ELog _ _ => true
  | _ => false
  end.

(** What follows the navigation in a task. *)
Definition of_page_work (ev : Event) : bool :=
  match ev with
  | ETitle | ELocatorCount _ | ELog _ _ | EQuestion _
  | EWaitForTimeout _ | ETextContent _ => true
  | _ => false
  end.

(** What the failure hook does. *)
Definition of_hook (ev : Event) : bool :=
  match ev with
  | EExists _ | EMkdir _ | EScreenshot _ | ELog _ _ => true
  | _ => false
  end.

(** What a guarded fetch does: tasks, back-off and hook. *)
Definition of_fetch (ev : Event) : bool :=
  match ev with
  | EGoto _ | ESleep _ => true
  | _ => of_page_work ev || of_hook ev
  end.

(** The numbers of milliseconds slept, in order. *)
Fixpoint sleeps (t : list Event) : list Z :=
  match t with
  | [] => []
  | ESleep ms :: t' => ms :: sleeps t'
  | _ :: t' => sleeps t'
  end.

Definition count (Q : Event -> bool) (t : list Event) : nat :=
  List.length (filter Q t).

Lemma count_app Q t1 t2 : count Q (t1 ++ t2) = (count Q t1 + count Q t2)%nat.
Proof. unfold count. rewrite filter_app, length_app. reflexivity. Qed.

Lemma count_cons_false Q ev t : Q ev = false -> count Q (ev :: t) = count Q t.
Proof. intros H. unfold count. simpl. rewrite H. reflexivity. Qed.

Lemma count_none Q Q' t :
  (forall ev, Q' ev = true -> Q ev = false) ->
  forallb Q' t = true -> count Q t = O.
Proof.
  intros H. unfold count. induction t as [|ev t IH]; simpl; auto.
  intros E. apply andb_prop in E. destruct E as [E1 E2].
  rewrite (H _ E1). auto.
Qed.

Lemma sleeps_app t1 t2 : sleeps (t1 ++ t2) = sleeps t1 ++ sleeps t2.
Proof.
  induction t1 as [|ev t1 IH]; simpl; auto.
  destruct ev; simpl; rewrite ?IH; reflexivity.
Qed.

Lemma sleeps_none Q t :
  (forall ev, Q ev = true -> is_sleep ev = false) ->
  forallb Q t = true -> sleeps t = [].
Proof.
  intros H. induction t as [|ev t IH]; simpl; auto.
  intros E. apply andb_prop in E. destruct E as [E1 E2].
  specialize (H _ E1). destruct ev; simpl in *; auto; discriminate.
Qed.

(* ================================================================== *)
(** ** What each part of the program does to the outside *)

Section ProgramFacts.
Context {World : Type}.
Variable env : Env World.
Variable CONFIG : Config.

Lemma emits_log Q message context :
  Q (ELog message context) = true ->
  emits Q (log (World := World) message context).
Proof. intros H. unfold log. auto with emits. Qed.

Lemma emits_sleep Q ms : Q (ESleep ms) = true -> emits Q (sleep env ms).
Proof. intros H w. simpl. rewrite H. reflexivity. Qed.

Lemma emits_detectVerification : emits of_detection (detectVerification env).
Proof.
  unfold detectVerification. step_emits.
  unfold verificationSelectors.
  generalize [Js.lit "text=verify you are human";
              Js.lit "text=complete the security check";
              Js.lit "#challenge-form"; Js.lit ".cf-challenge-running"].
  intros l. induction l as [|s l IH]; simpl; step_emits. exact IH.
Qed.

Lemma emits_promptToContinue message :
  emits of_page_work (promptToContinue env message).
Proof.
  unfold promptToContinue. step_emits.
  - apply emits_log. reflexivity.
  - intros w. reflexivity.
Qed.

Lemma emits_waitIfVerification label :
  emits of_page_work (waitIfVerification env label).
Proof.
  unfold waitIfVerification. step_emits.
  - eapply emits_weaken; [|apply emits_detectVerification].
    intros [] H; try discriminate; reflexivity.
  - apply emits_promptToContinue.
Qed.

Lemma emits_bodyText method : emits of_extraction (bodyText env method).
Proof. unfold bodyText. step_emits. Qed.

Lemma emits_extractSolscanActivities :
  emits of_extraction (extractSolscanActivities env).
Proof.
  unfold extractSolscanActivities.
  step_emits; try apply emits_bodyText; try (apply emits_log; reflexivity).
Qed.

Lemma emits_extractJupiterHoldingsPnl :
  emits of_extraction (extractJupiterHoldingsPnl env).
Proof.
  unfold extractJupiterHoldingsPnl.
  step_emits; try apply emits_bodyText.
Qed.

Lemma extraction_is_page_work ev :
  of_extraction ev = true -> of_page_work ev = true.
Proof. destruct ev; simpl; auto. Qed.

Lemma page_work_is_fetch ev : of_page_work ev = true -> of_fetch ev = true.
Proof. destruct ev; simpl; auto. Qed.

Lemma hook_is_fetch ev : of_hook ev = true -> of_fetch ev = true.
Proof. destruct ev; simpl; auto. Qed.

Lemma emits_captureFailureScreenshot wallet label :
  emits of_hook (captureFailureScreenshot env CONFIG wallet label).
Proof.
  unfold captureFailureScreenshot, ensureScreenshotDir.
  step_emits. apply emits_log. reflexivity.
Qed.

Lemma raises_log message context :
  raises_errors (log (World := World) message context).
Proof. apply raises_emit. Qed.

Lemma raises_sleep ms : raises_errors (sleep env ms).
Proof. intros w. discriminate. Qed.

Lemma raises_detectVerification : raises_errors (detectVerification env).
Proof.
  unfold detectVerification. step_raises.
  unfold verificationSelectors.
  generalize [Js.lit "text=verify you are human";
              Js.lit "text=complete the security check";
              Js.lit "#challenge-form"; Js.lit ".cf-challenge-running"].
  intros l. induction l as [|s l IH]; simpl; step_raises. exact IH.
Qed.

Lemma raises_waitIfVerification label :
  raises_errors (waitIfVerification env label).
Proof.
  unfold waitIfVerification, promptToContinue. step_raises.
  - apply raises_detectVerification.
  - apply raises_log.
  - intros w. discriminate.
Qed.

Lemma raises_bodyText method : raises_errors (bodyText env method).
Proof. unfold bodyText. step_raises. Qed.

Lemma raises_extractSolscanActivities :
  raises_errors (extractSolscanActivities env).
Proof.
  unfold extractSolscanActivities.
  step_raises; try apply raises_bodyText; try apply raises_log.
Qed.

Lemma raises_extractJupiterHoldingsPnl :
  raises_errors (extractJupiterHoldingsPnl env).
Proof.
  unfold extractJupiterHoldingsPnl. step_raises; apply raises_bodyText.
Qed.

Lemma raises_solscanTask wallet : raises_errors (solscanTask env wallet).
Proof.
  unfold solscanTask. step_raises.
  - apply raises_waitIfVerification.
  - apply raises_extractSolscanActivities.
Qed.

Lemma raises_jupiterTask wallet : raises_errors (jupiterTask env wallet).
Proof.
  unfold jupiterTask. step_raises.
  - apply raises_waitIfVerification.
  - apply raises_extractJupiterHoldingsPnl.
Qed.

Lemma raises_captureFailureScreenshot wallet label :
  raises_errors (captureFailureScreenshot env CONFIG wallet label).
Proof.
  unfold captureFailureScreenshot, ensureScreenshotDir.
  step_raises. apply raises_log.
Qed.

End ProgramFacts.

(* ================================================================== *)
(** ** Runs of the retry loop *)

#[local] Arguments Z.mul : simpl never.
#[local] Arguments Z.add : simpl never.
#[local] Arguments Z.of_nat : simpl never.

Section RetryFacts.
Context {World : Type}.
Variable env : Env World.
Variable A : Type.
Variable task : M World A.
Variable label : jsstring.

(** The log line of the [catch] block of [withRetries]. *)
Definition retry_log (attempt : Z) (message : jsstring) : Event :=
  ELog (Js.lit "Retrying after failure")
       [("label"%string, VStr label); ("attempt"%string, VNum attempt);
        ("error"%string, VStr message)].

(** [Failed j w t w' e]: started in the world [w], the attempts 1 to [j]
    all fail, each with an [Error] object as the operations of [run]
    throw them.  [t] is what happens up to the end of the pause that
    follows attempt [j], [w'] is the world at that point and [e] the
    error of attempt [j] ([undefined] before the first attempt). *)
Inductive Failed : nat -> World -> list Event -> World -> thrown -> Prop :=
| Failed_O : forall w, Failed 0 w [] w Undefined
| Failed_S : forall j w t w' e message,
    Failed j w t w' e ->
    res (task w') = Throw (Error message) ->
    Failed (S j) w
           (t ++ trace (task w')
              ++ [retry_log (Z.of_nat (S j)) message;
                  ESleep (2000 * Z.of_nat (S j))])
           (timer env (2000 * Z.of_nat (S j)) (world (task w')))
           (Error message).

Lemma retryLoop_success n attempts attempt lastError w v :
  attempt <= attempts ->
  res (task w) = Ok v ->
  retryLoop env task label (S n) attempts attempt lastError w = task w.
Proof.
  intros Hle H. simpl. apply Z.leb_le in Hle. rewrite Hle.
  eapply try_catch_ok; eauto.
Qed.

Lemma retryLoop_failure n attempts attempt lastError w message :
  attempt <= attempts ->
  res (task w) = Throw (Error message) ->
  retryLoop env task label (S n) attempts attempt lastError w =
  prepend (trace (task w)
             ++ [retry_log attempt message; ESleep (2000 * attempt)])
          (retryLoop env task label n attempts (attempt + 1) (Error message)
                     (timer env (2000 * attempt) (world (task w)))).
Proof.
  intros Hle H. simpl. apply Z.leb_le in Hle. rewrite Hle.
  rewrite (try_catch_throw _ _ _ H).
  unfold bind, message_of, log, sleep, emit, ret, prepend; simpl.
  destruct (retryLoop env task label n attempts (attempt + 1) (Error message)
              (timer env (2000 * attempt) (world (task w)))); simpl.
  rewrite <- app_assoc. reflexivity.
Qed.

(** The test of the loop fails: [throw lastError]. *)
Lemma retryLoop_over n attempts attempt lastError w :
  attempts < attempt ->
  retryLoop env task label n attempts attempt lastError w
  = MkOut (Throw lastError) w [].
Proof.
  intros Hlt. apply Z.leb_gt in Hlt.
  destruct n; simpl; rewrite Hlt; reflexivity.
Qed.

Lemma retryLoop_starts_with_task n attempts attempt lastError w :
  attempt <= attempts ->
  exists rest,
    trace (retryLoop env task label (S n) attempts attempt lastError w)
    = trace (task w) ++ rest.
Proof.
  intros Hle. simpl. apply Z.leb_le in Hle. rewrite Hle.
  unfold try_catch.
  destruct (res (task w)); simpl.
  - exists []. rewrite app_nil_r. reflexivity.
  - eauto.
Qed.

(** After [j] failed attempts the loop is where it would be had it
    started at attempt [j + 1]. *)
Lemma retry_after_failures j w t w' e attempts :
  Failed j w t w' e ->
  Z.of_nat j <= attempts ->
  forall n,
    retryLoop env task label (j + n) attempts 1 Undefined w =
    prepend t (retryLoop env task label n attempts (Z.of_nat j + 1) e w').
Proof.
  induction 1 as [w|j w t w' e message HF IH Hfail]; intros Hle n.
  - simpl (0 + n)%nat. rewrite prepend_nil. reflexivity.
  - replace (S j + n)%nat with (j + S n)%nat by lia.
    rewrite IH by lia.
    assert (Hle' : Z.of_nat j + 1 <= attempts) by lia.
    rewrite (@retryLoop_failure n attempts (Z.of_nat j + 1) e w' message
               Hle' Hfail), prepend_prepend.
    replace (Z.of_nat j + 1) with (Z.of_nat (S j)) by lia.
    reflexivity.
Qed.

(** Attempt [j + 1] succeeds after [j] failures. *)
Lemma withRetries_success j w t w' e v attempts :
  Failed j w t w' e -> res (task w') = Ok v ->
  Z.of_nat (S j) <= attempts ->
  withRetries env task label attempts w = prepend t (task w').
Proof.
  intros HF Hok Hle. unfold withRetries.
  replace (Z.to_nat attempts) with (j + S (Z.to_nat attempts - S j))%nat
    by lia.
  rewrite (retry_after_failures HF) by lia.
  erewrite retryLoop_success; eauto. lia.
Qed.

(** Every attempt fails. *)
Lemma withRetries_exhausted j w t w' e attempts :
  Failed j w t w' e -> Z.of_nat j = attempts ->
  withRetries env task label attempts w = MkOut (Throw e) w' t.
Proof.
  intros HF Hj. unfold withRetries. rewrite <- Hj at 1. rewrite Nat2Z.id.
  replace j with (j + 0)%nat at 1 by lia.
  rewrite (retry_after_failures HF) by lia.
  rewrite retryLoop_over by lia.
  unfold prepend; simpl. rewrite app_nil_r. reflexivity.
Qed.

(** Marks left in the trace by each invocation of the task are counted
    once per failed attempt. *)
Lemma Failed_count (Q : Event -> bool) (c : nat) :
  (forall w, count Q (trace (task w)) = c) ->
  (forall m ctx, Q (ELog m ctx) = false) ->
  (forall ms, Q (ESleep ms) = false) ->
  forall j w t w' e, Failed j w t w' e -> count Q t = (j * c)%nat.
Proof.
  intros Hc Hlog Hsleep. induction 1 as [w|j w t w' e message HF IH Hfail].
  - reflexivity.
  - rewrite !count_app, IH, Hc. unfold count, retry_log. simpl.
    rewrite Hlog, Hsleep. simpl. lia.
Qed.

(** The pauses of [j] failed attempts, when the task itself never
    sleeps. *)
Lemma Failed_sleeps :
  (forall w, sleeps (trace (task w)) = []) ->
  forall j w t w' e, Failed j w t w' e ->
    sleeps t = map (fun k => 2000 * Z.of_nat k) (seq 1 j).
Proof.
  intros Hq. induction 1 as [w|j w t w' e message HF IH Hfail].
  - reflexivity.
  - rewrite !sleeps_app, IH, Hq. simpl sleeps.
    rewrite seq_S, map_app. reflexivity.
Qed.

Lemma raises_retryLoop attempts :
  raises_errors task ->
  forall n attempt lastError,
    (lastError = Undefined -> attempt <= attempts /\ n <> O) ->
    raises_errors (retryLoop env task label n attempts attempt lastError).
Proof.
  intros Ht. induction n as [|n IH]; intros attempt lastError Hl; simpl.
  - destruct (attempt <=? attempts) eqn:E; intros w; simpl; intros E';
      inversion E'; destruct (Hl ltac:(assumption)) as [Hle Hn];
      [congruence | apply Z.leb_gt in E; lia].
  - destruct (attempt <=? attempts) eqn:E.
    + apply raises_try_catch; auto. intros e He.
      destruct e as [|message]; [congruence|]. simpl.
      step_raises.
      * apply raises_log.
      * apply raises_sleep.
      * apply IH. discriminate.
    + intros w. simpl. intros E'. inversion E'.
      destruct (Hl ltac:(assumption)) as [Hle Hn].
      apply Z.leb_gt in E. lia.
Qed.

Lemma emits_retryLoop (Q : Event -> bool) attempts :
  emits Q task ->
  (forall m ctx, Q (ELog m ctx) = true) ->
  (forall ms, Q (ESleep ms) = true) ->
  forall n attempt lastError,
    emits Q (retryLoop env task label n attempts attempt lastError).
Proof.
  intros Ht Hlog Hsleep. induction n as [|n IH]; intros attempt lastError;
    simpl; destruct (attempt <=? attempts); try apply emits_throw.
  apply emits_try_catch; auto. intros e.
  unfold message_of. step_emits; auto using emits_log, emits_sleep.
Qed.

End RetryFacts.

(* ================================================================== *)
(** ** The extractors on a page text *)

Section ExtractorFacts.
Import RegexFacts Phrases.

Lemma digits_of_count n :
  forallb digit_or_comma n = true ->
  forallb Js.is_digit (Js.remove_commas n) = true.
Proof.
  unfold Js.remove_commas, digit_or_comma.
  induction n as [|c n IH]; simpl; auto.
  intros H. apply andb_prop in H. destruct H as [Hc Hn].
  destruct (N.eqb c Js.COMMA); simpl; auto.
  rewrite orb_false_r in Hc. rewrite Hc. auto.
Qed.

(** A text contains a phrase, with a first occurrence, or it does not. *)
Lemma first_or_absent r (P : jsstring -> jsstring -> Prop) text :
  (forall ph c, Matches r ph None c <-> exists n, c = Some n /\ P ph n) ->
  (exists n, first P text n) \/ absent P text.
Proof.
  intros HP. destruct (exec r text) as [m|] eqn:E.
  - left. destruct (@exec_first _ _ HP _ _ E) as (n & _ & Hn). eauto.
  - right. eapply exec_absent; eauto.
Qed.

Lemma exec_of_first r (P : jsstring -> jsstring -> Prop) text n :
  (forall ph c, Matches r ph None c <-> exists n, c = Some n /\ P ph n) ->
  (forall ph n post ph' n' post',
      P ph n -> P ph' n' -> ph ++ post = ph' ++ post' -> n = n') ->
  first P text n ->
  exists m, exec r text = Some m /\ group1 m = Some n.
Proof.
  intros HP HU Hn. pose proof Hn as (pre & Hc & _).
  destruct (exec_present HP Hc) as [m Hm].
  destruct (@exec_first _ _ HP _ _ Hm) as (n' & Hg & Hn').
  exists m. split; auto. rewrite Hg. f_equal.
  eapply first_unique; eauto.
Qed.

Lemma exec_of_absent r (P : jsstring -> jsstring -> Prop) text :
  (forall ph c, Matches r ph None c <-> exists n, c = Some n /\ P ph n) ->
  absent P text -> exec r text = None.
Proof.
  intros HP Ha. destruct (exec r text) as [m|] eqn:E; auto.
  destruct (@exec_first _ _ HP _ _ E) as (n & _ & pre & Hc & _).
  destruct (Ha _ _ Hc).
Qed.

Lemma firstPattern_total cleanText n :
  first total_phrase cleanText n ->
  exists source,
    firstPattern patterns cleanText = Some (source, Js.remove_commas n).
Proof.
  intros Hn.
  destruct (exec_of_first Matches_total total_phrase_number Hn)
    as (m & Hm & Hg).
  simpl. rewrite Hm, Hg. eauto.
Qed.

Lemma firstPattern_more_than cleanText n :
  absent total_phrase cleanText ->
  first more_than_phrase cleanText n ->
  exists source,
    firstPattern patterns cleanText = Some (source, Js.remove_commas n).
Proof.
  intros Ha Hn.
  destruct (exec_of_first Matches_more_than more_than_phrase_number Hn)
    as (m & Hm & Hg).
  simpl. rewrite (exec_of_absent Matches_total Ha), Hm, Hg. eauto.
Qed.

(** Without a "Total" phrase the explicit-zero test cannot succeed: the
    branch after the loop that tests it is never taken. *)
Lemma zero_needs_total cleanText :
  absent total_phrase cleanText -> test re_zero cleanText = false.
Proof.
  intros Ha. unfold test. destruct (exec re_zero cleanText) as [m|] eqn:E; auto.
  apply exec_sound in E. destruct E as (pre & (post & Ht & Hm) & _).
  apply Matches_zero in Hm. destruct (Ha pre (Js.lit "0")).
  exists (whole m), post. auto.
Qed.

Lemma firstPattern_none cleanText :
  absent total_phrase cleanText -> absent more_than_phrase cleanText ->
  firstPattern patterns cleanText = None.
Proof.
  intros Ht Hm. simpl.
  rewrite (exec_of_absent Matches_total Ht),
    (exec_of_absent Matches_more_than Hm). reflexivity.
Qed.

Context {World : Type}.
Variable env : Env World.

(** The result of [extractSolscanActivities] on a page whose body text
    can be read. *)
Lemma extractSolscanActivities_res w w1 w2 text :
  page_waitForTimeout env 3000 w = (Returns tt, w1) ->
  page_textContent env (Js.lit "body") w1 = (Returns (Some text), w2) ->
  res (extractSolscanActivities env w) =
  match firstPattern patterns (cleanUp text) with
  | Some (_, activityCount) => Ok activityCount
  | None =>
      if test re_zero (cleanUp text) then Ok (Js.lit "0")
      else if Js.includes (page_url env w2) (Js.lit "#activities")
           then Ok (Js.lit "0")
           else Throw (Error (Js.lit
                  "Unable to locate Solscan activities section on page."))
  end.
Proof.
  intros H1 H2.
  unfold extractSolscanActivities, bodyText, bind, call, log, emit, read,
    ret, throw, prepend.
  rewrite H1. cbn [res world trace]. rewrite H2. cbn [res world trace].
  destruct (exec re_snippet (cleanUp text)); cbn [res world trace];
    destruct (firstPattern patterns (cleanUp text)) as [[source n]|];
    cbn [res world trace]; auto;
    destruct (test re_zero (cleanUp text)); cbn [res world trace]; auto;
    destruct (Js.includes (page_url env w2) (Js.lit "#activities"));
    reflexivity.
Qed.

(** The result of [extractJupiterHoldingsPnl] on a page whose body text
    can be read. *)
Lemma extractJupiterHoldingsPnl_res w w1 w2 text :
  page_waitForTimeout env 3000 w = (Returns tt, w1) ->
  page_textContent env (Js.lit "body") w1 = (Returns (Some text), w2) ->
  res (extractJupiterHoldingsPnl env w) =
  match exec re_holdings text with
  | Some m => Ok (Js.trim (match group1 m with Some g => g | None => [] end))
  | None => Throw (Error (Js.lit "Unable to locate Holdings PnL value on page."))
  end.
Proof.
  intros H1 H2.
  unfold extractJupiterHoldingsPnl, bodyText, bind, call, ret, throw, prepend.
  rewrite H1. cbn [res world trace]. rewrite H2. cbn [res world trace].
  destruct (exec re_holdings text); reflexivity.
Qed.

End ExtractorFacts.

(* ================================================================== *)
(** ** The activity count *)

Section Activities.
Import RegexFacts Phrases.

(** The activities view of a wallet, loaded, with the given body text. *)
Definition activities_view (body : jsstring) : Sim.world :=
  Sim.on_page (Js.lit "https://solscan.io/account/W#activities")
              (Js.lit "Solscan") body.

(** The page of the same wallet reached without the [#activities]
    fragment. *)
Definition account_view (body : jsstring) : Sim.world :=
  Sim.on_page (Js.lit "https://solscan.io/account/W")
              (Js.lit "Solscan") body.

(** The three cases of the text of C1, for a page in the world [w] whose
    body text is [text] and whose address is [url]: a "Total" phrase
    gives its number; without one the activities view gives "0"; and
    anything else is an error. *)
Definition activities_claim_as_stated {World : Type} (env : Env World)
           (w : World) (text url : jsstring) : Prop :=
  let cleanText := cleanUp text in
  let result := res (extractSolscanActivities env w) in
  (forall n, first total_phrase cleanText n ->
             result = Ok (Js.remove_commas n)) /\
  (absent total_phrase cleanText ->
   Js.includes url (Js.lit "#activities") = true ->
   result = Ok (Js.lit "0")) /\
  (absent total_phrase cleanText ->
   Js.includes url (Js.lit "#activities") = false ->
   exists message, result = Throw (Error message)).

(** C1, as stated, fails: on a page that is not the activities view and
    reads "More than 5 activities" there is no "Total" phrase, so the
    claim asks for an Extraction error, and the extractor returns "5"
    (its second pattern). *)
Lemma activities_more_than_counterexample :
  ~ activities_claim_as_stated Sim.env
      (account_view (Js.lit "More than 5 activities"))
      (Js.lit "More than 5 activities")
      (Js.lit "https://solscan.io/account/W").
Proof.
  intros (_ & _ & H).
  destruct H as [message H].
  - eapply exec_absent; [exact Matches_total | vm_compute; reflexivity].
  - vm_compute. reflexivity.
  - vm_compute in H. discriminate H.
Qed.

(** C1, amended: on the white-space-normalized body text,
    - when a "Total <N> activity/activities" phrase occurs, the result is
      the <N> of its first occurrence with the commas removed, a string
      of decimal digits;
    - otherwise, when a "More than <N> activity/activities" phrase
      occurs, the result is the <N> of its first occurrence, likewise;
    - otherwise, when the page address contains "#activities", the
      result is "0";
    - otherwise the extractor throws the error "Unable to locate Solscan
      activities section on page.".
    A phrase either has a first occurrence or does not occur, so the four
    cases cover every text. *)
Theorem activities_extraction_cases :
  forall (World : Type) (env : Env World) (w w1 w2 : World) (text : jsstring),
    page_waitForTimeout env 3000 w = (Returns tt, w1) ->
    page_textContent env (Js.lit "body") w1 = (Returns (Some text), w2) ->
    let cleanText := cleanUp text in
    let result := res (extractSolscanActivities env w) in
    (forall n, first total_phrase cleanText n ->
               result = Ok (Js.remove_commas n) /\
               forallb Js.is_digit (Js.remove_commas n) = true) /\
    (absent total_phrase cleanText ->
     forall n, first more_than_phrase cleanText n ->
               result = Ok (Js.remove_commas n) /\
               forallb Js.is_digit (Js.remove_commas n) = true) /\
    (absent total_phrase cleanText -> absent more_than_phrase cleanText ->
     Js.includes (page_url env w2) (Js.lit "#activities") = true ->
     result = Ok (Js.lit "0")) /\
    (absent total_phrase cleanText -> absent more_than_phrase cleanText ->
     Js.includes (page_url env w2) (Js.lit "#activities") = false ->
     result = Throw (Error (Js.lit
                "Unable to locate Solscan activities section on page."))) /\
    ((exists n, first total_phrase cleanText n) \/
     absent total_phrase cleanText) /\
    ((exists n, first more_than_phrase cleanText n) \/
     absent more_than_phrase cleanText).
Proof.
  intros World env w w1 w2 text H1 H2 cleanText result.
  subst result. rewrite (extractSolscanActivities_res _ _ H1 H2).
  fold cleanText. split; [|split; [|split; [|split; [|split]]]].
  - intros n Hn. split.
    + destruct (firstPattern_total Hn) as [source ->]. reflexivity.
    + destruct Hn as (pre & (ph & post & _ & Hp) & _).
      destruct Hp as (t & s1 & s2 & a & _ & _ & _ & Hc & _).
      apply digits_of_count, Hc.
  - intros Ht n Hn. split.
    + destruct (firstPattern_more_than Ht Hn) as [source ->]. reflexivity.
    + destruct Hn as (pre & (ph & post & _ & Hp) & _).
      destruct Hp as (m & s0 & t & s1 & s2 & a & _ & _ & _ & _ & _ & Hc & _).
      apply digits_of_count, Hc.
  - intros Ht Hm Hu.
    rewrite (firstPattern_none Ht Hm), (zero_needs_total Ht), Hu.
    reflexivity.
  - intros Ht Hm Hu.
    rewrite (firstPattern_none Ht Hm), (zero_needs_total Ht), Hu.
    reflexivity.
  - apply (@first_or_absent re_total total_phrase _ Matches_total).
  - apply (@first_or_absent re_more_than more_than_phrase _
                            Matches_more_than).
Qed.

(** The first example of the specification: "Total 1,234 activities"
    yields "1234". *)
Lemma activities_extraction_cases_witness :
  res (extractSolscanActivities Sim.env
         (activities_view (Js.lit "Total 1,234 activities")))
  = Ok (Js.lit "1234").
Proof.
  pose (w := activities_view (Js.lit "Total 1,234 activities")).
  destruct (@activities_extraction_cases _ Sim.env w (Sim.tick 3000 w)
              (Sim.tick 3000 w) (Js.lit "Total 1,234 activities")
              eq_refl eq_refl) as (H & _).
  assert (F : first total_phrase (cleanUp (Js.lit "Total 1,234 activities"))
                    (Js.lit "1,234")).
  { assert (E : exec re_total (cleanUp (Js.lit "Total 1,234 activities"))
                = Some (MkMatch (Js.lit "Total 1,234 activities")
                                (Some (Js.lit "1,234"))))
      by (vm_compute; reflexivity).
    destruct (@exec_first _ _ Matches_total _ _ E) as (n & Hg & Hn).
    simpl in Hg. inversion Hg; subst n. exact Hn. }
  exact (proj1 (H _ F)).
Defined.

(** The other examples of the specification. *)
Example activities_total_zero :
  res (extractSolscanActivities Sim.env
         (activities_view (Js.lit "Total 0 activity")))
  = Ok (Js.lit "0").
Proof. vm_compute. reflexivity. Qed.

Example activities_no_section :
  res (extractSolscanActivities Sim.env
         (activities_view (Js.lit "Transfers   Portfolio")))
  = Ok (Js.lit "0").
Proof. vm_compute. reflexivity. Qed.

Example activities_elsewhere :
  res (extractSolscanActivities Sim.env
         (account_view (Js.lit "Transfers   Portfolio")))
  = Throw (Error (Js.lit
             "Unable to locate Solscan activities section on page.")).
Proof. vm_compute. reflexivity. Qed.

End Activities.

(* ================================================================== *)
(** ** The holdings PnL *)

Section HoldingsPnl.
Import RegexFacts Phrases Greedy.

Definition portfolio_view (body : jsstring) : Sim.world :=
  Sim.on_page (Js.lit "https://jup.ag/portfolio/W") (Js.lit "Jupiter") body.

(** The example of the specification: the number after the currency
    symbol is returned as printed. *)
Example holdings_pnl_with_symbol :
  res (extractJupiterHoldingsPnl Sim.env
         (portfolio_view (Js.lit "Holdings PnL $-1,234.56")))
  = Ok (Js.lit "-1,234.56").
Proof. vm_compute. reflexivity. Qed.

Example holdings_pnl_without_label :
  res (extractJupiterHoldingsPnl Sim.env
         (portfolio_view (Js.lit "Net worth $1,234.56")))
  = Throw (Error (Js.lit "Unable to locate Holdings PnL value on page.")).
Proof. vm_compute. reflexivity. Qed.

(** *** With the currency symbol *)

(** The sign of a printed number: none, [-] or [+]. *)
Definition sign_text (s : jsstring) : Prop :=
  s = [] \/ s = [45%N] \/ s = [43%N].

(** [num] is a number as the page prints it, and the text [rest] after
    it does not continue it: an optional sign, digits and commas, and
    maybe a decimal point with digits after it. *)
Definition printed_number (num rest : jsstring) : Prop :=
  exists sign ds dotp frac,
    num = sign ++ ds ++ dotp ++ frac /\
    sign_text sign /\ count_text ds /\
    ((dotp = [] /\ frac = [] /\
      stops (fun c => digit_or_comma c || N.eqb c 46) rest) \/
     (dotp = [46%N] /\ forallb Js.is_digit frac = true /\
      stops Js.is_digit rest)).

(** At the label, the pattern matches and captures the number that
    follows the currency symbol. *)
Lemma holdings_match_here H ws P mid num rest :
  same_word H "Holdings" -> blank ws -> same_word P "PnL" ->
  forallb (fun c => negb (N.eqb c Js.DOLLAR)) mid = true ->
  printed_number num rest ->
  exists m,
    match_here re_holdings
               (H ++ ws ++ P ++ mid ++ [Js.DOLLAR] ++ num ++ rest) = Some m /\
    group1 m = Some num.
Proof.
  intros HH Hws HP Hmid (sign & ds & dotp & frac & -> & Hsign & Hds & Hfrac).
  assert (HstopP : forall x, stops Js.is_space (P ++ x)).
  { intros x. destruct P as [|c P']; [discriminate HP|].
    unfold same_word in HP. simpl in HP. injection HP as Hc _.
    simpl. apply (@letter_not_space c "P"%char); [simpl; lia | exact Hc]. }
  assert (Hds_head : forall x, exists c tl, ds ++ x = c :: tl /\ digit_or_comma c = true).
  { intros x. destruct Hds as [Hne Hall]. destruct ds as [|c tl]; [congruence|].
    simpl in Hall. apply andb_prop in Hall. destruct Hall. simpl. eauto. }
  assert (Hdc : forall c, digit_or_comma c = true ->
                          ((c =? 45) || (c =? 43))%N = false).
  { intros c Hc. apply not_true_is_false. intros Hs.
    unfold digit_or_comma, Js.is_digit, Js.COMMA in Hc.
    rewrite ?orb_true_iff, ?andb_true_iff, ?N.leb_le, ?N.eqb_eq in *. lia. }
  assert (Hlen : forall l : jsstring, l <> [] -> (1 <= List.length l)%nat).
  { intros [|c l] Hl; simpl; [congruence | lia]. }
  eexists. split.
  - unfold match_here, re_holdings, plus, star, opt.
    cbn [matcher]. rewrite matcher_word by exact HH.
    apply rep_greedy;
      [exact (proj2 Hws) | apply Hlen, Hws | exact I | left; apply HstopP |].
    rewrite matcher_word by exact HP.
    apply rep_greedy;
      [exact Hmid | apply Nat.le_0_l | exact I | left; reflexivity |].
    apply (rep_greedy (fun c => N.eqb c Js.DOLLAR) [Js.DOLLAR]);
      [reflexivity | apply Nat.le_0_l | apply Nat.le_refl
       | right; reflexivity |].
    rewrite <- !app_assoc.
    apply rep_greedy;
      [destruct Hsign as [->|[->| ->]]; reflexivity
      | apply Nat.le_0_l
      | destruct Hsign as [->|[->| ->]]; simpl; lia
      | destruct Hsign as [->|[->| ->]];
        [left | right; reflexivity | right; reflexivity] |].
    { destruct (Hds_head (dotp ++ frac ++ rest)) as (c & tl & -> & Hc).
      simpl. auto. }
    apply rep_greedy;
      [exact (proj2 Hds) | apply Hlen, Hds | exact I | left |].
    { destruct Hfrac as [(-> & -> & Hr)|(-> & _ & _)]; simpl.
      - destruct rest as [|c r]; simpl in *; auto.
        apply orb_false_iff in Hr. tauto.
      - reflexivity. }
    apply rep_greedy;
      [destruct Hfrac as [(-> & _)|(-> & _)]; reflexivity
      | apply Nat.le_0_l
      | destruct Hfrac as [(-> & _)|(-> & _)]; simpl; lia
      | destruct Hfrac as [(-> & -> & Hr)|(-> & _ & _)];
        [left | right; reflexivity] |].
    { destruct rest as [|c r]; simpl in *; auto.
      apply orb_false_iff in Hr. tauto. }
    apply rep_greedy;
      [destruct Hfrac as [(_ & -> & _)|(_ & Hf & _)]; auto
      | apply Nat.le_0_l | exact I | left |].
    { destruct Hfrac as [(_ & -> & Hr)|(_ & _ & Hr)]; auto.
      destruct rest as [|c r]; simpl in *; auto.
      apply orb_false_iff in Hr. destruct Hr as [Hr _].
      unfold digit_or_comma in Hr. apply orb_false_iff in Hr. tauto. }
    reflexivity.
  - cbn [group1].
    replace (sign ++ ds ++ dotp ++ frac ++ rest)
      with ((sign ++ ds ++ dotp ++ frac) ++ rest)
      by (rewrite <- !app_assoc; reflexivity).
    rewrite firstn_consumed. reflexivity.
Qed.

(** No match starts where the first letter of the label is not. *)
Lemma exec_skips_prefix pre : forall s,
  (forall c, In c pre -> Js.canonicalize c <> 72%N) ->
  exec re_holdings (pre ++ s) = exec re_holdings s.
Proof.
  induction pre as [|c pre IH]; intros s Hpre; simpl app; auto.
  rewrite exec_unfold.
  assert (E : match_here re_holdings (c :: pre ++ s) = None).
  { unfold match_here, re_holdings. cbn [matcher word].
    unfold ci at 1.
    destruct (N.eqb_spec (Js.canonicalize c)
                         (Js.canonicalize (N_of_ascii "H"))) as [E|E];
      [|reflexivity].
    exfalso. apply (Hpre c); [left; reflexivity | exact E]. }
  rewrite E. apply IH. intros c' Hc'. apply Hpre. right. exact Hc'.
Qed.

Lemma printed_number_no_space num rest :
  printed_number num rest -> forall c, In c num -> Js.is_space c = false.
Proof.
  intros (sign & ds & dotp & frac & -> & Hsign & Hds & Hfrac) c Hc.
  rewrite !in_app_iff in Hc.
  destruct Hc as [Hc|[Hc|[Hc|Hc]]].
  - destruct Hsign as [->|[->| ->]]; simpl in Hc; try tauto;
      destruct Hc as [<-|[]]; reflexivity.
  - destruct Hds as [_ Hall]. rewrite forallb_forall in Hall.
    apply count_not_space. auto.
  - destruct Hfrac as [(-> & _)|(-> & _)]; simpl in Hc; try tauto.
    destruct Hc as [<-|[]]. reflexivity.
  - destruct Hfrac as [(_ & -> & _)|(_ & Hf & _)]; simpl in Hc; try tauto.
    rewrite forallb_forall in Hf. apply count_not_space.
    unfold digit_or_comma. rewrite (Hf c Hc). reflexivity.
Qed.

(** When the label is followed, after any text without "$", by "$" and a
    printed number, the extractor returns that number as printed.  (The
    label is the first one: no "H" or "h" comes before it.) *)
Lemma holdings_pnl_after_symbol (World : Type) (env : Env World)
      (w w1 w2 : World) pre H ws P mid num rest :
  page_waitForTimeout env 3000 w = (Returns tt, w1) ->
  page_textContent env (Js.lit "body") w1
  = (Returns (Some (pre ++ H ++ ws ++ P ++ mid ++ [Js.DOLLAR] ++ num ++ rest)),
     w2) ->
  (forall c, In c pre -> Js.canonicalize c <> 72%N) ->
  same_word H "Holdings" -> blank ws -> same_word P "PnL" ->
  forallb (fun c => negb (N.eqb c Js.DOLLAR)) mid = true ->
  printed_number num rest ->
  res (extractJupiterHoldingsPnl env w) = Ok num.
Proof.
  intros H1 H2 Hpre HH Hws HP Hmid Hnum.
  rewrite (extractJupiterHoldingsPnl_res _ _ H1 H2).
  rewrite exec_skips_prefix by exact Hpre.
  destruct (@holdings_match_here H ws P mid num rest HH Hws HP Hmid Hnum)
    as (m & Hm & Hg).
  rewrite exec_unfold, Hm, Hg.
  rewrite trim_id; [reflexivity|].
  eapply printed_number_no_space; eauto.
Qed.

(** C2 fails on the code: on the body text "Holdings PnL -1,234.56", the
    label followed by a signed decimal number with no currency symbol, the
    extractor returns "6" and not the number as printed.  [[^\$]*] is
    greedy and the symbol is optional, so the class runs to the end of the
    text and gives back one character at a time until the group matches:
    the capture is the last digit alone. *)
Theorem holdings_pnl_without_symbol :
  res (extractJupiterHoldingsPnl Sim.env
         (portfolio_view (Js.lit "Holdings PnL -1,234.56")))
  = Ok (Js.lit "6").
Proof. vm_compute. reflexivity. Qed.

End HoldingsPnl.

(* ================================================================== *)
(** ** Navigations and hook entries in a trace *)

Section Marks.
Context {World : Type}.
Variable env : Env World.
Variable CONFIG : Config.

Lemma trace_call_then A B ev (f : World -> outcome A * World)
      (m : A -> M World B) w :
  exists rest,
    trace (bind (call ev f) m w) = ev :: rest /\
    (forall Q, (forall a, emits Q (m a)) -> forallb Q rest = true).
Proof.
  unfold bind, call. destruct (f w) as [[a|message] w']; simpl.
  - exists (trace (m a w')). split; [reflexivity | intros Q H; apply H].
  - exists []. split; [reflexivity | reflexivity].
Qed.

Lemma trace_emit_then B ev (m : M World B) w :
  exists rest,
    trace (bind (emit ev) (fun _ => m) w) = ev :: rest /\
    (forall Q, emits Q m -> forallb Q rest = true).
Proof.
  unfold bind, emit. simpl. exists (trace (m w)).
  split; [reflexivity | intros Q H; apply H].
Qed.

Lemma emits_page_work_solscan :
  emits of_page_work
        (bind (waitIfVerification env (Js.lit "Solscan"))
              (fun _ => extractSolscanActivities env)).
Proof.
  apply emits_bind; [apply emits_waitIfVerification|intros _].
  eapply emits_weaken; [|apply emits_extractSolscanActivities].
  apply extraction_is_page_work.
Qed.

Lemma emits_page_work_jupiter :
  emits of_page_work
        (bind (waitIfVerification env (Js.lit "Jupiter"))
              (fun _ => extractJupiterHoldingsPnl env)).
Proof.
  apply emits_bind; [apply emits_waitIfVerification|intros _].
  eapply emits_weaken; [|apply emits_extractJupiterHoldingsPnl].
  apply extraction_is_page_work.
Qed.

(** A task is one navigation followed by work on the page. *)
Lemma solscanTask_trace wallet w :
  exists rest,
    trace (solscanTask env wallet w)
    = EGoto (Js.lit "https://solscan.io/account/" ++ wallet
                    ++ Js.lit "#activities") :: rest /\
    forallb of_page_work rest = true.
Proof.
  unfold solscanTask.
  match goal with
  | |- context [bind (call ?ev ?f) ?m w] =>
      destruct (trace_call_then ev f m w) as (rest & E & HQ)
  end.
  exists rest. split; auto. apply HQ. intros _.
  apply emits_page_work_solscan.
Qed.

Lemma jupiterTask_trace wallet w :
  exists rest,
    trace (jupiterTask env wallet w)
    = EGoto (Js.lit "https://jup.ag/portfolio/" ++ wallet) :: rest /\
    forallb of_page_work rest = true.
Proof.
  unfold jupiterTask.
  match goal with
  | |- context [bind (call ?ev ?f) ?m w] =>
      destruct (trace_call_then ev f m w) as (rest & E & HQ)
  end.
  exists rest. split; auto. apply HQ. intros _.
  apply emits_page_work_jupiter.
Qed.

Lemma page_work_no_goto ev : of_page_work ev = true -> is_goto ev = false.
Proof. destruct ev; simpl; auto; discriminate. Qed.

Lemma page_work_no_hook_entry ev :
  of_page_work ev = true -> is_hook_entry ev = false.
Proof. destruct ev; simpl; auto; discriminate. Qed.

Lemma page_work_no_sleep ev : of_page_work ev = true -> is_sleep ev = false.
Proof. destruct ev; simpl; auto; discriminate. Qed.

Lemma page_work_no_update ev : of_page_work ev = true -> is_update ev = false.
Proof. destruct ev; simpl; auto; discriminate. Qed.

(** Each invocation of a task navigates exactly once. *)
Lemma solscanTask_navigates_once wallet w :
  count is_goto (trace (solscanTask env wallet w)) = 1%nat.
Proof.
  destruct (solscanTask_trace wallet w) as (rest & -> & H).
  change (S (count is_goto rest) = 1%nat).
  rewrite (@count_none _ _ _ page_work_no_goto H). reflexivity.
Qed.

Lemma jupiterTask_navigates_once wallet w :
  count is_goto (trace (jupiterTask env wallet w)) = 1%nat.
Proof.
  destruct (jupiterTask_trace wallet w) as (rest & -> & H).
  change (S (count is_goto rest) = 1%nat).
  rewrite (@count_none _ _ _ page_work_no_goto H). reflexivity.
Qed.

Lemma solscanTask_no_hook_entry wallet w :
  count is_hook_entry (trace (solscanTask env wallet w)) = 0%nat.
Proof.
  destruct (solscanTask_trace wallet w) as (rest & -> & H).
  change (count is_hook_entry rest = 0%nat).
  apply (@count_none _ _ _ page_work_no_hook_entry H).
Qed.

Lemma solscanTask_no_sleep wallet w :
  sleeps (trace (solscanTask env wallet w)) = [].
Proof.
  destruct (solscanTask_trace wallet w) as (rest & -> & H).
  change (sleeps rest = []).
  apply (@sleeps_none _ _ page_work_no_sleep H).
Qed.

(** The failure hook begins by looking for the screenshot directory, and
    does that once. *)
Lemma captureFailureScreenshot_trace wallet label w :
  exists rest,
    trace (captureFailureScreenshot env CONFIG wallet label w)
    = EExists (screenshotDir CONFIG) :: rest /\
    forallb (fun ev => of_hook ev && negb (is_hook_entry ev)) rest = true.
Proof.
  unfold captureFailureScreenshot, ensureScreenshotDir, bind, emit, read,
    call, ret, log, prepend.
  cbn [res world trace app].
  destruct (fs_existsSync env (screenshotDir CONFIG) w);
    cbn [negb res world trace app].
  - destruct (page_screenshot env _ w) as [[u|message] w1];
      cbn [res world trace app]; eexists; split; reflexivity.
  - destruct (fs_mkdirSync env (screenshotDir CONFIG) w) as [[u|message] w1];
      cbn [res world trace app]; [|eexists; split; reflexivity].
    destruct (page_screenshot env _ w1) as [[u'|message] w2];
      cbn [res world trace app]; eexists; split; reflexivity.
Qed.

Lemma hook_no_goto ev :
  of_hook ev && negb (is_hook_entry ev) = true -> is_goto ev = false.
Proof. destruct ev; simpl; auto; discriminate. Qed.

Lemma hook_entered_once ev :
  of_hook ev && negb (is_hook_entry ev) = true -> is_hook_entry ev = false.
Proof. destruct ev; simpl; auto; discriminate. Qed.

Lemma captureFailureScreenshot_entered_once wallet label w :
  count is_hook_entry
        (trace (captureFailureScreenshot env CONFIG wallet label w)) = 1%nat.
Proof.
  destruct (captureFailureScreenshot_trace wallet label w) as (rest & -> & H).
  change (S (count is_hook_entry rest) = 1%nat).
  rewrite (@count_none _ _ _ hook_entered_once H). reflexivity.
Qed.

Lemma captureFailureScreenshot_no_goto wallet label w :
  count is_goto
        (trace (captureFailureScreenshot env CONFIG wallet label w)) = 0%nat.
Proof.
  destruct (captureFailureScreenshot_trace wallet label w) as (rest & -> & H).
  change (count is_goto rest = 0%nat).
  apply (@count_none _ _ _ hook_no_goto H).
Qed.

(** [hook ;; throw e], the handler of [guarded]. *)
Lemma rethrow_trace (hook : M World unit) A e w :
  trace (bind hook (fun _ => throw (A := A) e) w) = trace (hook w).
Proof.
  unfold bind. destruct (res (hook w)); simpl; auto using app_nil_r.
Qed.

Lemma rethrow_world (hook : M World unit) A e w :
  world (bind hook (fun _ => throw (A := A) e) w) = world (hook w).
Proof. unfold bind. destruct (res (hook w)); reflexivity. Qed.

Lemma rethrow_res (hook : M World unit) A e w :
  res (bind hook (fun _ => throw (A := A) e) w) =
  match res (hook w) with
  | Ok _ => Throw e
  | Throw e' => Throw e'
  end.
Proof. unfold bind. destruct (res (hook w)); reflexivity. Qed.

End Marks.

(* ================================================================== *)
(** ** The retry wrapper and its failure hook *)

(** Two loads that time out, then the activities view. *)
Definition third_time_lucky : Sim.world :=
  Sim.start [Sim.LoadFails (Js.lit "Timeout 45000ms exceeded.");
             Sim.LoadFails (Js.lit "Timeout 45000ms exceeded.");
             Sim.Loads (Js.lit "Solscan") (Js.lit "Total 7 activities")].

(** No load ever succeeds. *)
Definition never_loads : Sim.world := Sim.start [].

(** The text of C3 for the attempts that all fail: the operation is
    invoked once per attempt, the hook once, and the error of the last
    attempt is what the wrapper throws. *)
Definition last_error_is_propagated {World A : Type} (env : Env World)
           (CONFIG : Config) (task : M World A) (label : jsstring)
           (hook : M World unit) (is_op is_hook : Event -> bool)
           (w : World) : Prop :=
  forall j t w' e,
    Z.of_nat j = maxRetries CONFIG ->
    Failed env task label j w t w' e ->
    let o := guarded env CONFIG task label hook w in
    count is_op (trace o) = j /\
    count is_hook (trace o) = 1%nat /\
    res o = Throw e.

(** No load ever succeeds, and no screenshot can be written. *)
Definition never_loads_no_disk : Sim.world :=
  Sim.MkWorld [] [] [] [] true 0 [].

Lemma never_loads_no_disk_run :
  exists t w',
    Failed Sim.env (solscanTask Sim.env (Js.lit "W"))
           (Js.lit "solscan-" ++ Js.lit "W") 3 never_loads_no_disk t w'
           (Error (Js.lit "Timeout 45000ms exceeded.")).
Proof.
  do 2 eexists.
  eapply Failed_S; [eapply Failed_S; [eapply Failed_S; [apply Failed_O|]|]|];
    lazy; reflexivity.
Qed.

(** C3, as stated, fails: the three attempts end with the time-out of the
    navigation, the hook is entered and its screenshot fails, and what
    the wrapper throws is the error of the screenshot, not the last error
    of the operation. *)
Lemma hook_failure_counterexample :
  ~ last_error_is_propagated Sim.env Sim.config
      (solscanTask Sim.env (Js.lit "W")) (Js.lit "solscan-" ++ Js.lit "W")
      (captureFailureScreenshot Sim.env Sim.config (Js.lit "W")
                                (Js.lit "solscan"))
      is_goto is_hook_entry never_loads_no_disk.
Proof.
  intros H. destruct never_loads_no_disk_run as (t & w' & HF).
  destruct (H 3%nat t w' _ eq_refl HF) as (_ & _ & E).
  vm_compute in E. discriminate E.
Qed.

(** C3, amended: the retry wrapper of [run], that is [withRetries] with
    its [catch] handler, for an operation and a hook whose invocations can
    be told in the trace (each invocation of the operation leaves exactly
    one action of the kind [is_op], each invocation of the hook exactly
    one of the kind [is_hook], neither kind being a log line or a sleep).
    An attempt fails when the operation throws an [Error] object.
    - When the attempts 1 to k-1 fail and attempt k succeeds, k being at
      most [maxRetries] (below, k is [S j]), the wrapper returns the
      result of attempt k, having invoked the operation k times and the
      hook not at all.
    - When all [maxRetries] attempts fail, the operation has been invoked
      [maxRetries] times and the hook once, and the wrapper returns no
      value: it throws the error of the last attempt when the hook has
      returned, and the error of the hook when the hook throws. *)
Theorem retry_wrapper_invocations :
  forall (World : Type) (env : Env World) (CONFIG : Config) (A : Type)
         (task : M World A) (hook : M World unit) (label : jsstring)
         (is_op is_hook : Event -> bool),
    (forall w, count is_op (trace (task w)) = 1%nat) ->
    (forall w, count is_hook (trace (task w)) = 0%nat) ->
    (forall w, count is_hook (trace (hook w)) = 1%nat) ->
    (forall w, count is_op (trace (hook w)) = 0%nat) ->
    (forall m c, is_op (ELog m c) = false) ->
    (forall ms, is_op (ESleep ms) = false) ->
    (forall m c, is_hook (ELog m c) = false) ->
    (forall ms, is_hook (ESleep ms) = false) ->
    1 <= maxRetries CONFIG ->
    forall w,
      (forall j t w' e v,
          Z.of_nat (S j) <= maxRetries CONFIG ->
          Failed env task label j w t w' e ->
          res (task w') = Ok v ->
          let o := guarded env CONFIG task label hook w in
          res o = Ok v /\
          count is_op (trace o) = S j /\
          count is_hook (trace o) = 0%nat) /\
      (forall j t w' e,
          Z.of_nat j = maxRetries CONFIG ->
          Failed env task label j w t w' e ->
          let o := guarded env CONFIG task label hook w in
          count is_op (trace o) = j /\
          count is_hook (trace o) = 1%nat /\
          (forall v, res o <> Ok v) /\
          (forall u, res (hook w') = Ok u -> res o = Throw e) /\
          (forall e', res (hook w') = Throw e' -> res o = Throw e') /\
          exists w_last message,
            res (task w_last) = Throw (Error message) /\ e = Error message).
Proof.
  intros World env CONFIG A task hook label is_op is_hook
         Hop Hop' Hhook Hhook' Lop Sop Lhook Shook Hmax w.
  split.
  - intros j t w' e v Hj HF Hok o. subst o. unfold guarded.
    pose proof (withRetries_success HF Hok Hj) as E.
    erewrite try_catch_ok; rewrite E; simpl; eauto.
    rewrite !count_app, Hop, Hop'.
    rewrite (Failed_count is_op Hop Lop Sop HF).
    rewrite (Failed_count is_hook Hop' Lhook Shook HF).
    repeat split; auto; lia.
  - intros j t w' e Hj HF o. subst o. unfold guarded.
    pose proof (withRetries_exhausted HF Hj) as E.
    erewrite try_catch_throw; rewrite E; simpl; eauto.
    rewrite rethrow_trace, rethrow_res, !count_app, Hhook, Hhook'.
    rewrite (Failed_count is_op Hop Lop Sop HF).
    rewrite (Failed_count is_hook Hop' Lhook Shook HF).
    repeat split; try lia.
    + intros v. destruct (res (hook w')); discriminate.
    + intros u ->. reflexivity.
    + intros e' ->. reflexivity.
    + inversion HF; subst; [simpl in Hj; lia | eauto].
Qed.

Lemma third_time_lucky_run :
  exists t w' e,
    Failed Sim.env (solscanTask Sim.env (Js.lit "W"))
           (Js.lit "solscan-" ++ Js.lit "W") 2 third_time_lucky t w' e /\
    res (solscanTask Sim.env (Js.lit "W") w') = Ok (Js.lit "7").
Proof.
  do 3 eexists. split.
  - eapply Failed_S; [eapply Failed_S; [apply Failed_O|]|];
      lazy; reflexivity.
  - vm_compute. reflexivity.
Qed.

(** On a wallet page that loads at the third attempt, with three attempts
    allowed: three navigations, no screenshot, and the count is returned. *)
Lemma retry_wrapper_invocations_witness :
  let o := fetchActivities Sim.env Sim.config (Js.lit "W") third_time_lucky in
  res o = Ok (Js.lit "7") /\
  count is_goto (trace o) = 3%nat /\
  count is_hook_entry (trace o) = 0%nat.
Proof.
  destruct third_time_lucky_run as (t & w' & e & HF & Hok).
  refine (proj1 (@retry_wrapper_invocations
            _ Sim.env Sim.config _
            (solscanTask Sim.env (Js.lit "W"))
            (captureFailureScreenshot Sim.env Sim.config (Js.lit "W")
                                      (Js.lit "solscan"))
            (Js.lit "solscan-" ++ Js.lit "W")
            is_goto is_hook_entry
            (solscanTask_navigates_once Sim.env (Js.lit "W"))
            (solscanTask_no_hook_entry Sim.env (Js.lit "W"))
            (captureFailureScreenshot_entered_once Sim.env Sim.config _ _)
            (captureFailureScreenshot_no_goto Sim.env Sim.config _ _)
            (fun _ _ => eq_refl) (fun _ => eq_refl)
            (fun _ _ => eq_refl) (fun _ => eq_refl)
            _ third_time_lucky)
          2%nat t w' e (Js.lit "7") _ HF Hok).
  - vm_compute. discriminate.
  - vm_compute. discriminate.
Defined.

(** The specification's retry policy, and the pause it states after a
    failed attempt [k]. *)
Record RetryPolicy : Type := MkPolicy {
  maxAttempts : Z;
  backoffBaseMs : Z
}.

Definition backoff_as_stated (policy : RetryPolicy) (k : Z) : Z :=
  backoffBaseMs policy * k.

(** The text of C4 on the pauses of a run under [policy]: the pause after
    the failed attempt [k] is [backoffBaseMs * k]. *)
Definition backoff_claim_as_stated (policy : RetryPolicy) (pauses : list Z)
  : Prop :=
  forall k, (k < List.length pauses)%nat ->
            nth k pauses 0 = backoff_as_stated policy (Z.of_nat (S k)).

(** C4, as stated, fails: [withRetries] receives the label and the number
    of attempts and nothing else, and its pause is [2000 * attempt].  Under
    a policy of three attempts with a base of 500 ms, the pause after the
    first failure is 2000 ms, not 500 ms. *)
Lemma backoff_base_counterexample :
  ~ backoff_claim_as_stated
      (MkPolicy 3 500)
      (sleeps (trace (withRetries Sim.env (solscanTask Sim.env (Js.lit "W"))
                                  (Js.lit "solscan-W")
                                  (maxAttempts (MkPolicy 3 500))
                                  third_time_lucky))).
Proof.
  intros H. specialize (H 0%nat). vm_compute in H.
  assert (E : (0 < 2)%nat) by lia.
  specialize (H E). discriminate H.
Qed.

(** C4, amended: when attempt k fails and k is less than the number of
    attempts (below, k is [S j]), [withRetries] logs the failure and
    sleeps for 2000 * k milliseconds, and attempt k+1 starts when that
    time has passed.  The base of 2000 ms is a constant of the code, not a
    field of the configuration. *)
Theorem backoff_is_linear_in_attempt :
  forall (World : Type) (env : Env World) (A : Type) (task : M World A)
         (label : jsstring) (attempts : Z) (w : World)
         (j : nat) (t : list Event) (w' : World) (e : thrown)
         (message : jsstring),
    Failed env task label j w t w' e ->
    res (task w') = Throw (Error message) ->
    Z.of_nat (S j) < attempts ->
    let k := Z.of_nat (S j) in
    let w_next := timer env (2000 * k) (world (task w')) in
    exists rest,
      trace (withRetries env task label attempts w)
      = t ++ trace (task w')
          ++ [retry_log label k message; ESleep (2000 * k)]
          ++ trace (task w_next) ++ rest.
Proof.
  intros World env A task label attempts w j t w' e message HF Hfail Hlt
         k w_next.
  subst k w_next.
  pose proof (Failed_S HF Hfail) as HF'.
  unfold withRetries.
  replace (Z.to_nat attempts)
    with (S j + S (Z.to_nat attempts - S (S j)))%nat by lia.
  rewrite (retry_after_failures HF') by lia. unfold prepend; cbn [trace].
  assert (Hle : Z.of_nat (S j) + 1 <= attempts) by lia.
  destruct (@retryLoop_starts_with_task
              _ env _ task label
              (Z.to_nat attempts - S (S j)) attempts (Z.of_nat (S j) + 1)
              (Error message)
              (timer env (2000 * Z.of_nat (S j)) (world (task w')))
              Hle)
    as [rest ->].
  exists rest. rewrite <- !app_assoc. reflexivity.
Qed.

(** The second attempt of three fails: a pause of 4000 ms follows. *)
Lemma backoff_is_linear_in_attempt_witness :
  In (ESleep 4000)
     (trace (withRetries Sim.env (solscanTask Sim.env (Js.lit "W"))
                         (Js.lit "solscan-W") 3 third_time_lucky)).
Proof.
  assert (HF : exists t w' e message,
             Failed Sim.env (solscanTask Sim.env (Js.lit "W"))
                    (Js.lit "solscan-W") 1 third_time_lucky t w' e /\
             res (solscanTask Sim.env (Js.lit "W") w')
             = Throw (Error message)).
  { do 4 eexists. split.
    - eapply Failed_S; [apply Failed_O|]; lazy; reflexivity.
    - lazy. reflexivity. }
  destruct HF as (t & w' & e & message & HF & Hfail).
  destruct (@backoff_is_linear_in_attempt
              _ Sim.env _ (solscanTask Sim.env (Js.lit "W"))
              (Js.lit "solscan-W") 3 third_time_lucky 1 t w' e message
              HF Hfail) as [rest E].
  - vm_compute. reflexivity.
  - rewrite E. apply in_or_app. right. apply in_or_app. right.
    right. left. reflexivity.
Defined.

(** C10: when every one of the [attempts] attempts fails (there is at
    least one), [withRetries] has slept after each of them, for 2000 * k
    milliseconds after attempt k: as many pauses as attempts.  The log
    line and the pause of 2000 * attempts milliseconds that follow the
    last failure are the last things it does, and the error of that last
    attempt is thrown in the world as it is after the pause.  (The count
    of pauses is that of the wrapper: the operation is one that does not
    call [sleep] itself.) *)
Theorem backoff_after_last_failure :
  forall (World : Type) (env : Env World) (A : Type) (task : M World A)
         (label : jsstring) (attempts : Z) (w : World)
         (j : nat) (t : list Event) (w' : World) (e : thrown),
    (forall w0, sleeps (trace (task w0)) = []) ->
    1 <= attempts ->
    Z.of_nat j = attempts ->
    Failed env task label j w t w' e ->
    let o := withRetries env task label attempts w in
    res o = Throw e /\
    sleeps (trace o) = map (fun k => 2000 * Z.of_nat k) (seq 1 j) /\
    List.length (sleeps (trace o)) = j /\
    exists w_last message t0,
      res (task w_last) = Throw (Error message) /\
      e = Error message /\
      trace o = t0 ++ trace (task w_last)
                   ++ [retry_log label attempts message;
                       ESleep (2000 * attempts)] /\
      world o = timer env (2000 * attempts) (world (task w_last)).
Proof.
  intros World env A task label attempts w j t w' e Hquiet Hmin Hj HF o.
  subst o. rewrite (withRetries_exhausted HF Hj). simpl.
  rewrite (Failed_sleeps Hquiet HF), length_map, length_seq.
  repeat split; auto.
  inversion HF; subst.
  - simpl in Hmin. lia.
  - eauto 10.
Qed.

(** Three attempts on a site that never loads: pauses of 2000, 4000 and
    6000 ms, the last one after the third failure. *)
Lemma backoff_after_last_failure_witness :
  sleeps (trace (withRetries Sim.env (solscanTask Sim.env (Js.lit "W"))
                             (Js.lit "solscan-W") 3 never_loads))
  = [2000; 4000; 6000].
Proof.
  assert (HF : exists t w' e,
             Failed Sim.env (solscanTask Sim.env (Js.lit "W"))
                    (Js.lit "solscan-W") 3 never_loads t w' e).
  { do 3 eexists.
    eapply Failed_S; [eapply Failed_S; [eapply Failed_S; [apply Failed_O|]|]|];
      lazy; reflexivity. }
  destruct HF as (t & w' & e & HF).
  destruct (@backoff_after_last_failure
              _ Sim.env _ (solscanTask Sim.env (Js.lit "W"))
              (Js.lit "solscan-W") 3 never_loads 3 t w' e
              (solscanTask_no_sleep Sim.env (Js.lit "W")))
    as (_ & E & _); auto.
  - lia.
Defined.

(** The portfolio page loads three times without the label, and the
    screenshot cannot be written. *)
Definition no_label_no_disk : Sim.world :=
  Sim.MkWorld [] [] []
              [Sim.Loads (Js.lit "Jupiter") (Js.lit "Net worth $12");
               Sim.Loads (Js.lit "Jupiter") (Js.lit "Net worth $12");
               Sim.Loads (Js.lit "Jupiter") (Js.lit "Net worth $12")]
              true 0 [].

(** The text of C9: whatever the hook does, the error that comes out of
    the guarded call is the one the retries ended with. *)
Definition original_error_survives {World A : Type} (env : Env World)
           (CONFIG : Config) (task : M World A) (label : jsstring)
           (hook : M World unit) (w : World) : Prop :=
  forall e,
    res (withRetries env task label (maxRetries CONFIG) w) = Throw e ->
    res (guarded env CONFIG task label hook w) = Throw e.

(** C9, as stated, fails: the extraction error of the third attempt is
    "Unable to locate Holdings PnL value on page.", the screenshot fails,
    and what comes out is the error of the screenshot. *)
Lemma capture_failure_counterexample :
  ~ original_error_survives Sim.env Sim.config
      (jupiterTask Sim.env (Js.lit "W")) (Js.lit "jupiter-W")
      (captureFailureScreenshot Sim.env Sim.config (Js.lit "W")
                                (Js.lit "jupiter"))
      no_label_no_disk.
Proof.
  intros H.
  specialize (H (Error (Js.lit "Unable to locate Holdings PnL value on page."))).
  assert (E : res (withRetries Sim.env (jupiterTask Sim.env (Js.lit "W"))
                     (Js.lit "jupiter-W") (maxRetries Sim.config)
                     no_label_no_disk)
              = Throw (Error (Js.lit
                         "Unable to locate Holdings PnL value on page.")))
    by (vm_compute; reflexivity).
  specialize (H E). vm_compute in H. discriminate H.
Qed.

Lemma captureFailureScreenshot_fails_silently (World : Type) (env : Env World)
      (CONFIG : Config) wallet label (w : World) e :
  res (captureFailureScreenshot env CONFIG wallet label w) = Throw e ->
  count is_log (trace (captureFailureScreenshot env CONFIG wallet label w))
  = 0%nat.
Proof.
  unfold captureFailureScreenshot, ensureScreenshotDir, bind, emit, read,
    call, ret, log, prepend.
  cbn [res world trace app].
  destruct (fs_existsSync env (screenshotDir CONFIG) w);
    cbn [negb res world trace app].
  - destruct (page_screenshot env _ w) as [[u|message] w1];
      cbn [res world trace app]; [discriminate | reflexivity].
  - destruct (fs_mkdirSync env (screenshotDir CONFIG) w) as [[u|message] w1];
      cbn [res world trace app]; [|reflexivity].
    destruct (page_screenshot env _ w1) as [[u'|message] w2];
      cbn [res world trace app]; [discriminate | reflexivity].
Qed.

(** C9, amended: when the retries are exhausted and the screenshot capture
    fails in its turn, the error of the capture is the one that reaches the
    caller, in place of the error the retries ended with; the hook is not
    retried and writes no log line of its own. *)
Theorem capture_failure_replaces_error :
  forall (World A : Type) (env : Env World) (CONFIG : Config)
         (task : M World A) (label wallet site : jsstring) (w : World)
         (e e' : thrown),
    let r := withRetries env task label (maxRetries CONFIG) w in
    let hook := captureFailureScreenshot env CONFIG wallet site in
    res r = Throw e ->
    res (hook (world r)) = Throw e' ->
    let o := guarded env CONFIG task label hook w in
    res o = Throw e' /\
    trace o = trace r ++ trace (hook (world r)) /\
    count is_hook_entry (trace (hook (world r))) = 1%nat /\
    count is_log (trace (hook (world r))) = 0%nat.
Proof.
  intros World A env CONFIG task label wallet site w e e' r hook Hr Hh o.
  subst o r hook. unfold guarded.
  rewrite (try_catch_throw _ _ _ Hr). unfold prepend; cbn [res trace].
  rewrite rethrow_res, rethrow_trace, Hh.
  repeat split.
  - apply captureFailureScreenshot_entered_once.
  - eapply captureFailureScreenshot_fails_silently; eauto.
Qed.

(** On the page without the label, with a disk that is full, the caller
    gets the error of the disk. *)
Lemma capture_failure_replaces_error_witness :
  res (fetchHoldingsPnl Sim.env Sim.config (Js.lit "W") no_label_no_disk)
  = Throw (Error (Js.lit "ENOSPC: no space left on device")).
Proof.
  refine (proj1 (@capture_failure_replaces_error
                   _ _ Sim.env Sim.config (jupiterTask Sim.env (Js.lit "W"))
                   (Js.lit "jupiter-" ++ Js.lit "W") (Js.lit "W")
                   (Js.lit "jupiter") no_label_no_disk
                   (Error (Js.lit "Unable to locate Holdings PnL value on page."))
                   (Error (Js.lit "ENOSPC: no space left on device"))
                   _ _)).
  - vm_compute. reflexivity.
  - vm_compute. reflexivity.
Defined.

(* ================================================================== *)
(** ** The wallet loop: records that are skipped *)

(** C5: a record whose wallet address is missing, or whose two result
    fields are both non-empty already, is skipped: its iteration leaves
    the world as it is and does nothing but write one log line (no
    navigation, no extraction, no write to the row store), and the loop
    goes on with the next record. *)
Theorem skipped_record_is_only_logged :
  forall (World : Type) (env : Env World) (CONFIG : Config)
         (index : Z) (walletEntry : WalletEntry) (rest : list WalletEntry)
         (w : World),
    truthy (wallet walletEntry) = false \/
    (truthy (activities walletEntry) = true /\
     truthy (holdingsPnl walletEntry) = true) ->
    exists message context,
      iteration env CONFIG index walletEntry w
      = MkOut (Ok tt) w [ELog message context] /\
      walletLoop env CONFIG index (walletEntry :: rest) w
      = prepend [ELog message context]
                (walletLoop env CONFIG (index + 1) rest w).
Proof.
  intros World env CONFIG index walletEntry rest w H.
  assert (E : exists message context,
             iteration env CONFIG index walletEntry w
             = MkOut (Ok tt) w [ELog message context]).
  { unfold iteration.
    destruct (truthy (wallet walletEntry)) eqn:Ew; simpl.
    - destruct H as [H|[Ha Hp]]; [discriminate|].
      rewrite Ha, Hp. simpl. do 2 eexists. reflexivity.
    - do 2 eexists. reflexivity. }
  destruct E as (message & context & E).
  exists message, context. split; auto.
  simpl. unfold bind. rewrite E. reflexivity.
Qed.

(** A sheet of two rows, the first one filled in already. *)
Lemma skipped_record_is_only_logged_witness :
  exists message context,
    iteration Sim.env Sim.config 0
              (MkWallet (Some (Js.lit "W1")) (Some (Js.lit "12"))
                        (Some (Js.lit "3.50")) 2)
              (Sim.start [])
    = MkOut (Ok tt) (Sim.start []) [ELog message context] /\
    walletLoop Sim.env Sim.config 0
               [MkWallet (Some (Js.lit "W1")) (Some (Js.lit "12"))
                         (Some (Js.lit "3.50")) 2;
                MkWallet (Some (Js.lit "W2")) None None 3]
               (Sim.start [])
    = prepend [ELog message context]
              (walletLoop Sim.env Sim.config (0 + 1)
                          [MkWallet (Some (Js.lit "W2")) None None 3]
                          (Sim.start [])).
Proof.
  apply (@skipped_record_is_only_logged _ Sim.env Sim.config).
  right. split; reflexivity.
Defined.

(* ================================================================== *)
(** ** The verification gate *)

(** A page is read by the extractors. *)
Definition reads_page (ev : Event) : bool :=
  match ev with
  | EWaitForTimeout _ | ETextContent _ => true
  | _ => false
  end.

(** The next navigation comes before the page is read. *)
Fixpoint navigates_before_reading (t : list Event) : bool :=
  match t with
  | [] => false
  | ev :: t' =>
      if is_goto ev then true
      else if reads_page ev then false
      else navigates_before_reading t'
  end.

(** The text of C7 on a trace: after every answer of the operator, the
    page is navigated to again before it is read. *)
Fixpoint renavigates_after_resumption (t : list Event) : bool :=
  match t with
  | [] => true
  | EQuestion _ :: t' =>
      navigates_before_reading t' && renavigates_after_resumption t'
  | _ :: t' => renavigates_after_resumption t'
  end.

(** The wallet page comes up behind a challenge, which the operator
    solves. *)
Definition behind_challenge : Sim.world :=
  Sim.start [Sim.Loads (Js.lit "Just a moment...")
                       (Js.lit "Total 3 activities")].

(** C7, as stated, fails: after the operator's answer the task reads the
    page it is on. *)
Lemma resumption_counterexample :
  renavigates_after_resumption
    (trace (solscanTask Sim.env (Js.lit "W") behind_challenge)) = false.
Proof. vm_compute. reflexivity. Qed.

(** C7, amended: when the detector reports a challenge on the page just
    loaded, the task logs it, waits for the operator, and then goes
    straight on to the extraction, in the world as the operator left it:
    between the operator's answer and the end of the task there is no
    navigation and no further look by the detector.  (The page is
    navigated to again only if the extraction fails and the retry loop
    starts another attempt.) *)
Theorem resumption_goes_on_to_extraction :
  forall (World A : Type) (env : Env World) (url contextLabel : jsstring)
         (extractor : M World A) (w w1 : World),
    emits of_extraction extractor ->
    page_goto env url w = (Returns tt, w1) ->
    res (detectVerification env w1) = Ok true ->
    let d := detectVerification env w1 in
    let question := Js.lit "Press Enter to continue..." in
    let resumed := readline_question env question (world d) in
    bind (call (EGoto url) (page_goto env url))
         (fun _ => bind (waitIfVerification env contextLabel)
                        (fun _ => extractor)) w
    = prepend (EGoto url :: trace d
                 ++ [ELog (Js.lit "Verification detected on "
                             ++ contextLabel ++ Js.lit ".") [];
                     EQuestion question])
              (extractor resumed) /\
    count is_goto (trace (extractor resumed)) = 0%nat /\
    count of_detection (trace (extractor resumed)) = 0%nat.
Proof.
  intros World A env url contextLabel extractor w w1 Hex Hgoto Hd
         d question resumed.
  subst d question resumed. split; [|split].
  - unfold waitIfVerification, promptToContinue, log, emit, bind, call,
      prepend.
    rewrite Hgoto. cbn [res world trace]. rewrite Hd.
    cbn [res world trace app].
    rewrite <- !app_assoc. reflexivity.
  - eapply count_none; [|apply Hex]. intros []; simpl; auto; discriminate.
  - eapply count_none; [|apply Hex]. intros []; simpl; auto; discriminate.
Qed.

(** Behind the challenge: one navigation, the detector's look at the
    title, the operator, and the extraction of "3". *)
Lemma resumption_goes_on_to_extraction_witness :
  count is_goto (trace (solscanTask Sim.env (Js.lit "W") behind_challenge))
  = 1%nat /\
  res (solscanTask Sim.env (Js.lit "W") behind_challenge) = Ok (Js.lit "3").
Proof.
  destruct (@resumption_goes_on_to_extraction
              _ _ Sim.env
              (Js.lit "https://solscan.io/account/" ++ Js.lit "W"
                      ++ Js.lit "#activities")
              (Js.lit "Solscan") (extractSolscanActivities Sim.env)
              behind_challenge
              (snd (Sim.goto (Js.lit "https://solscan.io/account/W#activities")
                             behind_challenge))
              (emits_extractSolscanActivities Sim.env) eq_refl)
    as (E & Hg & _).
  - vm_compute. reflexivity.
  - unfold solscanTask. rewrite E. split.
    + vm_compute. reflexivity.
    + vm_compute. reflexivity.
Defined.

(* ================================================================== *)
(** ** The rate-limit pauses of a wallet *)

(** The text of C8 on a trace, for the write: the action just before a
    write to the row store is a pause of [rate] milliseconds. *)
Fixpoint pause_precedes_write (rate : Z) (previous : option Event)
         (t : list Event) : bool :=
  match t with
  | [] => true
  | ev :: t' =>
      (if is_update ev
       then match previous with
            | Some (ESleep ms) => ms =? rate
            | _ => false
            end
       else true)
      && pause_precedes_write rate (Some ev) t'
  end.

(** Both pages load and can be read. *)
Definition both_load : Sim.world :=
  Sim.start [Sim.Loads (Js.lit "Solscan") (Js.lit "Total 7 activities");
             Sim.Loads (Js.lit "Jupiter") (Js.lit "Holdings PnL $5.25")].

(** C8, as stated, fails: the write follows the second fetch at once. *)
Lemma pause_before_write_counterexample :
  pause_precedes_write
    (rateLimitMs Sim.config) None
    (trace (processWallet Sim.env Sim.config 0 (Js.lit "W") 2 both_load))
  = false.
Proof. vm_compute. reflexivity. Qed.

Section Wallet.
Context {World : Type}.
Variable env : Env World.
Variable CONFIG : Config.

Definition processing_log (index : Z) (wallet : jsstring) (rowIndex : Z)
  : Event :=
  ELog (Js.lit "Processing wallet")
       [("index"%string, VNum (index + 1)); ("wallet"%string, VStr wallet);
        ("rowIndex"%string, VNum rowIndex)].

Definition updated_log (rowIndex : Z) (activitiesValue pnlValue : jsstring)
  : Event :=
  ELog (Js.lit "Updated sheet row")
       [("rowIndex"%string, VNum rowIndex);
        ("activitiesValue"%string, VStr activitiesValue);
        ("pnlValue"%string, VStr pnlValue)].

(** The outcome of [processWallet], step by step. *)
Lemma processWallet_out index wallet rowIndex w :
  let rate := rateLimitMs CONFIG in
  let a := fetchActivities env CONFIG wallet w in
  processWallet env CONFIG index wallet rowIndex w =
  prepend [processing_log index wallet rowIndex]
    match res a with
    | Throw e => MkOut (Throw e) (world a) (trace a)
    | Ok activitiesValue =>
        let b := fetchHoldingsPnl env CONFIG wallet
                                  (timer env rate (world a)) in
        prepend (trace a ++ [ESleep rate])
          match res b with
          | Throw e => MkOut (Throw e) (world b) (trace b)
          | Ok pnlValue =>
              let wr := writeSheetValues env CONFIG rowIndex
                                         activitiesValue pnlValue (world b) in
              prepend (trace b)
                match res wr with
                | Throw e => MkOut (Throw e) (world wr) (trace wr)
                | Ok _ =>
                    MkOut (Ok tt) (timer env rate (world wr))
                          (trace wr
                             ++ [updated_log rowIndex activitiesValue pnlValue;
                                 ESleep rate])
                end
          end
    end.
Proof.
  intros rate a. subst rate a.
  unfold processWallet, bind, log, emit, sleep, prepend.
  cbn [res world trace app].
  destruct (res (fetchActivities env CONFIG wallet w)) as [v|e];
    cbn [res world trace app]; [|reflexivity].
  destruct (res (fetchHoldingsPnl env CONFIG wallet _)) as [p|e];
    cbn [res world trace app]; [|rewrite <- app_assoc; reflexivity].
  destruct (res (writeSheetValues env CONFIG rowIndex v p _)) as [u|e];
    cbn [res world trace app]; rewrite <- ?app_assoc; reflexivity.
Qed.

Lemma writeSheetValues_trace rowIndex activitiesValue pnlValue w :
  trace (writeSheetValues env CONFIG rowIndex activitiesValue pnlValue w)
  = [ESheetsUpdate (resultRange CONFIG rowIndex) activitiesValue pnlValue].
Proof.
  unfold writeSheetValues, call.
  destruct (sheets_values_update env _ _ _ w) as [[u|message] w'];
    reflexivity.
Qed.
End Wallet.

(** C8, amended: what a wallet that is not skipped does, in order: the
    log line, the first fetch; if that succeeds, a pause of [rateLimitMs],
    then the second fetch; if that succeeds too, the write to the row
    store at once, with no pause before it; and if the write succeeds, the
    log line and a second pause of [rateLimitMs].  A fetch or a write that
    fails is followed by no pause: the iteration ends there. *)
Theorem pauses_of_a_wallet :
  forall (World : Type) (env : Env World) (CONFIG : Config)
         (index : Z) (wallet : jsstring) (rowIndex : Z) (w : World),
    let rate := rateLimitMs CONFIG in
    let a := fetchActivities env CONFIG wallet w in
    trace (processWallet env CONFIG index wallet rowIndex w) =
    processing_log index wallet rowIndex :: trace a ++
      match res a with
      | Throw _ => []
      | Ok activitiesValue =>
          let b := fetchHoldingsPnl env CONFIG wallet
                                    (timer env rate (world a)) in
          ESleep rate :: trace b ++
            match res b with
            | Throw _ => []
            | Ok pnlValue =>
                let wr := writeSheetValues env CONFIG rowIndex
                                           activitiesValue pnlValue (world b) in
                ESheetsUpdate (resultRange CONFIG rowIndex)
                              activitiesValue pnlValue ::
                  match res wr with
                  | Throw _ => []
                  | Ok _ => [updated_log rowIndex activitiesValue pnlValue;
                             ESleep rate]
                  end
            end
      end.
Proof.
  intros World env CONFIG index wallet rowIndex w rate a.
  rewrite processWallet_out. fold rate. fold a.
  unfold prepend. cbn [trace app]. f_equal.
  destruct (res a) as [v|e]; cbn [trace];
    [|rewrite app_nil_r; reflexivity].
  rewrite <- app_assoc. cbn [app]. do 2 f_equal.
  destruct (res (fetchHoldingsPnl env CONFIG wallet _)) as [p|e];
    cbn [trace]; [|rewrite app_nil_r; reflexivity].
  f_equal.
  destruct (res (writeSheetValues env CONFIG rowIndex v p _)) as [u|e] eqn:E;
    cbn [trace]; rewrite writeSheetValues_trace; reflexivity.
Qed.

(** The pauses of the wallet whose two pages load: the two rate-limit
    pauses, and no other. *)
Example pauses_of_a_loaded_wallet :
  sleeps (trace (processWallet Sim.env Sim.config 0 (Js.lit "W") 2 both_load))
  = [rateLimitMs Sim.config; rateLimitMs Sim.config].
Proof. vm_compute. reflexivity. Qed.

(* ================================================================== *)
(** ** A wallet whose retries are exhausted *)

Section Exhaustion.
Context {World : Type}.
Variable env : Env World.
Variable CONFIG : Config.

Lemma fetch_no_update ev : of_fetch ev = true -> is_update ev = false.
Proof. destruct ev; simpl; auto; discriminate. Qed.

Lemma emits_guarded A (task : M World A) label wallet site :
  emits of_fetch task ->
  emits of_fetch
        (guarded env CONFIG task label
                 (captureFailureScreenshot env CONFIG wallet site)).
Proof.
  intros Ht. unfold guarded, withRetries.
  apply emits_try_catch.
  - apply emits_retryLoop; auto.
  - intros e. apply emits_bind; [|intros; apply emits_throw].
    eapply emits_weaken; [|apply emits_captureFailureScreenshot].
    apply hook_is_fetch.
Qed.

Lemma emits_solscanTask wallet : emits of_fetch (solscanTask env wallet).
Proof.
  intros w. destruct (solscanTask_trace env wallet w) as (rest & -> & H).
  simpl. rewrite forallb_forall in *. intros ev Hev.
  apply page_work_is_fetch; auto.
Qed.

Lemma emits_jupiterTask wallet : emits of_fetch (jupiterTask env wallet).
Proof.
  intros w. destruct (jupiterTask_trace env wallet w) as (rest & -> & H).
  simpl. rewrite forallb_forall in *. intros ev Hev.
  apply page_work_is_fetch; auto.
Qed.

Lemma raises_guarded A (task : M World A) label wallet site :
  1 <= maxRetries CONFIG ->
  raises_errors task ->
  raises_errors
    (guarded env CONFIG task label
             (captureFailureScreenshot env CONFIG wallet site)).
Proof.
  intros Hmax Ht. unfold guarded, withRetries.
  apply raises_try_catch.
  - intros e He. apply raises_bind.
    + apply raises_captureFailureScreenshot.
    + intros _. destruct e; [congruence | apply raises_throw].
  - apply raises_retryLoop; auto. intros E. lia.
Qed.

(** The loop over the records before the one that fails. *)
Lemma walletLoop_app pre : forall index l w,
  res (walletLoop env CONFIG index pre w) = Ok tt ->
  walletLoop env CONFIG index (pre ++ l) w =
  prepend (trace (walletLoop env CONFIG index pre w))
          (walletLoop env CONFIG (index + Z.of_nat (List.length pre)) l
                      (world (walletLoop env CONFIG index pre w))).
Proof.
  induction pre as [|e pre IH]; intros index l w H.
  - simpl. rewrite prepend_nil. replace (index + Z.of_nat 0) with index by lia.
    reflexivity.
  - simpl in *. unfold bind in *.
    destruct (res (iteration env CONFIG index e w)) as [[]|err];
      [|discriminate].
    simpl in H. rewrite (IH _ l _ H). rewrite prepend_prepend.
    unfold prepend; simpl.
    replace (index + 1 + Z.of_nat (List.length pre))
      with (index + Z.of_nat (S (List.length pre))) by lia.
    reflexivity.
Qed.

(** [run], once the wallets are there and the browser is launched. *)
Lemma run_out w w1 w2 t1 wallets :
  loadWallets env CONFIG w = MkOut (Ok wallets) w1 t1 ->
  wallets <> [] ->
  chromium_launch env (headless CONFIG) (timeoutMs CONFIG) w1
  = (Returns tt, w2) ->
  run env CONFIG w =
  prepend (t1 ++ [ELaunch (headless CONFIG) (timeoutMs CONFIG)])
          (bind (walletLoop env CONFIG 0 wallets)
                (fun _ => call EClose (browser_close env)) w2).
Proof.
  intros Hload Hne Hlaunch. unfold run.
  rewrite (bind_ok _ _ _ (a := wallets)) by (rewrite Hload; reflexivity).
  rewrite Hload. cbn [res world trace].
  destruct wallets as [|e l]; [congruence|].
  assert (Hcall : call (ELaunch (headless CONFIG) (timeoutMs CONFIG))
                       (chromium_launch env (headless CONFIG)
                                        (timeoutMs CONFIG)) w1
                  = MkOut (Ok tt) w2
                          [ELaunch (headless CONFIG) (timeoutMs CONFIG)])
    by (unfold call; rewrite Hlaunch; reflexivity).
  rewrite (bind_ok _ _ _ (a := tt)) by (rewrite Hcall; reflexivity).
  rewrite Hcall. cbn [res world trace].
  rewrite prepend_prepend. reflexivity.
Qed.

(** A failed iteration ends the loop. *)
Lemma walletLoop_stops index e rest w err :
  res (iteration env CONFIG index e w) = Throw err ->
  walletLoop env CONFIG index (e :: rest) w =
  MkOut (Throw err) (world (iteration env CONFIG index e w))
        (trace (iteration env CONFIG index e w)).
Proof. intros H. simpl. apply bind_throw. auto. Qed.

End Exhaustion.

(** The row store holds three wallets; the site of the second one never
    loads. *)
Definition second_wallet_unreachable : Sim.world :=
  Sim.MkWorld [] [] []
              [Sim.Loads (Js.lit "Solscan") (Js.lit "Total 7 activities");
               Sim.Loads (Js.lit "Jupiter") (Js.lit "Holdings PnL $5.25");
               Sim.LoadFails (Js.lit "Timeout 45000ms exceeded.");
               Sim.LoadFails (Js.lit "Timeout 45000ms exceeded.");
               Sim.LoadFails (Js.lit "Timeout 45000ms exceeded.");
               Sim.Loads (Js.lit "Solscan") (Js.lit "Total 9 activities");
               Sim.Loads (Js.lit "Jupiter") (Js.lit "Holdings PnL $1.00")]
              false 0
              [[Js.lit "W1"]; [Js.lit "W2"]; [Js.lit "W3"]].

(** C6: the wallets have been loaded and the browser launched; the
    records before [walletEntry] have been gone through; [walletEntry] is
    not skipped, and its first fetch, or else its second, ends with an
    error after its retries.  Then its iteration ends with that error
    without a write to the row store; the loop ends with it at that point,
    whatever the records that follow; and the process logs "Fatal error"
    with the message and exits with code 1.  (The error is an [Error]
    object as soon as one attempt at least is allowed.) *)
Theorem exhausted_wallet_ends_the_run :
  forall (World : Type) (env : Env World) (CONFIG : Config)
         (w w1 w2 : World) (t1 : list Event)
         (pre : list WalletEntry) (walletEntry : WalletEntry)
         (rest : list WalletEntry) (name : jsstring) (err : thrown),
    loadWallets env CONFIG w = MkOut (Ok (pre ++ walletEntry :: rest)) w1 t1 ->
    chromium_launch env (headless CONFIG) (timeoutMs CONFIG) w1
    = (Returns tt, w2) ->
    let before := walletLoop env CONFIG 0 pre w2 in
    res before = Ok tt ->
    wallet walletEntry = Some name ->
    truthy (Some name) = true ->
    truthy (activities walletEntry) && truthy (holdingsPnl walletEntry)
    = false ->
    let a := fetchActivities env CONFIG name (world before) in
    (res a = Throw err \/
     exists activitiesValue,
       res a = Ok activitiesValue /\
       res (fetchHoldingsPnl env CONFIG name
              (timer env (rateLimitMs CONFIG) (world a))) = Throw err) ->
    let it := iteration env CONFIG (Z.of_nat (List.length pre)) walletEntry
                        (world before) in
    res it = Throw err /\
    count is_update (trace it) = 0%nat /\
    walletLoop env CONFIG 0 (pre ++ walletEntry :: rest) w2
    = MkOut (Throw err) (world it) (trace before ++ trace it) /\
    main env CONFIG w
    = (1, world it,
       t1 ++ ELaunch (headless CONFIG) (timeoutMs CONFIG)
          :: trace before ++ trace it
          ++ match err with
             | Error message =>
                 [ELog (Js.lit "Fatal error")
                       [("error"%string, VStr message)]]
             | Undefined => []
             end) /\
    (1 <= maxRetries CONFIG -> exists message, err = Error message).
Proof.
  intros World env CONFIG w w1 w2 t1 pre walletEntry rest name err
         Hload Hlaunch before Hbefore Hname Htruthy Hnew a Hfail it.
  assert (Eit : it = processWallet env CONFIG (Z.of_nat (List.length pre))
                                   name (rowIndex walletEntry) (world before)).
  { subst it. unfold iteration. rewrite Hname, Htruthy, Hnew. reflexivity. }
  assert (Hres : res it = Throw err).
  { rewrite Eit, processWallet_out. fold a. unfold prepend; cbn [res].
    destruct Hfail as [->|(v & -> & Hb)]; cbn [res]; auto.
    rewrite Hb. reflexivity. }
  assert (Hupd : count is_update (trace it) = 0%nat).
  { rewrite Eit, pauses_of_a_wallet. cbv zeta. fold a.
    pose proof (emits_guarded env CONFIG (Js.lit "solscan-" ++ name)
                  name (Js.lit "solscan") (emits_solscanTask env name)
                  (world before)) as Ha.
    pose proof (emits_guarded env CONFIG (Js.lit "jupiter-" ++ name)
                  name (Js.lit "jupiter") (emits_jupiterTask env name)
                  (timer env (rateLimitMs CONFIG) (world a))) as Hb'.
    change (forallb of_fetch (trace a) = true) in Ha.
    change (forallb of_fetch
              (trace (fetchHoldingsPnl env CONFIG name
                        (timer env (rateLimitMs CONFIG) (world a)))) = true)
      in Hb'.
    rewrite count_cons_false by reflexivity.
    rewrite count_app, (@count_none _ _ _ fetch_no_update Ha).
    destruct Hfail as [->|(v & -> & Hb)]; [reflexivity|].
    rewrite Hb, app_nil_r.
    rewrite count_cons_false by reflexivity.
    apply (@count_none _ _ _ fetch_no_update Hb'). }
  assert (Hloop : walletLoop env CONFIG 0 (pre ++ walletEntry :: rest) w2
                  = MkOut (Throw err) (world it) (trace before ++ trace it)).
  { rewrite (walletLoop_app env CONFIG pre 0 (walletEntry :: rest) w2 Hbefore).
    fold before. replace (0 + Z.of_nat (List.length pre))
      with (Z.of_nat (List.length pre)) by lia.
    rewrite (walletLoop_stops env CONFIG _ _ rest _ Hres). reflexivity. }
  repeat split; auto.
  - unfold main.
    assert (Hne : pre ++ walletEntry :: rest <> [])
      by (destruct pre; discriminate).
    rewrite (run_out env CONFIG w Hload Hne Hlaunch).
    rewrite (bind_throw _ _ _ (e := err)) by (rewrite Hloop; reflexivity).
    rewrite Hloop. unfold prepend. cbn [res world trace].
    destruct err as [|message]; cbn [app].
    + rewrite app_nil_r, <- app_assoc. reflexivity.
    + rewrite <- !app_assoc. reflexivity.
  - intros Hmax.
    assert (Hr : raises_errors (processWallet env CONFIG
                   (Z.of_nat (List.length pre)) name (rowIndex walletEntry))).
    { unfold processWallet, fetchActivities, fetchHoldingsPnl, writeSheetValues.
      step_raises; auto using raises_log, raises_sleep, raises_guarded,
                     raises_solscanTask, raises_jupiterTask. }
    specialize (Hr (world before)). rewrite <- Eit, Hres in Hr.
    destruct err as [|message]; [congruence | eauto].
Qed.

(** Three wallets, the second unreachable: the process exits with code 1
    after five navigations (two for the first wallet, three attempts for
    the second, none for the third) and one write. *)
Lemma exhausted_wallet_ends_the_run_witness :
  let '(code, _, t) := main Sim.env Sim.config second_wallet_unreachable in
  code = 1 /\ count is_goto t = 5%nat /\ count is_update t = 1%nat.
Proof.
  pose (loaded := loadWallets Sim.env Sim.config second_wallet_unreachable).
  pose (w2 := snd (chromium_launch Sim.env (headless Sim.config)
                                   (timeoutMs Sim.config) (world loaded))).
  destruct (@exhausted_wallet_ends_the_run
              _ Sim.env Sim.config second_wallet_unreachable
              (world loaded) w2 (trace loaded)
              [MkWallet (Some (Js.lit "W1")) None None 2]
              (MkWallet (Some (Js.lit "W2")) None None 3)
              [MkWallet (Some (Js.lit "W3")) None None 4]
              (Js.lit "W2") (Error (Js.lit "Timeout 45000ms exceeded.")))
    as (_ & _ & _ & Hmain & _).
  - vm_compute. reflexivity.
  - vm_compute. reflexivity.
  - vm_compute. reflexivity.
  - reflexivity.
  - reflexivity.
  - reflexivity.
  - left. vm_compute. reflexivity.
  - rewrite Hmain. vm_compute. repeat split; reflexivity.
Defined.

(* ================================================================== *)
(** ** Start-up: configuration and the wallet list *)

Import RegexFacts Phrases Greedy.

(** X1: a missing sheet identifier or credential stops the run before
    anything is done outside the process: [run] throws with an empty trace
    in an unchanged world, and all the process does is log "Fatal error"
    and exit with code 1. *)
Theorem configuration_error_stops_before_any_action :
  forall (World : Type) (env : Env World) (CONFIG : Config) (w : World),
    truthy (sheetId CONFIG) = false \/
    truthy (serviceAccountJson CONFIG) = false ->
    exists message,
      run env CONFIG w = MkOut (Throw (Error message)) w [] /\
      main env CONFIG w
      = (1, w, [ELog (Js.lit "Fatal error")
                     [("error"%string, VStr message)]]).
Proof.
  intros World env CONFIG w H.
  assert (E : exists message,
             ensureConfig CONFIG w
             = MkOut (World := World) (Throw (Error message)) w []).
  { unfold ensureConfig.
    destruct (truthy (sheetId CONFIG)); simpl.
    - destruct H as [H|H]; [discriminate|]. rewrite H. simpl.
      eexists. reflexivity.
    - eexists. reflexivity. }
  destruct E as [message E]. exists message.
  assert (R : run env CONFIG w = MkOut (Throw (Error message)) w []).
  { unfold run, loadWallets, bind. rewrite E. reflexivity. }
  split; auto. unfold main. rewrite R. reflexivity.
Qed.

Definition no_sheet_id : Config :=
  {| sheetId := None;
     sheetName := Js.lit "Sheet1";
     serviceAccountJson := Some (Js.lit "key.json");
     csvPath := None;
     startRow := 2;
     headless := true;
     rateLimitMs := 500;
     maxRetries := 3;
     timeoutMs := 45000;
     screenshotDir := Js.lit "screenshots" |}.

Lemma configuration_error_stops_before_any_action_witness :
  exists message,
    run Sim.env no_sheet_id (Sim.start [])
    = MkOut (Throw (Error message)) (Sim.start []) [] /\
    main Sim.env no_sheet_id (Sim.start [])
    = (1, Sim.start [],
       [ELog (Js.lit "Fatal error") [("error"%string, VStr message)]]).
Proof.
  apply (@configuration_error_stops_before_any_action _ Sim.env no_sheet_id).
  left. reflexivity.
Defined.

Lemma nth_error_map_indexed (A B : Type) (f : A -> Z -> B) (l : list A) :
  forall index n,
    nth_error (map_indexed f index l) n
    = option_map (fun a => f a (index + Z.of_nat n)) (nth_error l n).
Proof.
  induction l as [|a l IH]; intros index n; destruct n; simpl; auto.
  - f_equal. f_equal. lia.
  - rewrite IH. destruct (nth_error l n); simpl; auto.
    f_equal. f_equal. lia.
Qed.

Lemma length_map_indexed (A B : Type) (f : A -> Z -> B) (l : list A) :
  forall index, List.length (map_indexed f index l) = List.length l.
Proof. induction l; simpl; auto. Qed.

(** Number addition is exact as long as the sum is below 2^53 in
    magnitude. *)
Lemma add_exact a b :
  - 2 ^ 53 < a + b < 2 ^ 53 -> Js.add a b = a + b.
Proof.
  intros H. unfold Js.add, Js.round. cbv zeta.
  destruct (Z.abs (a + b) <? 2 ^ 53) eqn:E; [reflexivity|].
  apply Z.ltb_ge in E. lia.
Qed.

(** The entries are numbered from [start] on, as the code computes the
    numbers: [start + index] on Numbers. *)
Definition numbered (start : Z) (wallets : list WalletEntry) : Prop :=
  forall n e, nth_error wallets n = Some e ->
              rowIndex e = Js.add start (Z.of_nat n).

(** The entries have the row numbers [start], [start + 1], ... *)
Definition consecutive (start : Z) (wallets : list WalletEntry) : Prop :=
  forall n e, nth_error wallets n = Some e ->
              rowIndex e = start + Z.of_nat n.

Lemma numbered_map_indexed (A : Type) (f : A -> Z -> WalletEntry)
      (start : Z) (l : list A) :
  (forall a i, rowIndex (f a i) = Js.add start i) ->
  numbered start (map_indexed f 0 l).
Proof.
  intros Hf n e H. rewrite nth_error_map_indexed in H.
  destruct (nth_error l n); simpl in H; [|discriminate].
  inversion H. rewrite Hf. f_equal.
Qed.

(** Below 2^53 the numbers computed are the consecutive ones. *)
Lemma numbered_consecutive start wallets :
  numbered start wallets ->
  - 2 ^ 53 < start ->
  start + Z.of_nat (List.length wallets) <= 2 ^ 53 ->
  consecutive start wallets.
Proof.
  intros H Hlo Hhi n e Hn. rewrite (H n e Hn).
  assert (n < List.length wallets)%nat
    by (apply nth_error_Some; congruence).
  apply add_exact. lia.
Qed.

Lemma consecutive_NoDup start wallets :
  consecutive start wallets -> NoDup (map rowIndex wallets).
Proof.
  intros H. apply NoDup_nth_error. intros i j Hi E.
  rewrite length_map in Hi.
  rewrite !nth_error_map in E.
  destruct (nth_error wallets i) as [e|] eqn:Ei.
  - destruct (nth_error wallets j) as [e'|] eqn:Ej; [|discriminate].
    simpl in E. inversion E as [E'].
    rewrite (H _ _ Ei), (H _ _ Ej) in E'. lia.
  - apply nth_error_None in Ei. lia.
Qed.

Section Loading.
Context {World : Type}.
Variable env : Env World.
Variable CONFIG : Config.

Lemma loadWalletsFromCsv_numbered w wallets :
  res (loadWalletsFromCsv env CONFIG w) = Ok wallets ->
  numbered (startRow CONFIG) wallets.
Proof.
  unfold loadWalletsFromCsv.
  destruct (csvPath CONFIG) as [[|c p]|]; simpl;
    try (intros H; inversion H; intros [|?] ? E; discriminate E).
  unfold bind, call.
  destruct (csv_records env (c :: p) w) as [[records|message] w']; simpl;
    [|discriminate].
  intros H. inversion H. apply numbered_map_indexed. reflexivity.
Qed.

Lemma loadWalletsFromSheet_numbered w wallets :
  res (loadWalletsFromSheet env CONFIG w) = Ok wallets ->
  numbered (startRow CONFIG) wallets.
Proof.
  unfold loadWalletsFromSheet, bind, call.
  destruct (sheets_values_get env _ w) as [[values|message] w']; simpl;
    [|discriminate].
  intros H. inversion H. apply numbered_map_indexed. reflexivity.
Qed.

Lemma loadWallets_cases w wallets :
  res (loadWallets env CONFIG w) = Ok wallets ->
  exists w1 w2,
    (res (loadWalletsFromCsv env CONFIG w1) = Ok wallets /\ wallets <> []) \/
    (res (loadWalletsFromCsv env CONFIG w1) = Ok [] /\
     res (loadWalletsFromSheet env CONFIG w2) = Ok wallets).
Proof.
  unfold loadWallets, bind at 1.
  destruct (res (ensureConfig CONFIG w)) as [[]|e]; [|discriminate].
  cbn [res world trace prepend]. unfold bind at 1.
  destruct (res (getSheetsClient env _)) as [[]|e]; [|discriminate].
  cbn [res world trace prepend]. unfold bind at 1.
  match goal with
  | |- context [res (loadWalletsFromCsv env CONFIG ?x)] => set (w1 := x)
  end.
  destruct (res (loadWalletsFromCsv env CONFIG w1)) as [csv|e] eqn:Ecsv;
    [|discriminate].
  cbn [res world trace prepend]. unfold bind at 1.
  match goal with
  | |- context [res (loadWalletsFromSheet env CONFIG ?x)] => set (w2 := x)
  end.
  destruct (res (loadWalletsFromSheet env CONFIG w2)) as [sheet|e] eqn:Esheet;
    [|discriminate].
  cbn [res world trace prepend ret].
  intros H. inversion H as [Hw]. exists w1, w2.
  destruct csv as [|e l]; [right; auto | left; split; [auto | discriminate]].
Qed.
(** The start of [run] when the configuration is complete and the
    client is built. *)
Lemma loadWallets_out w w1 w2 w3 csvWallets sheetWallets t2 t3 :
  truthy (sheetId CONFIG) = true ->
  truthy (serviceAccountJson CONFIG) = true ->
  sheets_client env w = (Returns tt, w1) ->
  loadWalletsFromCsv env CONFIG w1 = MkOut (Ok csvWallets) w2 t2 ->
  loadWalletsFromSheet env CONFIG w2 = MkOut (Ok sheetWallets) w3 t3 ->
  loadWallets env CONFIG w
  = MkOut (Ok match csvWallets with
              | [] => sheetWallets
              | _ :: _ => csvWallets
              end)
          w3 (ESheetsClient :: t2 ++ t3).
Proof.
  intros Hid Hkey Hclient Hcsv Hsheet. unfold loadWallets.
  assert (E1 : ensureConfig CONFIG w = MkOut (World := World) (Ok tt) w []).
  { unfold ensureConfig. rewrite Hid, Hkey. reflexivity. }
  assert (E2 : getSheetsClient env w = MkOut (Ok tt) w1 [ESheetsClient]).
  { unfold getSheetsClient, call. rewrite Hclient. reflexivity. }
  rewrite (bind_ok _ _ _ (a := tt)) by (rewrite E1; reflexivity).
  rewrite E1. cbn [world trace].
  rewrite (bind_ok _ _ _ (a := tt)) by (rewrite E2; reflexivity).
  rewrite E2. cbn [world trace].
  rewrite (bind_ok _ _ _ (a := csvWallets)) by (rewrite Hcsv; reflexivity).
  rewrite Hcsv. cbn [world trace].
  rewrite (bind_ok _ _ _ (a := sheetWallets)) by (rewrite Hsheet; reflexivity).
  rewrite Hsheet. cbn [world trace].
  unfold ret, prepend. cbn [res world trace app].
  rewrite app_nil_r. reflexivity.
Qed.
End Loading.

(** X2: whatever the source of the wallets, the file or the sheet, as
    long as the row numbers stay below 2^53 in magnitude, where Number
    addition is exact (the start row is above -2^53 and the start row
    plus the number of entries is at most 2^53), the entry at position n
    of the list [run] works on has the row index [startRow + n]: the row
    indices are consecutive from the start row, so no two entries share
    a row. *)
Theorem loaded_rows_are_consecutive :
  forall (World : Type) (env : Env World) (CONFIG : Config) (w : World)
         (wallets : list WalletEntry),
    res (loadWallets env CONFIG w) = Ok wallets ->
    - 2 ^ 53 < startRow CONFIG ->
    startRow CONFIG + Z.of_nat (List.length wallets) <= 2 ^ 53 ->
    (forall n e, nth_error wallets n = Some e ->
                 rowIndex e = startRow CONFIG + Z.of_nat n) /\
    NoDup (map rowIndex wallets).
Proof.
  intros World env CONFIG w wallets H Hlo Hhi.
  assert (N : numbered (startRow CONFIG) wallets).
  { destruct (@loadWallets_cases _ env CONFIG w wallets H)
      as (w1 & w2 & [[Hc _]|[_ Hs]]).
    - eapply loadWalletsFromCsv_numbered; eauto.
    - eapply loadWalletsFromSheet_numbered; eauto. }
  pose proof (numbered_consecutive N Hlo Hhi) as C.
  split; [exact C | eapply consecutive_NoDup; eauto].
Qed.

(** A sheet read for its rows. *)
Definition with_rows (rows : list (list jsstring)) : Sim.world :=
  Sim.MkWorld [] [] [] [] false 0 rows.

Lemma loaded_rows_are_consecutive_witness :
  let wallets := [MkWallet (Some (Js.lit "W1")) None None 2;
                  MkWallet None None None 3;
                  MkWallet (Some (Js.lit "W3")) None None 4] in
  (forall n e, nth_error wallets n = Some e ->
               rowIndex e = startRow Sim.config + Z.of_nat n) /\
  NoDup (map rowIndex wallets).
Proof.
  apply (@loaded_rows_are_consecutive
           _ Sim.env Sim.config
           (with_rows [[Js.lit "W1"]; []; [Js.lit "W3"]])).
  - vm_compute. reflexivity.
  - vm_compute. reflexivity.
  - vm_compute. discriminate.
Defined.

(** From 2^53 on the sum is rounded: with the start row 2^53 the first two
    entries get the same row index. *)
Definition starts_at_2_53 : Config :=
  {| sheetId := Some (Js.lit "sheet");
     sheetName := Js.lit "Sheet1";
     serviceAccountJson := Some (Js.lit "key.json");
     csvPath := None;
     startRow := 2 ^ 53;
     headless := true;
     rateLimitMs := 500;
     maxRetries := 3;
     timeoutMs := 45000;
     screenshotDir := Js.lit "screenshots" |}.

Example row_indices_collide_from_2_53 :
  res (loadWallets Sim.env starts_at_2_53
         (with_rows [[Js.lit "W1"]; [Js.lit "W2"]]))
  = Ok [MkWallet (Some (Js.lit "W1")) None None (2 ^ 53);
        MkWallet (Some (Js.lit "W2")) None None (2 ^ 53)].
Proof. vm_compute. reflexivity. Qed.

(* ------------------------------------------------------------------ *)

(** The wallet of a record of the file: the first of its columns
    [wallet], [Wallet], [address], [Address] that is not empty. *)
Definition wallet_columns (record : list (string * jsstring))
  : list (option jsstring) :=
  [field "wallet" record; field "Wallet" record;
   field "address" record; field "Address" record].

(** X3: when the file of wallets has records, [run] works on them and not
    on the sheet, which is read all the same.  There is one entry per
    record; its wallet is the first non-empty one of the columns [wallet],
    [Wallet], [address] and [Address], and it has no wallet when the four
    are empty or missing; and its two result fields are [undefined], so
    that an entry from the file is never taken for a row already
    processed. *)
Theorem file_wallets_take_precedence :
  forall (World : Type) (env : Env World) (CONFIG : Config)
         (w w1 w2 w3 : World) (path : jsstring)
         (records : list (list (string * jsstring)))
         (values : option (list (list jsstring))),
    truthy (sheetId CONFIG) = true ->
    truthy (serviceAccountJson CONFIG) = true ->
    csvPath CONFIG = Some path ->
    truthy (Some path) = true ->
    sheets_client env w = (Returns tt, w1) ->
    csv_records env path w1 = (Returns records, w2) ->
    records <> [] ->
    sheets_values_get env
      (sheetName CONFIG ++ Js.lit "!A" ++ Js.of_Z (startRow CONFIG)
                 ++ Js.lit ":D") w2
    = (Returns values, w3) ->
    exists wallets,
      loadWallets env CONFIG w
      = MkOut (Ok wallets) w3
              [ESheetsClient; ECsvRead path;
               ESheetsGet (sheetName CONFIG ++ Js.lit "!A"
                             ++ Js.of_Z (startRow CONFIG) ++ Js.lit ":D")] /\
      List.length wallets = List.length records /\
      forall n e, nth_error wallets n = Some e ->
        activities e = None /\ holdingsPnl e = None /\
        exists record,
          nth_error records n = Some record /\
          match find truthy (wallet_columns record) with
          | Some v => wallet e = v
          | None => truthy (wallet e) = false
          end.
Proof.
  intros World env CONFIG w w1 w2 w3 path records values
         Hid Hkey Hpath Htruthy Hclient Hcsv Hne Hget.
  destruct path as [|c p]; [discriminate Htruthy|].
  exists (map_indexed
            (fun record index =>
               MkWallet
                 (or_else (field "wallet" record)
                    (or_else (field "Wallet" record)
                       (or_else (field "address" record)
                          (field "Address" record))))
                 None None (Js.add (startRow CONFIG) index))
            0 records).
  split; [|split].
  - assert (E3 : loadWalletsFromCsv env CONFIG w1
                 = MkOut (Ok (map_indexed
                                (fun record index =>
                                   MkWallet
                                     (or_else (field "wallet" record)
                                        (or_else (field "Wallet" record)
                                           (or_else (field "address" record)
                                              (field "Address" record))))
                                     None None (Js.add (startRow CONFIG) index))
                                0 records))
                         w2 [ECsvRead (c :: p)]).
    { unfold loadWalletsFromCsv. rewrite Hpath. unfold bind, call.
      rewrite Hcsv. reflexivity. }
    assert (E4 : exists sheetWallets,
               loadWalletsFromSheet env CONFIG w2
               = MkOut (Ok sheetWallets) w3
                   [ESheetsGet (sheetName CONFIG ++ Js.lit "!A"
                                  ++ Js.of_Z (startRow CONFIG)
                                  ++ Js.lit ":D")]).
    { unfold loadWalletsFromSheet, bind, call. rewrite Hget.
      eexists. reflexivity. }
    destruct E4 as [sheetWallets E4].
    rewrite (@loadWallets_out _ env CONFIG w w1 w2 w3 _ _ _ _
               Hid Hkey Hclient E3 E4).
    destruct records as [|r rs]; [congruence|]. reflexivity.
  - apply length_map_indexed.
  - intros n e H. rewrite nth_error_map_indexed in H.
    destruct (nth_error records n) as [record|] eqn:E; simpl in H;
      [|discriminate].
    inversion H; subst e; clear H. cbn [activities holdingsPnl wallet].
    repeat split. exists record. split; auto.
    unfold wallet_columns, or_else. simpl find.
    destruct (truthy (field "wallet" record)) eqn:E1; auto.
    destruct (truthy (field "Wallet" record)) eqn:E2; auto.
    destruct (truthy (field "address" record)) eqn:E3; auto.
    destruct (truthy (field "Address" record)) eqn:E4; auto.
Qed.

(** The scripted environment, with a file of wallets and a row store that
    may refuse writes. *)
Definition scripted (records : list (list (string * jsstring)))
           (read_only : bool) : Env Sim.world :=
  {| page_goto := page_goto Sim.env;
     page_title := page_title Sim.env;
     page_url := page_url Sim.env;
     locator_count := locator_count Sim.env;
     page_waitForTimeout := page_waitForTimeout Sim.env;
     page_textContent := page_textContent Sim.env;
     page_screenshot := page_screenshot Sim.env;
     fs_existsSync := fs_existsSync Sim.env;
     fs_mkdirSync := fs_mkdirSync Sim.env;
     date_now := date_now Sim.env;
     path_join := path_join Sim.env;
     toLowerCase := toLowerCase Sim.env;
     timer := timer Sim.env;
     readline_question := readline_question Sim.env;
     sheets_client := sheets_client Sim.env;
     csv_records := fun _ w => (Returns records, w);
     sheets_values_get := sheets_values_get Sim.env;
     sheets_values_update := fun _ _ _ w =>
       (if read_only
        then Raises (Js.lit "The caller does not have permission")
        else Returns tt, w);
     chromium_launch := chromium_launch Sim.env;
     browser_close := browser_close Sim.env |}.

Definition with_file : Config :=
  {| sheetId := Some (Js.lit "sheet");
     sheetName := Js.lit "Sheet1";
     serviceAccountJson := Some (Js.lit "key.json");
     csvPath := Some (Js.lit "wallets.csv");
     startRow := 2;
     headless := true;
     rateLimitMs := 500;
     maxRetries := 3;
     timeoutMs := 45000;
     screenshotDir := Js.lit "screenshots" |}.

(** A file of three records: a wallet, an address under [Address], and a
    column the loader does not know. *)
Definition three_records : list (list (string * jsstring)) :=
  [[("wallet"%string, Js.lit "W1")];
   [("wallet"%string, []); ("Address"%string, Js.lit "W2")];
   [("WALLET"%string, Js.lit "W3")]].

Lemma file_wallets_take_precedence_witness :
  exists wallets,
    loadWallets (scripted three_records false) with_file
                (with_rows [[Js.lit "S1"; []; Js.lit "1"; Js.lit "2"]])
    = MkOut (Ok wallets)
            (with_rows [[Js.lit "S1"; []; Js.lit "1"; Js.lit "2"]])
            [ESheetsClient; ECsvRead (Js.lit "wallets.csv");
             ESheetsGet (sheetName with_file ++ Js.lit "!A"
                           ++ Js.of_Z (startRow with_file) ++ Js.lit ":D")] /\
    List.length wallets = List.length three_records /\
    forall n e, nth_error wallets n = Some e ->
      activities e = None /\ holdingsPnl e = None /\
      exists record,
        nth_error three_records n = Some record /\
        match find truthy (wallet_columns record) with
        | Some v => wallet e = v
        | None => truthy (wallet e) = false
        end.
Proof.
  pose (w := with_rows [[Js.lit "S1"; []; Js.lit "1"; Js.lit "2"]]).
  apply (@file_wallets_take_precedence
           _ (scripted three_records false) with_file
           w w w w (Js.lit "wallets.csv") three_records
           (Some [[Js.lit "S1"; []; Js.lit "1"; Js.lit "2"]]));
    try reflexivity.
  discriminate.
Defined.

(** X4: with a valid configuration, no file of wallets and a sheet that
    has no row from the start row on, the run reads the sheet, logs that
    there is nothing to process and ends: the browser is not launched and
    the process exits with code 0. *)
Theorem empty_sheet_launches_nothing :
  forall (World : Type) (env : Env World) (CONFIG : Config)
         (w w1 w2 : World) (values : option (list (list jsstring))),
    truthy (sheetId CONFIG) = true ->
    truthy (serviceAccountJson CONFIG) = true ->
    truthy (csvPath CONFIG) = false ->
    sheets_client env w = (Returns tt, w1) ->
    sheets_values_get env
      (sheetName CONFIG ++ Js.lit "!A" ++ Js.of_Z (startRow CONFIG)
                 ++ Js.lit ":D") w1
    = (Returns values, w2) ->
    values = None \/ values = Some [] ->
    main env CONFIG w
    = (0, w2,
       [ESheetsClient;
        ESheetsGet (sheetName CONFIG ++ Js.lit "!A"
                      ++ Js.of_Z (startRow CONFIG) ++ Js.lit ":D");
        ELog (Js.lit "No wallets found to process.") []]).
Proof.
  intros World env CONFIG w w1 w2 values Hid Hkey Hcsv Hclient Hget Hvalues.
  assert (E3 : loadWalletsFromCsv env CONFIG w1 = MkOut (Ok []) w1 []).
  { unfold loadWalletsFromCsv.
    destruct (csvPath CONFIG) as [[|c p]|];
      [reflexivity | discriminate Hcsv | reflexivity]. }
  assert (E4 : loadWalletsFromSheet env CONFIG w1
               = MkOut (Ok []) w2
                   [ESheetsGet (sheetName CONFIG ++ Js.lit "!A"
                                  ++ Js.of_Z (startRow CONFIG)
                                  ++ Js.lit ":D")]).
  { unfold loadWalletsFromSheet, bind, call. rewrite Hget.
    destruct Hvalues as [-> | ->]; reflexivity. }
  pose proof (@loadWallets_out _ env CONFIG w w1 w1 w2 _ _ _ _
                Hid Hkey Hclient E3 E4) as Hload.
  cbn [app] in Hload.
  assert (R : run env CONFIG w
              = MkOut (Ok tt) w2
                  [ESheetsClient;
                   ESheetsGet (sheetName CONFIG ++ Js.lit "!A"
                                 ++ Js.of_Z (startRow CONFIG) ++ Js.lit ":D");
                   ELog (Js.lit "No wallets found to process.") []]).
  { unfold run.
    rewrite (bind_ok _ _ _ (a := [])) by (rewrite Hload; reflexivity).
    rewrite Hload. reflexivity. }
  unfold main. rewrite R. reflexivity.
Qed.

Lemma empty_sheet_launches_nothing_witness :
  main Sim.env Sim.config (with_rows [])
  = (0, with_rows [],
     [ESheetsClient;
      ESheetsGet (sheetName Sim.config ++ Js.lit "!A"
                    ++ Js.of_Z (startRow Sim.config) ++ Js.lit ":D");
      ELog (Js.lit "No wallets found to process.") []]).
Proof.
  apply (@empty_sheet_launches_nothing
           _ Sim.env Sim.config (with_rows []) (with_rows []) (with_rows [])
           (Some [])); try reflexivity.
  right. reflexivity.
Defined.

(* ================================================================== *)
(** ** The verification detector *)

Section Detector.
Context {World : Type}.
Variable env : Env World.

(** The loop over the selectors says no only after the last of them. *)
Lemma anySelector_false selectors : forall w,
  res (anySelector env selectors w) = Ok false ->
  trace (anySelector env selectors w) = map ELocatorCount selectors.
Proof.
  induction selectors as [|s l IH]; intros w; simpl; auto.
  unfold bind, call.
  destruct (locator_count env s w) as [[n|message] w']; cbn [res world trace];
    [|discriminate].
  destruct (0 <? n); cbn [res world trace prepend ret].
  - discriminate.
  - intros H. simpl. f_equal. apply IH. exact H.
Qed.

(** The selectors of a list are counted one after the other, from the
    world [w] on, and none of them is on the page; [w'] is the world
    after the last count. *)
Inductive NoneThere : list jsstring -> World -> World -> Prop :=
| NoneThere_nil : forall w, NoneThere [] w w
| NoneThere_cons : forall selector rest w n w' w'',
    locator_count env selector w = (Returns n, w') ->
    n <= 0 ->
    NoneThere rest w' w'' ->
    NoneThere (selector :: rest) w w''.

(** It says yes at the first selector that is there, and looks no
    further. *)
Lemma anySelector_true selectors : forall w,
  res (anySelector env selectors w) = Ok true ->
  exists pre selector post w1 n w2,
    selectors = pre ++ selector :: post /\
    NoneThere pre w w1 /\
    locator_count env selector w1 = (Returns n, w2) /\
    0 < n /\
    trace (anySelector env selectors w)
    = map ELocatorCount (pre ++ [selector]).
Proof.
  induction selectors as [|s l IH]; intros w; simpl.
  - discriminate.
  - unfold bind, call.
    destruct (locator_count env s w) as [[n|message] w'] eqn:Ec;
      cbn [res world trace]; [|discriminate].
    destruct (0 <? n) eqn:En; cbn [res world trace prepend ret].
    + intros _. apply Z.ltb_lt in En.
      exists [], s, l, w, n, w'.
      repeat split; [constructor | exact Ec | exact En].
    + intros H. apply Z.ltb_ge in En.
      destruct (IH _ H)
        as (pre & sel & post & w1 & m & w2 & -> & Hnone & Hc & Hm & E).
      exists (s :: pre), sel, post, w1, m, w2.
      split; [reflexivity|].
      split; [econstructor; eauto|].
      split; [exact Hc|]. split; [exact Hm|].
      simpl. f_equal. exact E.
Qed.
End Detector.

(** X5: the detector declares a page clear only after the whole check:
    it has read the title, which does not contain "just a moment" in any
    case, the address, which does not contain "challenge-platform", and
    it has counted each of the four selectors, in their order. *)
Theorem clear_page_was_checked_in_full :
  forall (World : Type) (env : Env World) (w : World),
    res (detectVerification env w) = Ok false ->
    trace (detectVerification env w)
    = ETitle :: map ELocatorCount verificationSelectors /\
    exists title w1,
      page_title env w = (Returns title, w1) /\
      Js.includes (toLowerCase env title) (Js.lit "just a moment") = false /\
      Js.includes (page_url env w1) (Js.lit "challenge-platform") = false.
Proof.
  intros World env w. unfold detectVerification, bind, call, read.
  destruct (page_title env w) as [[title|message] w1];
    cbn [res world trace prepend]; [|discriminate].
  destruct (Js.includes (toLowerCase env title) (Js.lit "just a moment"))
    eqn:E1; cbn [orb res world trace prepend ret app]; [discriminate|].
  destruct (Js.includes (page_url env w1) (Js.lit "challenge-platform"))
    eqn:E2; cbn [res world trace prepend ret app]; [discriminate|].
  intros H. split.
  - f_equal. apply anySelector_false. exact H.
  - exists title, w1. auto.
Qed.

Lemma clear_page_was_checked_in_full_witness :
  trace (detectVerification Sim.env
           (Sim.on_page (Js.lit "https://solscan.io/account/W")
                        (Js.lit "Solscan") (Js.lit "Total 7 activities")))
  = ETitle :: map ELocatorCount verificationSelectors /\
  exists title w1,
    page_title Sim.env
      (Sim.on_page (Js.lit "https://solscan.io/account/W")
                   (Js.lit "Solscan") (Js.lit "Total 7 activities"))
    = (Returns title, w1) /\
    Js.includes (toLowerCase Sim.env title) (Js.lit "just a moment") = false /\
    Js.includes (page_url Sim.env w1) (Js.lit "challenge-platform") = false.
Proof.
  apply (@clear_page_was_checked_in_full _ Sim.env).
  vm_compute. reflexivity.
Defined.

(** X6: when the detector reports a challenge it has stopped at the first
    sign of one.  Either the title (in lower case) contains "just a
    moment" or the address contains "challenge-platform", and then no
    selector was counted; or neither is the case, and the selectors were
    counted in their order up to the first one that is on the page (its
    count is above zero, the counts of those before it are not), and none
    after it. *)
Theorem challenge_is_reported_at_first_sign :
  forall (World : Type) (env : Env World) (w : World),
    res (detectVerification env w) = Ok true ->
    exists title w1,
      page_title env w = (Returns title, w1) /\
      (((Js.includes (toLowerCase env title) (Js.lit "just a moment") = true \/
         Js.includes (page_url env w1) (Js.lit "challenge-platform") = true) /\
        trace (detectVerification env w) = [ETitle]) \/
       (Js.includes (toLowerCase env title) (Js.lit "just a moment") = false /\
        Js.includes (page_url env w1) (Js.lit "challenge-platform") = false /\
        exists pre selector post w2 n w3,
          verificationSelectors = pre ++ selector :: post /\
          NoneThere env pre w1 w2 /\
          locator_count env selector w2 = (Returns n, w3) /\
          0 < n /\
          trace (detectVerification env w)
          = ETitle :: map ELocatorCount (pre ++ [selector]))).
Proof.
  intros World env w. unfold detectVerification, bind, call, read.
  destruct (page_title env w) as [[title|message] w1];
    cbn [res world trace prepend]; [|discriminate].
  intros H. exists title, w1. split; [reflexivity|]. revert H.
  destruct (Js.includes (toLowerCase env title) (Js.lit "just a moment"))
    eqn:E1; cbn [orb res world trace prepend ret app].
  - intros _. left. split; [left; reflexivity | reflexivity].
  - destruct (Js.includes (page_url env w1) (Js.lit "challenge-platform"))
      eqn:E2; cbn [res world trace prepend ret app].
    + intros _. left. split; [right; reflexivity | reflexivity].
    + intros H. right. split; [reflexivity|]. split; [reflexivity|].
      destruct (@anySelector_true _ env verificationSelectors w1 H)
        as (pre & sel & post & w2 & n & w3 & E & Hnone & Hc & Hn & Ht).
      exists pre, sel, post, w2, n, w3.
      repeat (split; [assumption|]). f_equal. exact Ht.
Qed.

(** A page that shows the challenge form, under an ordinary title. *)
Definition shows_challenge_form : Env Sim.world :=
  {| page_goto := page_goto Sim.env;
     page_title := page_title Sim.env;
     page_url := page_url Sim.env;
     locator_count := fun selector w =>
       (Returns (if Js.eqb selector (Js.lit "#challenge-form") then 1 else 0),
        w);
     page_waitForTimeout := page_waitForTimeout Sim.env;
     page_textContent := page_textContent Sim.env;
     page_screenshot := page_screenshot Sim.env;
     fs_existsSync := fs_existsSync Sim.env;
     fs_mkdirSync := fs_mkdirSync Sim.env;
     date_now := date_now Sim.env;
     path_join := path_join Sim.env;
     toLowerCase := toLowerCase Sim.env;
     timer := timer Sim.env;
     readline_question := readline_question Sim.env;
     sheets_client := sheets_client Sim.env;
     csv_records := csv_records Sim.env;
     sheets_values_get := sheets_values_get Sim.env;
     sheets_values_update := sheets_values_update Sim.env;
     chromium_launch := chromium_launch Sim.env;
     browser_close := browser_close Sim.env |}.

Definition ordinary_title : Sim.world :=
  Sim.on_page (Js.lit "https://solscan.io/account/W") (Js.lit "Solscan") [].

(** The form is the third selector: the first two are counted and are
    not there, the fourth is not looked for. *)
Example challenge_form_is_third :
  trace (detectVerification shows_challenge_form ordinary_title)
  = [ETitle;
     ELocatorCount (Js.lit "text=verify you are human");
     ELocatorCount (Js.lit "text=complete the security check");
     ELocatorCount (Js.lit "#challenge-form")].
Proof. vm_compute. reflexivity. Qed.

Lemma challenge_is_reported_at_first_sign_witness :
  exists title w1,
    page_title shows_challenge_form ordinary_title = (Returns title, w1) /\
    (((Js.includes (toLowerCase shows_challenge_form title)
                   (Js.lit "just a moment") = true \/
       Js.includes (page_url shows_challenge_form w1)
                   (Js.lit "challenge-platform") = true) /\
      trace (detectVerification shows_challenge_form ordinary_title)
      = [ETitle]) \/
     (Js.includes (toLowerCase shows_challenge_form title)
                  (Js.lit "just a moment") = false /\
      Js.includes (page_url shows_challenge_form w1)
                  (Js.lit "challenge-platform") = false /\
      exists pre selector post w2 n w3,
        verificationSelectors = pre ++ selector :: post /\
        NoneThere shows_challenge_form pre w1 w2 /\
        locator_count shows_challenge_form selector w2 = (Returns n, w3) /\
        0 < n /\
        trace (detectVerification shows_challenge_form ordinary_title)
        = ETitle :: map ELocatorCount (pre ++ [selector]))).
Proof.
  apply (@challenge_is_reported_at_first_sign _ shows_challenge_form).
  vm_compute. reflexivity.
Defined.

(* ================================================================== *)
(** ** The failure screenshot *)

(** Every code unit is one the file-name pattern lets through. *)
Definition safe_name (s : jsstring) : Prop :=
  forallb (fun c => negb (unsafe_char c)) s = true.

Lemma safe_name_app a b : safe_name a -> safe_name b -> safe_name (a ++ b).
Proof.
  unfold safe_name. intros Ha Hb. rewrite forallb_app, Ha, Hb. reflexivity.
Qed.

(** The replacement leaves only safe code units, and leaves a safe string
    as it is. *)
Lemma replaced_is_safe s :
  safe_name (map (fun c => if unsafe_char c then 95%N else c) s).
Proof.
  unfold safe_name. induction s as [|c s IH]; simpl; auto.
  rewrite IH. destruct (unsafe_char c) eqn:E; [reflexivity|].
  rewrite E. reflexivity.
Qed.

Lemma replaced_safe_id s :
  safe_name s -> map (fun c => if unsafe_char c then 95%N else c) s = s.
Proof.
  unfold safe_name. induction s as [|c s IH]; simpl; auto.
  intros H. apply andb_prop in H. destruct H as [Hc Hs].
  apply negb_true_iff in Hc. rewrite Hc. f_equal. auto.
Qed.

(** A decimal numeral has digits and maybe a minus sign. *)
Lemma uint_is_safe d : safe_name (Js.lit (NilEmpty.string_of_uint d)).
Proof.
  unfold safe_name, Js.lit. induction d; simpl; auto.
Qed.

Lemma numeral_is_safe d : safe_name (Js.lit (NilZero.string_of_uint d)).
Proof.
  destruct d; try apply uint_is_safe. reflexivity.
Qed.

Lemma of_Z_is_safe z : safe_name (Js.of_Z z).
Proof.
  unfold Js.of_Z, NilZero.string_of_int.
  destruct (Z.to_int z) as [d|d].
  - apply numeral_is_safe.
  - apply (@safe_name_app [45%N] (Js.lit (NilZero.string_of_uint d)));
      [reflexivity | apply numeral_is_safe].
Qed.

(** X7: the screenshot is written inside the configured directory under a
    name that holds only letters, digits, "_", "." and "-", whatever the
    wallet and the label are: the name is the label, "-", the wallet,
    "-", the time in milliseconds and ".png", where each character of
    the label and of the wallet that is none of these is replaced by "_":
    the label and the wallet keep their lengths, and are kept as they are
    when they hold no other character. *)
Theorem screenshot_name_is_safe :
  forall (World : Type) (env : Env World) (CONFIG : Config)
         (wallet label : jsstring) (now : Z),
    exists label' wallet',
      screenshotPath env CONFIG wallet label now
      = path_join env (screenshotDir CONFIG)
                  (label' ++ Js.lit "-" ++ wallet' ++ Js.lit "-"
                   ++ Js.of_Z now ++ Js.lit ".png") /\
      forallb (fun c => negb (unsafe_char c))
              (label' ++ Js.lit "-" ++ wallet' ++ Js.lit "-"
               ++ Js.of_Z now ++ Js.lit ".png") = true /\
      List.length label' = List.length label /\
      List.length wallet' = List.length wallet /\
      (forallb (fun c => negb (unsafe_char c)) label = true ->
       label' = label) /\
      (forallb (fun c => negb (unsafe_char c)) wallet = true ->
       wallet' = wallet) /\
      label' = map (fun c => if unsafe_char c then 95%N else c) label /\
      wallet' = map (fun c => if unsafe_char c then 95%N else c) wallet.
Proof.
  intros World env CONFIG wallet label now.
  set (f := fun c : N => if unsafe_char c then 95%N else c).
  exists (map f label), (map f wallet).
  assert (Hdash : map f (Js.lit "-") = Js.lit "-") by reflexivity.
  assert (Hpng : map f (Js.lit ".png") = Js.lit ".png") by reflexivity.
  repeat split.
  - unfold screenshotPath. fold f. f_equal.
    rewrite !map_app, Hdash, Hpng.
    pose proof (@replaced_safe_id (Js.of_Z now) (of_Z_is_safe now)) as E.
    change (map f (Js.of_Z now) = Js.of_Z now) in E. rewrite E. reflexivity.
  - change (safe_name (map f label ++ Js.lit "-" ++ map f wallet
                       ++ Js.lit "-" ++ Js.of_Z now ++ Js.lit ".png")).
    repeat apply safe_name_app;
      try apply replaced_is_safe; try apply of_Z_is_safe; reflexivity.
  - apply length_map.
  - apply length_map.
  - apply replaced_safe_id.
  - apply replaced_safe_id.
Qed.

(** X8: when the failure hook completes, it has looked for the screenshot
    directory, created it exactly when it was not there, taken one
    screenshot, and logged the very path it wrote to: the path built from
    the wallet, the label and the clock as read after the directory
    step. *)
Theorem completed_capture_logs_written_path :
  forall (World : Type) (env : Env World) (CONFIG : Config)
         (wallet label : jsstring) (w : World),
    res (captureFailureScreenshot env CONFIG wallet label w) = Ok tt ->
    let filepath :=
      screenshotPath env CONFIG wallet label
        (date_now env (world (ensureScreenshotDir env CONFIG w))) in
    trace (captureFailureScreenshot env CONFIG wallet label w)
    = EExists (screenshotDir CONFIG)
      :: (if fs_existsSync env (screenshotDir CONFIG) w then []
          else [EMkdir (screenshotDir CONFIG)])
      ++ [EScreenshot filepath;
          ELog (Js.lit "Saved failure screenshot")
               [("filepath"%string, VStr filepath)]].
Proof.
  intros World env CONFIG wallet label w.
  unfold captureFailureScreenshot, ensureScreenshotDir, bind, emit, read,
    call, ret, log, prepend.
  cbn [res world trace app].
  destruct (fs_existsSync env (screenshotDir CONFIG) w);
    cbn [negb res world trace app].
  - destruct (page_screenshot env _ w) as [[u|message] w1];
      cbn [res world trace app]; [reflexivity | discriminate].
  - destruct (fs_mkdirSync env (screenshotDir CONFIG) w) as [[u|message] w1];
      cbn [res world trace app]; [|discriminate].
    destruct (page_screenshot env _ w1) as [[u'|message] w2];
      cbn [res world trace app]; [reflexivity | discriminate].
Qed.

Lemma completed_capture_logs_written_path_witness :
  let filepath :=
    screenshotPath Sim.env Sim.config (Js.lit "So1/a:b") (Js.lit "solscan")
      (date_now Sim.env
                (world (ensureScreenshotDir Sim.env Sim.config never_loads))) in
  trace (captureFailureScreenshot Sim.env Sim.config (Js.lit "So1/a:b")
           (Js.lit "solscan") never_loads)
  = EExists (screenshotDir Sim.config)
    :: (if fs_existsSync Sim.env (screenshotDir Sim.config) never_loads
        then [] else [EMkdir (screenshotDir Sim.config)])
    ++ [EScreenshot filepath;
        ELog (Js.lit "Saved failure screenshot")
             [("filepath"%string, VStr filepath)]].
Proof.
  apply (@completed_capture_logs_written_path _ Sim.env Sim.config).
  vm_compute. reflexivity.
Defined.

(* ================================================================== *)
(** ** What the extractors return *)

Lemma Matches_star p w c c' :
  Matches (star p) w c c' <-> forallb p w = true /\ c' = c.
Proof.
  unfold star. split.
  - intros H. inversion H; subst. auto.
  - intros (Hw & ->). constructor; simpl; auto. lia.
Qed.

Lemma Matches_opt p w c c' :
  Matches (opt p) w c c' <->
  (w = [] \/ exists ch, w = [ch] /\ p ch = true) /\ c' = c.
Proof.
  unfold opt. split.
  - intros H. inversion H; subst. split; auto.
    destruct w as [|ch [|ch' w']]; simpl in *; auto; [|lia].
    right. exists ch. rewrite andb_true_r in *. auto.
  - intros ([->|(ch & -> & Hp)] & ->); constructor; simpl; auto.
    rewrite Hp. reflexivity.
Qed.

(** The number of a phrase pattern, after the separators are removed, is
    made of digits. *)
Lemma firstPattern_digits text source v :
  firstPattern patterns text = Some (source, v) ->
  forallb Js.is_digit v = true.
Proof.
  simpl. intros H.
  destruct (exec re_total text) as [m|] eqn:E.
  - destruct (@exec_first _ _ Matches_total _ _ E)
      as (n & Hg & pre & (ph & post & _ & Hph) & _).
    rewrite Hg in H. injection H as _ <-.
    destruct Hph as (t & s1 & s2 & a & _ & _ & _ & Hn & _).
    apply digits_of_count. exact (proj2 Hn).
  - destruct (exec re_more_than text) as [m|] eqn:E'; [|discriminate].
    destruct (@exec_first _ _ Matches_more_than _ _ E')
      as (n & Hg & pre & (ph & post & _ & Hph) & _).
    rewrite Hg in H. injection H as _ <-.
    destruct Hph as (m0 & s0 & t & s1 & s2 & a & _ & _ & _ & _ & _ & Hn & _).
    apply digits_of_count. exact (proj2 Hn).
Qed.

(** X9: whatever the page shows, a value returned by the activities
    extractor holds decimal digits only: no separator, sign or space
    reaches the sheet from it. *)
Theorem activities_result_is_digits :
  forall (World : Type) (env : Env World) (w : World) (v : jsstring),
    res (extractSolscanActivities env w) = Ok v ->
    forallb Js.is_digit v = true.
Proof.
  intros World env w v.
  destruct (page_waitForTimeout env 3000 w) as [[[]|message] w1] eqn:H1.
  - destruct (page_textContent env (Js.lit "body") w1)
      as [[[text|]|message] w2] eqn:H2.
    + rewrite (@extractSolscanActivities_res _ env w w1 w2 text H1 H2).
      destruct (firstPattern patterns (cleanUp text)) as [[source n]|] eqn:E.
      * intros H. injection H as <-. exact (@firstPattern_digits _ _ _ E).
      * destruct (test re_zero (cleanUp text));
          [intros H; injection H as <-; reflexivity|].
        destruct (Js.includes (page_url env w2) (Js.lit "#activities"));
          [intros H; injection H as <-; reflexivity | discriminate].
    + unfold extractSolscanActivities, bodyText, bind, call.
      rewrite H1. cbn [res world trace]. rewrite H2. discriminate.
    + unfold extractSolscanActivities, bodyText, bind, call.
      rewrite H1. cbn [res world trace]. rewrite H2. discriminate.
  - unfold extractSolscanActivities, bind, call. rewrite H1. discriminate.
Qed.

Lemma activities_result_is_digits_witness :
  forallb Js.is_digit (Js.lit "1234") = true.
Proof.
  apply (@activities_result_is_digits _ Sim.env
           (activities_view (Js.lit "Account   Total 1,234 activities"))).
  vm_compute. reflexivity.
Defined.

(** What the pattern of the portfolio page matches: the label, any text
    without "$", maybe one "$", and the captured number. *)
Lemma Matches_holdings ph c :
  Matches re_holdings ph None c ->
  exists H ws P mid symbol sign ds dotp frac,
    ph = H ++ ws ++ P ++ mid ++ symbol ++ sign ++ ds ++ dotp ++ frac /\
    c = Some (sign ++ ds ++ dotp ++ frac) /\
    same_word H "Holdings" /\ blank ws /\ same_word P "PnL" /\
    forallb (fun c => negb (N.eqb c Js.DOLLAR)) mid = true /\
    (symbol = [] \/ symbol = [Js.DOLLAR]) /\
    sign_text sign /\ count_text ds /\
    (dotp = [] \/ dotp = [46%N]) /\ forallb Js.is_digit frac = true.
Proof.
  unfold re_holdings. intros M.
  apply Matches_Seq in M. destruct M as (H & r1 & c1 & -> & HH & M).
  apply Matches_word in HH. destruct HH as (HH & ->).
  apply Matches_Seq in M. destruct M as (ws & r2 & c2 & -> & Hws & M).
  apply Matches_plus in Hws. destruct Hws as (Hws & ->).
  apply Matches_Seq in M. destruct M as (P & r3 & c3 & -> & HP & M).
  apply Matches_word in HP. destruct HP as (HP & ->).
  apply Matches_Seq in M. destruct M as (mid & r4 & c4 & -> & Hmid & M).
  apply Matches_star in Hmid. destruct Hmid as (Hmid & ->).
  apply Matches_Seq in M. destruct M as (symbol & r5 & c5 & -> & Hsym & M).
  apply Matches_opt in Hsym. destruct Hsym as (Hsym & ->).
  apply Matches_Group in M. destruct M as (-> & c6 & M).
  apply Matches_Seq in M. destruct M as (sign & r6 & c7 & -> & Hsign & M).
  apply Matches_opt in Hsign. destruct Hsign as (Hsign & ->).
  apply Matches_Seq in M. destruct M as (ds & r7 & c8 & -> & Hds & M).
  apply Matches_plus in Hds. destruct Hds as (Hds & ->).
  apply Matches_Seq in M. destruct M as (dotp & frac & c9 & -> & Hdot & M).
  apply Matches_opt in Hdot. destruct Hdot as (Hdot & ->).
  apply Matches_star in M. destruct M as (Hfrac & _).
  exists H, ws, P, mid, symbol, sign, ds, dotp, frac.
  repeat (split; [solve [auto]|]).
  split.
  { destruct Hsym as [->|(ch & -> & E)]; [left; reflexivity|].
    apply N.eqb_eq in E. subst ch. right. reflexivity. }
  split.
  { destruct Hsign as [->|(ch & -> & E)]; [left; reflexivity|].
    apply orb_prop in E. destruct E as [E|E]; apply N.eqb_eq in E;
      subst ch; right; [left | right]; reflexivity. }
  split; [exact Hds|].
  split; [|exact Hfrac].
  destruct Hdot as [->|(ch & -> & E)]; [left; reflexivity|].
  apply N.eqb_eq in E. subst ch. right. reflexivity.
Qed.




(* ================================================================== *)
(** ** The loop over the wallets *)

(** The record is neither an empty row nor one that has both values. *)
Definition pending (walletEntry : WalletEntry) : bool :=
  truthy (wallet walletEntry)
  && negb (truthy (activities walletEntry) && truthy (holdingsPnl walletEntry)).

(** The ranges of the row store written to, in order. *)
Fixpoint updates (t : list Event) : list jsstring :=
  match t with
  | [] => []
  | ESheetsUpdate range _ _ :: t' => range :: updates t'
  | _ :: t' => updates t'
  end.

Lemma updates_app t1 t2 : updates (t1 ++ t2) = updates t1 ++ updates t2.
Proof.
  induction t1 as [|ev t1 IH]; simpl; auto.
  destruct ev; simpl; rewrite ?IH; reflexivity.
Qed.

Lemma updates_none Q t :
  (forall ev, Q ev = true -> is_update ev = false) ->
  forallb Q t = true -> updates t = [].
Proof.
  intros H. induction t as [|ev t IH]; simpl; auto.
  intros E. apply andb_prop in E. destruct E as [E1 E2].
  specialize (H _ E1). destruct ev; simpl in *; auto; discriminate.
Qed.

Section Loop.
Context {World : Type}.
Variable env : Env World.
Variable CONFIG : Config.

Lemma emits_fetchActivities wallet :
  emits of_fetch (fetchActivities env CONFIG wallet).
Proof. apply emits_guarded, emits_solscanTask. Qed.

Lemma emits_fetchHoldingsPnl wallet :
  emits of_fetch (fetchHoldingsPnl env CONFIG wallet).
Proof. apply emits_guarded, emits_jupiterTask. Qed.

(** A record that is skipped: one log line. *)
Lemma iteration_skipped index walletEntry w :
  pending walletEntry = false ->
  exists message context,
    iteration env CONFIG index walletEntry w
    = MkOut (Ok tt) w [ELog message context].
Proof.
  unfold pending, iteration. intros H.
  destruct (truthy (wallet walletEntry)); simpl in *.
  - apply negb_false_iff in H. rewrite H. do 2 eexists. reflexivity.
  - do 2 eexists. reflexivity.
Qed.

(** A record that is not skipped: its wallet is processed. *)
Lemma iteration_pending index walletEntry w :
  pending walletEntry = true ->
  exists name,
    wallet walletEntry = Some name /\
    iteration env CONFIG index walletEntry w
    = processWallet env CONFIG index name (rowIndex walletEntry) w.
Proof.
  unfold pending, iteration. intros H.
  apply andb_prop in H. destruct H as [Hw Hv].
  apply negb_true_iff in Hv. rewrite Hw, Hv. simpl.
  destruct (wallet walletEntry) as [name|]; [|discriminate].
  exists name. auto.
Qed.

(** The writes of a wallet that is processed to the end. *)
Lemma processWallet_updates index name rowIndex w :
  res (processWallet env CONFIG index name rowIndex w) = Ok tt ->
  updates (trace (processWallet env CONFIG index name rowIndex w))
  = [resultRange CONFIG rowIndex].
Proof.
  rewrite processWallet_out.
  pose proof (emits_fetchActivities name w) as Ha.
  destruct (fetchActivities env CONFIG name w) as [[v|e] wa ta];
    cbn [res world trace prepend] in *; [|discriminate].
  pose proof (emits_fetchHoldingsPnl name
                (timer env (rateLimitMs CONFIG) wa)) as Hb.
  destruct (fetchHoldingsPnl env CONFIG name _) as [[p|e] wb tb];
    cbn [res world trace prepend] in *; [|discriminate].
  pose proof (writeSheetValues_trace env CONFIG rowIndex v p wb) as Hw.
  destruct (writeSheetValues env CONFIG rowIndex v p wb) as [[u|e] ww tw];
    cbn [res world trace prepend] in *; [|discriminate].
  intros _. subst tw.
  cbn [app updates]. rewrite !updates_app.
  rewrite (updates_none _ _ fetch_no_update Ha).
  rewrite (updates_none _ _ fetch_no_update Hb).
  reflexivity.
Qed.

Lemma iteration_updates index walletEntry w :
  res (iteration env CONFIG index walletEntry w) = Ok tt ->
  updates (trace (iteration env CONFIG index walletEntry w))
  = if pending walletEntry then [resultRange CONFIG (rowIndex walletEntry)]
    else [].
Proof.
  destruct (pending walletEntry) eqn:E.
  - destruct (iteration_pending index walletEntry w E) as (name & _ & ->).
    apply processWallet_updates.
  - destruct (iteration_skipped index walletEntry w E) as (m & c & ->).
    reflexivity.
Qed.
(** The writes of a loop that completes. *)
Lemma walletLoop_updates wallets : forall index w,
  res (walletLoop env CONFIG index wallets w) = Ok tt ->
  updates (trace (walletLoop env CONFIG index wallets w))
  = map (fun walletEntry => resultRange CONFIG (rowIndex walletEntry))
        (filter pending wallets).
Proof.
  induction wallets as [|e rest IH]; intros index w; [reflexivity|].
  cbn [walletLoop filter]. unfold bind.
  pose proof (iteration_updates index e w) as Hit.
  destruct (iteration env CONFIG index e w) as [[[]|err] w1 t1];
    cbn [res world trace prepend] in *; [|discriminate].
  intros H. rewrite updates_app, (Hit eq_refl), (IH _ _ H).
  destruct (pending e); reflexivity.
Qed.
End Loop.

(** X11: when the loop over the records completes, the rows it has
    written to are those of the records that were not skipped, that is
    with a wallet and without both values, one write each, in the order
    of the records; no other row of the store is touched. *)
Theorem completed_loop_writes_pending_rows :
  forall (World : Type) (env : Env World) (CONFIG : Config)
         (wallets : list WalletEntry) (index : Z) (w : World),
    res (walletLoop env CONFIG index wallets w) = Ok tt ->
    updates (trace (walletLoop env CONFIG index wallets w))
    = map (fun walletEntry => resultRange CONFIG (rowIndex walletEntry))
          (filter pending wallets).
Proof.
  intros World env CONFIG wallets index w.
  apply walletLoop_updates.
Qed.

(** An empty row, a row that has both values, and a wallet to process. *)
Definition three_rows : list WalletEntry :=
  [ MkWallet (Some []) None None 2;
    MkWallet (Some (Js.lit "Done")) (Some (Js.lit "7")) (Some (Js.lit "5.25")) 3;
    MkWallet (Some (Js.lit "W")) None None 4 ].

Lemma completed_loop_writes_pending_rows_witness :
  updates (trace (walletLoop Sim.env Sim.config 0 three_rows both_load))
  = map (fun walletEntry => resultRange Sim.config (rowIndex walletEntry))
        (filter pending three_rows).
Proof.
  apply (@completed_loop_writes_pending_rows _ Sim.env Sim.config).
  vm_compute. reflexivity.
Defined.

(** X12: a write to the row store that fails is not retried and takes no
    screenshot: the loop ends at once with the error of the write, after
    the two fetches and the one write that failed, whatever records
    follow; the "Updated sheet row" line is not logged. *)
Theorem failed_write_ends_the_loop :
  forall (World : Type) (env : Env World) (CONFIG : Config)
         (index : Z) (walletEntry : WalletEntry) (rest : list WalletEntry)
         (w w' : World) (name activitiesValue pnlValue message : jsstring),
    wallet walletEntry = Some name ->
    pending walletEntry = true ->
    let rate := rateLimitMs CONFIG in
    let a := fetchActivities env CONFIG name w in
    let b := fetchHoldingsPnl env CONFIG name (timer env rate (world a)) in
    let range := resultRange CONFIG (rowIndex walletEntry) in
    res a = Ok activitiesValue ->
    res b = Ok pnlValue ->
    sheets_values_update env range activitiesValue pnlValue (world b)
    = (Raises message, w') ->
    walletLoop env CONFIG index (walletEntry :: rest) w
    = MkOut (Throw (Error message)) w'
            (processing_log index name (rowIndex walletEntry)
               :: trace a ++ ESleep rate :: trace b
               ++ [ESheetsUpdate range activitiesValue pnlValue]).
Proof.
  intros World env CONFIG index walletEntry rest w w' name v p message
         Hname Hpending rate a b range Ha Hb Hwrite.
  subst rate a b range.
  destruct (iteration_pending env CONFIG index walletEntry w Hpending)
    as (name' & Hname' & Hit).
  assert (name' = name) as -> by congruence.
  assert (Hout : iteration env CONFIG index walletEntry w
                 = MkOut (Throw (Error message)) w'
                     (processing_log index name (rowIndex walletEntry)
                        :: trace (fetchActivities env CONFIG name w)
                        ++ ESleep (rateLimitMs CONFIG)
                        :: trace (fetchHoldingsPnl env CONFIG name
                                    (timer env (rateLimitMs CONFIG)
                                       (world (fetchActivities env CONFIG name w))))
                        ++ [ESheetsUpdate
                              (resultRange CONFIG (rowIndex walletEntry)) v p])).
  { rewrite Hit, processWallet_out. rewrite Ha. cbn [res world trace].
    rewrite Hb. cbn [res world trace].
    unfold writeSheetValues, call. rewrite Hwrite.
    unfold prepend. cbn [res world trace app].
    rewrite <- app_assoc. reflexivity. }
  rewrite (@walletLoop_stops _ env CONFIG index walletEntry rest w
             (Error message)) by (rewrite Hout; reflexivity).
  rewrite Hout. reflexivity.
Qed.

Lemma failed_write_ends_the_loop_witness :
  let env := scripted [] true in
  let a := fetchActivities env Sim.config (Js.lit "W") both_load in
  let b := fetchHoldingsPnl env Sim.config (Js.lit "W")
             (timer env (rateLimitMs Sim.config) (world a)) in
  walletLoop env Sim.config 0
             [MkWallet (Some (Js.lit "W")) None None 2;
              MkWallet (Some (Js.lit "W2")) None None 3] both_load
  = MkOut (Throw (Error (Js.lit "The caller does not have permission")))
          (world b)
          (processing_log 0 (Js.lit "W") 2
             :: trace a ++ ESleep (rateLimitMs Sim.config) :: trace b
             ++ [ESheetsUpdate (resultRange Sim.config 2)
                               (Js.lit "7") (Js.lit "5.25")]).
Proof.
  intros env a b.
  apply (@failed_write_ends_the_loop _ env Sim.config 0
           (MkWallet (Some (Js.lit "W")) None None 2)
           [MkWallet (Some (Js.lit "W2")) None None 3]
           both_load (world b) (Js.lit "W") (Js.lit "7") (Js.lit "5.25")
           (Js.lit "The caller does not have permission"));
    vm_compute; reflexivity.
Defined.

Section NoAttempt.
Context {World : Type}.
Variable env : Env World.
Variable CONFIG : Config.

(** Without an attempt allowed, a guarded fetch is its failure hook, and
    what is thrown on is [undefined]. *)
Lemma guarded_no_attempt A (task : M World A) label (hook : M World unit) w :
  maxRetries CONFIG < 1 ->
  guarded env CONFIG task label hook w
  = MkOut match res (hook w) with
          | Ok _ => Throw Undefined
          | Throw e => Throw e
          end (world (hook w)) (trace (hook w)).
Proof.
  intros Hmax. unfold guarded, withRetries.
  rewrite (@try_catch_throw _ _ _ _ w Undefined)
    by (rewrite retryLoop_over by lia; reflexivity).
  rewrite retryLoop_over by lia. cbn [world trace].
  rewrite prepend_nil. unfold bind, throw, prepend.
  destruct (hook w) as [[u|e] w1 t1]; cbn [res world trace];
    rewrite ?app_nil_r; reflexivity.
Qed.
End NoAttempt.

(** X13: with a number of attempts below 1 no page is ever visited: a
    wallet that is not skipped logs its line, goes straight to the
    failure hook of the first fetch, and ends with the hook's error or,
    when the screenshot is taken, with [undefined] as the error; nothing
    is written to the row store. *)
Theorem no_attempt_allowed_no_visit :
  forall (World : Type) (env : Env World) (CONFIG : Config)
         (index : Z) (wallet : jsstring) (rowIndex : Z) (w : World),
    maxRetries CONFIG < 1 ->
    let hook :=
      captureFailureScreenshot env CONFIG wallet (Js.lit "solscan") w in
    processWallet env CONFIG index wallet rowIndex w
    = MkOut match res hook with
            | Ok _ => Throw Undefined
            | Throw e => Throw e
            end (world hook)
            (processing_log index wallet rowIndex :: trace hook) /\
    count is_goto (trace (processWallet env CONFIG index wallet rowIndex w))
    = 0%nat /\
    count is_update (trace (processWallet env CONFIG index wallet rowIndex w))
    = 0%nat.
Proof.
  intros World env CONFIG index wallet rowIndex w Hmax hook. subst hook.
  assert (E : processWallet env CONFIG index wallet rowIndex w
              = MkOut match res (captureFailureScreenshot env CONFIG wallet
                                   (Js.lit "solscan") w) with
                      | Ok _ => Throw Undefined
                      | Throw e => Throw e
                      end
                      (world (captureFailureScreenshot env CONFIG wallet
                                (Js.lit "solscan") w))
                      (processing_log index wallet rowIndex
                         :: trace (captureFailureScreenshot env CONFIG wallet
                                     (Js.lit "solscan") w))).
  { rewrite processWallet_out. unfold fetchActivities.
    rewrite guarded_no_attempt by exact Hmax. cbn [res world trace].
    destruct (res (captureFailureScreenshot env CONFIG wallet
                     (Js.lit "solscan") w)); reflexivity. }
  rewrite E. cbn [trace]. repeat split.
  - rewrite count_cons_false by reflexivity.
    apply captureFailureScreenshot_no_goto.
  - rewrite count_cons_false by reflexivity.
    apply (@count_none is_update of_hook).
    + intros ev. destruct ev; simpl; auto; discriminate.
    + apply emits_captureFailureScreenshot.
Qed.

Definition no_attempts : Config :=
  {| sheetId := Some (Js.lit "sheet");
     sheetName := Js.lit "Sheet1";
     serviceAccountJson := Some (Js.lit "key.json");
     csvPath := None;
     startRow := 2;
     headless := true;
     rateLimitMs := 500;
     maxRetries := 0;
     timeoutMs := 45000;
     screenshotDir := Js.lit "screenshots" |}.

Lemma no_attempt_allowed_no_visit_witness :
  let hook :=
    captureFailureScreenshot Sim.env no_attempts (Js.lit "W")
                             (Js.lit "solscan") both_load in
  processWallet Sim.env no_attempts 0 (Js.lit "W") 2 both_load
  = MkOut match res hook with
          | Ok _ => Throw Undefined
          | Throw e => Throw e
          end (world hook)
          (processing_log 0 (Js.lit "W") 2 :: trace hook) /\
  count is_goto
        (trace (processWallet Sim.env no_attempts 0 (Js.lit "W") 2 both_load))
  = 0%nat /\
  count is_update
        (trace (processWallet Sim.env no_attempts 0 (Js.lit "W") 2 both_load))
  = 0%nat.
Proof.
  apply (@no_attempt_allowed_no_visit _ Sim.env no_attempts).
  vm_compute. reflexivity.
Defined.

(* ================================================================== *)
(** ** How often the sites are visited *)

Section Visits.
Context {World : Type}.
Variable env : Env World.
Variable CONFIG : Config.

(** The retry loop invokes its task at most once per unit of fuel. *)
Lemma retryLoop_count_le A (task : M World A) label (Q : Event -> bool)
      (c : nat) attempts :
  (forall w, (count Q (trace (task w)) <= c)%nat) ->
  (forall m ctx, Q (ELog m ctx) = false) ->
  (forall ms, Q (ESleep ms) = false) ->
  forall n attempt lastError w,
    (count Q (trace (retryLoop env task label n attempts attempt lastError w))
     <= n * c)%nat.
Proof.
  intros Hc Hlog Hsleep.
  induction n as [|n IH]; intros attempt lastError w; cbn [retryLoop].
  - destruct (attempt <=? attempts); cbn; lia.
  - destruct (attempt <=? attempts); [|cbn; lia].
    unfold try_catch. specialize (Hc w).
    destruct (task w) as [[v|e] w1 t1]; cbn [res world trace] in *.
    + lia.
    + unfold prepend. cbn [trace]. rewrite count_app.
      destruct e as [|message].
      * cbn. lia.
      * unfold bind, message_of, ret, log, emit, sleep, prepend.
        cbn [res world trace app].
        rewrite !count_cons_false by auto.
        specialize (IH (attempt + 1) (Error message)
                       (timer env (2000 * attempt) w1)).
        lia.
Qed.

Lemma guarded_count_goto A (task : M World A) label wallet site w :
  (forall w, (count is_goto (trace (task w)) <= 1)%nat) ->
  (count is_goto
         (trace (guarded env CONFIG task label
                         (captureFailureScreenshot env CONFIG wallet site) w))
   <= Z.to_nat (maxRetries CONFIG))%nat.
Proof.
  intros Hc. unfold guarded, withRetries, try_catch.
  pose proof (@retryLoop_count_le A task label is_goto 1
                (maxRetries CONFIG) Hc
                (fun _ _ => eq_refl) (fun _ => eq_refl)
                (Z.to_nat (maxRetries CONFIG)) 1 Undefined w) as Hle.
  destruct (retryLoop env task label _ _ _ _ w) as [[v|e] w1 t1];
    cbn [res world trace] in *.
  - lia.
  - unfold prepend. cbn [trace]. rewrite count_app, rethrow_trace.
    rewrite captureFailureScreenshot_no_goto. lia.
Qed.

Lemma fetchActivities_count_goto wallet w :
  (count is_goto (trace (fetchActivities env CONFIG wallet w))
   <= Z.to_nat (maxRetries CONFIG))%nat.
Proof.
  apply guarded_count_goto. intros w'.
  rewrite solscanTask_navigates_once. lia.
Qed.

Lemma fetchHoldingsPnl_count_goto wallet w :
  (count is_goto (trace (fetchHoldingsPnl env CONFIG wallet w))
   <= Z.to_nat (maxRetries CONFIG))%nat.
Proof.
  apply guarded_count_goto. intros w'.
  rewrite jupiterTask_navigates_once. lia.
Qed.

Lemma processWallet_count_goto index wallet rowIndex w :
  (count is_goto (trace (processWallet env CONFIG index wallet rowIndex w))
   <= 2 * Z.to_nat (maxRetries CONFIG))%nat.
Proof.
  rewrite processWallet_out.
  pose proof (fetchActivities_count_goto wallet w) as Ha.
  destruct (fetchActivities env CONFIG wallet w) as [[v|e] wa ta];
    cbn [res world trace prepend app] in *;
    rewrite count_cons_false by reflexivity; [|lia].
  pose proof (fetchHoldingsPnl_count_goto wallet
                (timer env (rateLimitMs CONFIG) wa)) as Hb.
  destruct (fetchHoldingsPnl env CONFIG wallet _) as [[p|e] wb tb];
    cbn [res world trace prepend app] in *;
    rewrite !count_app; change (count is_goto [ESleep (rateLimitMs CONFIG)])
      with 0%nat; [|lia].
  pose proof (writeSheetValues_trace env CONFIG rowIndex v p wb) as Hw.
  destruct (writeSheetValues env CONFIG rowIndex v p wb) as [[u|e] ww tw];
    cbn [res world trace prepend app] in *; subst tw;
    rewrite ?count_app;
    repeat match goal with
      | |- context [count is_goto (?ev :: ?l)] =>
          change (count is_goto (ev :: l)) with 0%nat
      end; lia.
Qed.
End Visits.

(** X14: the loop over the records loads a page at most twice the number
    of attempts for each record that is not skipped, and never for a
    record that is skipped: the number of navigations is bounded by
    2 * maxRetries * (number of pending records), whatever the sites
    answer. *)
Theorem navigations_are_bounded :
  forall (World : Type) (env : Env World) (CONFIG : Config)
         (wallets : list WalletEntry) (index : Z) (w : World),
    (count is_goto (trace (walletLoop env CONFIG index wallets w))
     <= 2 * Z.to_nat (maxRetries CONFIG)
        * List.length (filter pending wallets))%nat.
Proof.
  intros World env CONFIG wallets.
  induction wallets as [|e rest IH]; intros index w; [cbn; lia|].
  cbn [walletLoop filter]. unfold bind.
  assert (Hit : (count is_goto (trace (iteration env CONFIG index e w))
                 <= if pending e then 2 * Z.to_nat (maxRetries CONFIG)
                    else 0)%nat).
  { destruct (pending e) eqn:E.
    - destruct (iteration_pending env CONFIG index e w E) as (name & _ & ->).
      apply processWallet_count_goto.
    - destruct (iteration_skipped env CONFIG index e w E) as (m & c & ->).
      cbn. lia. }
  destruct (iteration env CONFIG index e w) as [[[]|err] w1 t1];
    cbn [res world trace prepend] in *.
  - rewrite count_app. specialize (IH (index + 1) w1).
    destruct (pending e); cbn [List.length]; lia.
  - destruct (pending e); cbn [List.length]; lia.
Qed.

(* ================================================================== *)
(** ** Pauses between the visits *)

(** No page is loaded right after another one: [fresh] tells whether a
    pause has been taken since the last navigation (or none has taken
    place yet); a navigation needs it, and uses it up. *)
Fixpoint paced (fresh : bool) (t : list Event) : bool :=
  match t with
  | [] => true
  | EGoto _ :: t' => fresh && paced false t'
  | ESleep _ :: t' => paced true t'
  | _ :: t' => paced fresh t'
  end.

(** Whether a pause has been taken since the last navigation, at the end
    of [t]. *)
Fixpoint rested (fresh : bool) (t : list Event) : bool :=
  match t with
  | [] => fresh
  | EGoto _ :: t' => rested false t'
  | ESleep _ :: t' => rested true t'
  | _ :: t' => rested fresh t'
  end.

Lemma paced_app t1 : forall fresh t2,
  paced fresh (t1 ++ t2) = paced fresh t1 && paced (rested fresh t1) t2.
Proof.
  induction t1 as [|ev t1 IH]; intros fresh t2; [reflexivity|].
  destruct ev; cbn [app paced rested]; rewrite ?IH, ?andb_assoc;
    reflexivity.
Qed.

Lemma rested_app t1 : forall fresh t2,
  rested fresh (t1 ++ t2) = rested (rested fresh t1) t2.
Proof.
  induction t1 as [|ev t1 IH]; intros fresh t2; [reflexivity|].
  destruct ev; cbn [app rested]; rewrite ?IH; reflexivity.
Qed.

(** Actions that neither navigate nor pause change nothing. *)
Lemma paced_quiet Q t :
  (forall ev, Q ev = true -> is_goto ev = false /\ is_sleep ev = false) ->
  forallb Q t = true ->
  forall fresh, paced fresh t = true /\ rested fresh t = fresh.
Proof.
  intros HQ. induction t as [|ev t IH]; intros Ht fresh; [auto|].
  cbn [forallb] in Ht. apply andb_prop in Ht. destruct Ht as [Hev Ht].
  destruct (HQ _ Hev) as [Hg Hs].
  destruct ev; cbn [paced rested]; try discriminate; auto.
Qed.

Lemma page_work_quiet ev :
  of_page_work ev = true -> is_goto ev = false /\ is_sleep ev = false.
Proof. destruct ev; simpl; auto; discriminate. Qed.

Lemma hook_quiet ev :
  of_hook ev = true -> is_goto ev = false /\ is_sleep ev = false.
Proof. destruct ev; simpl; auto; discriminate. Qed.

Section Pacing.
Context {World : Type}.
Variable env : Env World.
Variable CONFIG : Config.

(** The retry loop pauses after each attempt that fails, so that it may
    start when a pause has been taken. *)
Lemma paced_retryLoop A (task : M World A) label attempts :
  (forall w, paced true (trace (task w)) = true) ->
  raises_errors task ->
  forall n attempt lastError w,
    paced true
          (trace (retryLoop env task label n attempts attempt lastError w))
    = true.
Proof.
  intros Hp Hr.
  induction n as [|n IH]; intros attempt lastError w; cbn [retryLoop].
  - destruct (attempt <=? attempts); reflexivity.
  - destruct (attempt <=? attempts); [|reflexivity].
    unfold try_catch. specialize (Hp w). specialize (Hr w).
    destruct (task w) as [[v|e] w1 t1]; cbn [res world trace] in *; auto.
    destruct e as [|message]; [exfalso; apply Hr; reflexivity|].
    unfold prepend. cbn [trace]. rewrite paced_app, Hp.
    unfold bind, message_of, ret, log, emit, sleep, prepend.
    cbn [res world trace app andb paced]. apply IH.
Qed.

Lemma paced_guarded A (task : M World A) label wallet site w :
  (forall w, paced true (trace (task w)) = true) ->
  raises_errors task ->
  paced true
        (trace (guarded env CONFIG task label
                        (captureFailureScreenshot env CONFIG wallet site) w))
  = true.
Proof.
  intros Hp Hr. unfold guarded, withRetries, try_catch.
  pose proof (@paced_retryLoop A task label (maxRetries CONFIG) Hp Hr
                (Z.to_nat (maxRetries CONFIG)) 1 Undefined w) as H.
  destruct (retryLoop env task label _ _ _ _ w) as [[v|e] w1 t1];
    cbn [res world trace] in *; auto.
  unfold prepend. cbn [trace]. rewrite paced_app, H, rethrow_trace.
  apply (paced_quiet of_hook _ hook_quiet
           (emits_captureFailureScreenshot env CONFIG wallet site w1)).
Qed.

Lemma paced_solscanTask wallet w :
  paced true (trace (solscanTask env wallet w)) = true.
Proof.
  destruct (solscanTask_trace env wallet w) as (rest & -> & H).
  cbn [paced andb]. apply (paced_quiet of_page_work _ page_work_quiet H).
Qed.

Lemma paced_jupiterTask wallet w :
  paced true (trace (jupiterTask env wallet w)) = true.
Proof.
  destruct (jupiterTask_trace env wallet w) as (rest & -> & H).
  cbn [paced andb]. apply (paced_quiet of_page_work _ page_work_quiet H).
Qed.

Lemma paced_processWallet index wallet rowIndex w :
  let o := processWallet env CONFIG index wallet rowIndex w in
  paced true (trace o) = true /\
  (res o = Ok tt -> rested true (trace o) = true).
Proof.
  cbv zeta. rewrite processWallet_out. unfold processing_log, updated_log.
  pose proof (@paced_guarded _ (solscanTask env wallet)
                (Js.lit "solscan-" ++ wallet) wallet (Js.lit "solscan") w
                (paced_solscanTask wallet) (raises_solscanTask env wallet))
    as Ha.
  fold (fetchActivities env CONFIG wallet) in Ha.
  destruct (fetchActivities env CONFIG wallet w) as [[v|e] wa ta];
    cbn [res world trace prepend app paced] in *;
    [|split; [exact Ha | discriminate]].
  pose proof (@paced_guarded _ (jupiterTask env wallet)
                (Js.lit "jupiter-" ++ wallet) wallet (Js.lit "jupiter")
                (timer env (rateLimitMs CONFIG) wa)
                (paced_jupiterTask wallet) (raises_jupiterTask env wallet))
    as Hb.
  fold (fetchHoldingsPnl env CONFIG wallet) in Hb.
  destruct (fetchHoldingsPnl env CONFIG wallet _) as [[p|e] wb tb];
    cbn [res world trace prepend app paced] in *.
  - pose proof (writeSheetValues_trace env CONFIG rowIndex v p wb) as Hw.
    destruct (writeSheetValues env CONFIG rowIndex v p wb) as [[u|e] ww tw];
      cbn [res world trace prepend app paced] in *; subst tw.
    + split.
      * repeat (rewrite ?paced_app, ?rested_app, ?Ha, ?Hb; cbn [app paced rested andb]).
        reflexivity.
      * intros _. rewrite !app_assoc.
        cbn [rested]. rewrite rested_app. reflexivity.
    + split; [|discriminate].
      repeat (rewrite ?paced_app, ?rested_app, ?Ha, ?Hb; cbn [app paced rested andb]).
      reflexivity.
  - split; [|discriminate].
    repeat (rewrite ?paced_app, ?rested_app, ?Ha, ?Hb; cbn [app paced rested andb]).
    reflexivity.
Qed.

Lemma paced_iteration index walletEntry w :
  let o := iteration env CONFIG index walletEntry w in
  paced true (trace o) = true /\
  (res o = Ok tt -> rested true (trace o) = true).
Proof.
  cbv zeta. destruct (pending walletEntry) eqn:E.
  - destruct (iteration_pending env CONFIG index walletEntry w E)
      as (name & _ & ->).
    apply paced_processWallet.
  - destruct (iteration_skipped env CONFIG index walletEntry w E)
      as (m & c & ->).
    split; reflexivity.
Qed.

Lemma paced_walletLoop wallets : forall index w,
  let o := walletLoop env CONFIG index wallets w in
  paced true (trace o) = true /\
  (res o = Ok tt -> rested true (trace o) = true).
Proof.
  induction wallets as [|e rest IH]; intros index w; cbv zeta;
    [split; reflexivity|].
  cbn [walletLoop]. unfold bind.
  destruct (paced_iteration index e w) as [Hp Hr].
  destruct (iteration env CONFIG index e w) as [[[]|err] w1 t1];
    cbn [res world trace prepend] in *.
  - destruct (IH (index + 1) w1) as [Hp' Hr'].
    rewrite paced_app, rested_app, Hp, (Hr eq_refl). auto.
  - split; [exact Hp | discriminate].
Qed.
End Pacing.

(** X15: in the loop over the records no page is loaded right after
    another one: between two navigations there is always a pause, the
    back-off after a failed attempt or the rate-limit pause, whatever the
    sites and the row store answer. *)
Theorem navigations_are_paced :
  forall (World : Type) (env : Env World) (CONFIG : Config)
         (wallets : list WalletEntry) (index : Z) (w : World),
    paced true (trace (walletLoop env CONFIG index wallets w)) = true.
Proof.
  intros World env CONFIG wallets index w.
  apply (paced_walletLoop env CONFIG wallets index w).
Qed.

(* ================================================================== *)
(** ** The exit code *)

Definition is_close (ev : Event) : bool :=
  match ev with EClose => true | _ => false end.

Definition is_launch (ev : Event) : bool :=
  match ev with ELaunch _ _ => true | _ => false end.

(** What the start of [run] does: the client and the two sources. *)
Definition of_loading (ev : Event) : bool :=
  match ev with
  | ESheetsClient | ECsvRead _ | ESheetsGet _ => true
  | _ => false
  end.

(** What the loop over the records does. *)
Definition of_loop (ev : Event) : bool := of_fetch ev || is_update ev.

Lemma loading_no_update ev : of_loading ev = true -> is_update ev = false.
Proof. destruct ev; simpl; auto; discriminate. Qed.

Lemma loading_no_close ev : of_loading ev = true -> is_close ev = false.
Proof. destruct ev; simpl; auto; discriminate. Qed.

Lemma loop_no_close ev : of_loop ev = true -> is_close ev = false.
Proof. destruct ev; simpl; auto; discriminate. Qed.

Lemma loading_no_launch ev : of_loading ev = true -> is_launch ev = false.
Proof. destruct ev; simpl; auto; discriminate. Qed.

Lemma loop_no_launch ev : of_loop ev = true -> is_launch ev = false.
Proof. destruct ev; simpl; auto; discriminate. Qed.

Lemma fetch_is_loop ev : of_fetch ev = true -> of_loop ev = true.
Proof. unfold of_loop. intros ->. reflexivity. Qed.

Section Exit.
Context {World : Type}.
Variable env : Env World.
Variable CONFIG : Config.

Lemma emits_loadWallets : emits of_loading (loadWallets env CONFIG).
Proof.
  unfold loadWallets, ensureConfig, getSheetsClient, loadWalletsFromCsv,
    loadWalletsFromSheet.
  step_emits.
Qed.

Lemma emits_processWallet index wallet rowIndex :
  emits of_loop (processWallet env CONFIG index wallet rowIndex).
Proof.
  unfold processWallet, writeSheetValues.
  apply emits_bind; [apply emits_log; reflexivity | intros _].
  apply emits_bind;
    [eapply emits_weaken; [apply fetch_is_loop | apply emits_fetchActivities]
    | intros activitiesValue].
  apply emits_bind; [apply emits_sleep; reflexivity | intros _].
  apply emits_bind;
    [eapply emits_weaken; [apply fetch_is_loop | apply emits_fetchHoldingsPnl]
    | intros pnlValue].
  apply emits_bind; [apply emits_call; reflexivity | intros _].
  apply emits_bind; [apply emits_log; reflexivity | intros _].
  apply emits_sleep. reflexivity.
Qed.

Lemma emits_walletLoop wallets : forall index,
  emits of_loop (walletLoop env CONFIG index wallets).
Proof.
  induction wallets as [|e rest IH]; intros index; cbn [walletLoop].
  - apply emits_ret.
  - apply emits_bind; [|intros _; apply IH].
    intros w. destruct (pending e) eqn:E.
    + destruct (iteration_pending env CONFIG index e w E) as (name & _ & ->).
      apply emits_processWallet.
    + destruct (iteration_skipped env CONFIG index e w E) as (m & c & ->).
      reflexivity.
Qed.
End Exit.

(** X16: the process exits with code 0 only when the work is complete:
    the wallets were loaded, every record that was not to be skipped has
    been written to its row, once and in order, and no other row; and
    the browser has been launched once and closed once when there was a
    record at all, and neither launched nor closed when there was
    none. *)
Theorem exit_code_zero_means_complete :
  forall (World : Type) (env : Env World) (CONFIG : Config)
         (w w' : World) (t : list Event),
    main env CONFIG w = (0, w', t) ->
    exists wallets,
      res (loadWallets env CONFIG w) = Ok wallets /\
      updates t
      = map (fun walletEntry => resultRange CONFIG (rowIndex walletEntry))
            (filter pending wallets) /\
      count is_close t
      = match wallets with [] => 0%nat | _ :: _ => 1%nat end /\
      count is_launch t
      = match wallets with [] => 0%nat | _ :: _ => 1%nat end.
Proof.
  intros World env CONFIG w w' t H.
  assert (Hok : res (run env CONFIG w) = Ok tt /\ t = trace (run env CONFIG w)).
  { unfold main in H.
    destruct (res (run env CONFIG w)) as [[]|[|message]];
      inversion H; auto. }
  destruct Hok as [Hres ->]. clear H. revert Hres.
  unfold run, bind, call, log, emit.
  pose proof (emits_loadWallets env CONFIG w) as Hload.
  destruct (loadWallets env CONFIG w) as [[wallets|e] w1 t1];
    cbn [res world trace prepend] in *; [|discriminate].
  intros Hres. exists wallets. split; [reflexivity|].
  destruct wallets as [|e rest].
  - cbn [res world trace prepend filter map].
    rewrite updates_app, !count_app.
    rewrite (updates_none _ _ loading_no_update Hload).
    rewrite (@count_none is_close of_loading _ loading_no_close Hload).
    rewrite (@count_none is_launch of_loading _ loading_no_launch Hload).
    repeat split; reflexivity.
  - revert Hres.
    destruct (chromium_launch env (headless CONFIG) (timeoutMs CONFIG) w1)
      as [[[]|message] w2]; cbn [res world trace prepend];
      [|discriminate].
    pose proof (@walletLoop_updates _ env CONFIG (e :: rest) 0 w2) as Hup.
    pose proof (emits_walletLoop env CONFIG (e :: rest) 0 w2) as Hloop.
    destruct (walletLoop env CONFIG 0 (e :: rest) w2) as [[[]|err] w3 t3];
      cbn [res world trace prepend] in *; [|discriminate].
    destruct (browser_close env w3) as [[[]|message] w4];
      cbn [res world trace prepend]; [|discriminate].
    intros _.
    rewrite !updates_app, !count_app.
    rewrite (updates_none _ _ loading_no_update Hload), (Hup eq_refl).
    rewrite (@count_none is_close of_loading _ loading_no_close Hload).
    rewrite (@count_none is_close of_loop _ loop_no_close Hloop).
    rewrite (@count_none is_launch of_loading _ loading_no_launch Hload).
    rewrite (@count_none is_launch of_loop _ loop_no_launch Hloop).
    cbn [updates app]. rewrite app_nil_r. repeat split; reflexivity.
Qed.

(** One wallet on the sheet, and both of its pages load. *)
Definition one_wallet_sheet : Sim.world :=
  Sim.MkWorld [] [] []
              [Sim.Loads (Js.lit "Solscan") (Js.lit "Total 7 activities");
               Sim.Loads (Js.lit "Jupiter") (Js.lit "Holdings PnL $5.25")]
              false 0
              [[Js.lit "W"]].

Lemma exit_code_zero_means_complete_witness :
  exists wallets,
    res (loadWallets Sim.env Sim.config one_wallet_sheet) = Ok wallets /\
    updates (snd (main Sim.env Sim.config one_wallet_sheet))
    = map (fun walletEntry => resultRange Sim.config (rowIndex walletEntry))
          (filter pending wallets) /\
    count is_close (snd (main Sim.env Sim.config one_wallet_sheet))
    = match wallets with [] => 0%nat | _ :: _ => 1%nat end /\
    count is_launch (snd (main Sim.env Sim.config one_wallet_sheet))
    = match wallets with [] => 0%nat | _ :: _ => 1%nat end.
Proof.
  apply (@exit_code_zero_means_complete _ Sim.env Sim.config one_wallet_sheet
           (snd (fst (main Sim.env Sim.config one_wallet_sheet)))).
  vm_compute. reflexivity.
Defined.

(* ================================================================== *)
(** ** The branch for an explicit zero *)

Lemma firstPattern_none_absent text :
  firstPattern patterns text = None -> absent total_phrase text.
Proof.
  simpl. intros H.
  destruct (exec re_total text) as [m|] eqn:E; [discriminate|].
  exact (@exec_absent _ _ Matches_total _ E).
Qed.

(** X17: the branch of the activities extractor that tests for an
    explicit "Total 0 activities" after the patterns is never taken: its
    line "Found 0 activities explicitly stated" is never logged, whatever
    the page shows (a text the test matches is matched by the first
    pattern before). *)
Theorem explicit_zero_is_never_reported :
  forall (World : Type) (env : Env World) (w : World),
    ~ In (ELog (Js.lit "Found 0 activities explicitly stated") [])
         (trace (extractSolscanActivities env w)).
Proof.
  intros World env w.
  unfold extractSolscanActivities, bodyText, bind, call, log, emit, read,
    ret, throw, prepend.
  destruct (page_waitForTimeout env 3000 w) as [[[]|message] w1];
    cbn [res world trace app];
    [|intros [H|[]]; discriminate H].
  destruct (page_textContent env (Js.lit "body") w1)
    as [[[text|]|message] w2]; cbn [res world trace app];
    try (intros [H|[H|[]]]; discriminate H).
  assert (Hzero : firstPattern patterns (cleanUp text) = None ->
                  test re_zero (cleanUp text) = false).
  { intros E. apply zero_needs_total, firstPattern_none_absent, E. }
  destruct (exec re_snippet (cleanUp text)) as [m|]; cbn [res world trace app];
    destruct (firstPattern patterns (cleanUp text)) as [[source n]|];
    cbn [res world trace app];
    try rewrite (Hzero eq_refl);
    try destruct (Js.includes (page_url env w2) (Js.lit "#activities"));
    cbn [res world trace app];
    intros H; simpl in H;
    repeat (destruct H as [H|H]; [try discriminate H|]);
    try contradiction;
    try (vm_compute in H; discriminate H).
Qed.

(* ================================================================== *)
(** ** The normalized text *)

(** Every white-space code unit of [s] is a single space that follows a
    code unit that is not white space; [after_space] tells that the code
    unit before [s] is white space (or that [s] is the start of the
    text). *)
Fixpoint single_spaced (after_space : bool) (s : jsstring) : bool :=
  match s with
  | [] => true
  | c :: s' =>
      if Js.is_space c
      then N.eqb c Js.SPACE && negb after_space && single_spaced true s'
      else single_spaced false s'
  end.

Definition visible (s : jsstring) : jsstring :=
  filter (fun c => negb (Js.is_space c)) s.

Lemma single_spaced_collapse s : forall in_run,
  single_spaced in_run (Js.collapse_spaces in_run s) = true.
Proof.
  induction s as [|c s IH]; intros in_run; [reflexivity|].
  cbn [Js.collapse_spaces]. destruct (Js.is_space c) eqn:E.
  - destruct in_run; [apply IH|].
    cbn [single_spaced]. change (Js.is_space Js.SPACE) with true.
    cbn. apply IH.
  - cbn [single_spaced]. rewrite E. apply IH.
Qed.

Lemma single_spaced_weaken s :
  single_spaced true s = true -> single_spaced false s = true.
Proof.
  destruct s as [|c s]; [reflexivity|]. cbn [single_spaced].
  destruct (Js.is_space c); [|auto].
  rewrite andb_false_r. discriminate.
Qed.

Lemma single_spaced_trim_start s :
  single_spaced false s = true -> single_spaced true (Js.trim_start s) = true.
Proof.
  destruct s as [|c s]; [reflexivity|].
  cbn [single_spaced Js.trim_start].
  destruct (Js.is_space c) eqn:E.
  - intros H. apply andb_prop in H. destruct H as [_ H].
    destruct s as [|c' s]; [reflexivity|].
    cbn [single_spaced Js.trim_start] in *.
    destruct (Js.is_space c') eqn:E'.
    + rewrite andb_false_r in H. discriminate H.
    + cbn [single_spaced]. rewrite E'. exact H.
  - intros H. cbn [single_spaced]. rewrite E. exact H.
Qed.

Lemma trim_start_app l : forall m,
  Js.trim_start (l ++ m)
  = match Js.trim_start l with
    | [] => Js.trim_start m
    | c :: y => (c :: y) ++ m
    end.
Proof.
  induction l as [|c l IH]; intros m; [reflexivity|].
  cbn [app Js.trim_start]. destruct (Js.is_space c); [apply IH | reflexivity].
Qed.

Lemma trim_end_cons c s :
  Js.trim_end (c :: s)
  = match Js.trim_end s with
    | [] => if Js.is_space c then [] else [c]
    | d :: y => c :: d :: y
    end.
Proof.
  unfold Js.trim_end. cbn [rev]. rewrite trim_start_app.
  destruct (Js.trim_start (rev s)) as [|d y] eqn:E.
  - cbn. destruct (Js.is_space c); reflexivity.
  - rewrite rev_app_distr. cbn [rev app].
    destruct (rev y ++ [d]) as [|d' y'] eqn:E'; [|reflexivity].
    destruct (rev y); discriminate E'.
Qed.

Lemma single_spaced_trim_end s : forall after_space,
  single_spaced after_space s = true ->
  single_spaced after_space (Js.trim_end s) = true.
Proof.
  induction s as [|c s IH]; intros after_space H; [reflexivity|].
  rewrite trim_end_cons. cbn [single_spaced] in H.
  destruct (Js.trim_end s) as [|d y] eqn:E.
  - destruct (Js.is_space c) eqn:Ec; [reflexivity|].
    cbn [single_spaced]. rewrite Ec. reflexivity.
  - cbn [single_spaced]. destruct (Js.is_space c) eqn:Ec.
    + apply andb_prop in H. destruct H as [H1 H2]. rewrite H1.
      exact (IH true H2).
    + exact (IH false H).
Qed.

Lemma trim_start_head s c rest :
  Js.trim_start s = c :: rest -> Js.is_space c = false.
Proof.
  induction s as [|d s IH]; [discriminate|]. cbn [Js.trim_start].
  destruct (Js.is_space d) eqn:E; [exact IH|].
  intros H. injection H as <- _. exact E.
Qed.

Lemma trim_end_last s pre c :
  Js.trim_end s = pre ++ [c] -> Js.is_space c = false.
Proof.
  unfold Js.trim_end. intros H.
  apply (f_equal (@rev N)) in H.
  rewrite rev_involutive, rev_app_distr in H. cbn in H.
  exact (trim_start_head _ H).
Qed.

Lemma collapse_single_spaced s : forall in_run,
  single_spaced in_run s = true -> Js.collapse_spaces in_run s = s.
Proof.
  induction s as [|c s IH]; intros in_run H; [reflexivity|].
  cbn [single_spaced Js.collapse_spaces] in *.
  destruct (Js.is_space c).
  - apply andb_prop in H. destruct H as [H Hs].
    apply andb_prop in H. destruct H as [Hc Hr].
    apply negb_true_iff in Hr. apply N.eqb_eq in Hc. subst in_run c.
    f_equal. exact (IH true Hs).
  - f_equal. exact (IH false H).
Qed.

Lemma trim_start_single_spaced s :
  single_spaced true s = true -> Js.trim_start s = s.
Proof.
  destruct s as [|c s]; [reflexivity|]. cbn [single_spaced Js.trim_start].
  destruct (Js.is_space c); [|reflexivity].
  rewrite andb_false_r. discriminate.
Qed.

Lemma trim_end_no_trailing s :
  (forall pre c, s = pre ++ [c] -> Js.is_space c = false) ->
  Js.trim_end s = s.
Proof.
  intros H. destruct s as [|d s']; [reflexivity|].
  assert (Hne : d :: s' <> []) by discriminate.
  destruct (exists_last Hne) as (pre & c & E).
  rewrite E in *. unfold Js.trim_end.
  rewrite rev_app_distr. cbn [rev app Js.trim_start].
  rewrite (H pre c eq_refl). cbn [rev]. rewrite rev_involutive.
  reflexivity.
Qed.

Lemma visible_collapse s : forall in_run,
  visible (Js.collapse_spaces in_run s) = visible s.
Proof.
  unfold visible.
  induction s as [|c s IH]; intros in_run; [reflexivity|].
  cbn [Js.collapse_spaces filter]. destruct (Js.is_space c) eqn:E; cbn [negb].
  - destruct in_run; [apply IH|].
    cbn [filter]. change (Js.is_space Js.SPACE) with true. cbn [negb].
    apply IH.
  - cbn [filter]. rewrite E. cbn [negb]. f_equal. apply IH.
Qed.

Lemma visible_trim_start s : visible (Js.trim_start s) = visible s.
Proof.
  unfold visible. induction s as [|c s IH]; [reflexivity|].
  cbn [Js.trim_start filter]. destruct (Js.is_space c) eqn:E; cbn [negb].
  - exact IH.
  - cbn [filter]. rewrite E. reflexivity.
Qed.

Lemma visible_rev s : visible (rev s) = rev (visible s).
Proof.
  unfold visible. induction s as [|c s IH]; [reflexivity|].
  cbn [rev filter]. rewrite filter_app, IH. cbn [filter].
  destruct (negb (Js.is_space c)); [reflexivity | apply app_nil_r].
Qed.

Lemma visible_trim s : visible (Js.trim s) = visible s.
Proof.
  unfold Js.trim, Js.trim_end.
  rewrite visible_rev, visible_trim_start, visible_rev, rev_involutive.
  apply visible_trim_start.
Qed.

(** X18: the text the activities patterns are run on is normalized: it
    holds no white space other than single spaces between two other
    characters, so none at its start or its end and no two in a row; it
    has the characters of the page's text other than white space, in
    their order; and normalizing it again changes nothing. *)
Theorem cleanUp_normalizes :
  forall textContent : jsstring,
    single_spaced true (cleanUp textContent) = true /\
    (forall pre c, cleanUp textContent = pre ++ [c] ->
                   Js.is_space c = false) /\
    visible (cleanUp textContent) = visible textContent /\
    cleanUp (cleanUp textContent) = cleanUp textContent.
Proof.
  intros textContent.
  assert (H1 : single_spaced true (cleanUp textContent) = true).
  { unfold cleanUp, Js.trim.
    apply single_spaced_trim_end, single_spaced_trim_start,
      single_spaced_collapse. }
  assert (H2 : forall pre c, cleanUp textContent = pre ++ [c] ->
                             Js.is_space c = false).
  { unfold cleanUp, Js.trim. intros pre c. apply trim_end_last. }
  repeat split; auto.
  - unfold cleanUp. rewrite visible_trim. apply visible_collapse.
  - unfold cleanUp at 1.
    rewrite (collapse_single_spaced _ _ (single_spaced_weaken _ H1)).
    unfold Js.trim. rewrite (trim_start_single_spaced _ H1).
    apply trim_end_no_trailing. exact H2.
Qed.

(* ================================================================== *)
(** ** The rows written by a run that may fail *)

Section Writes.
Context {World : Type}.
Variable env : Env World.
Variable CONFIG : Config.


End Writes.


(* ================================================================== *)
(** ** When the Holdings PnL extractor fails *)

(** The text shows the label "Holdings PnL" and, after text without "$"
    and at most one "$", the start of a number: an optional sign and a
    digit or a comma. *)
Definition shows_holdings (text : jsstring) : Prop :=
  exists pre H ws P mid symbol sign d post,
    text = pre ++ H ++ ws ++ P ++ mid ++ symbol ++ sign ++ d :: post /\
    same_word H "Holdings" /\ blank ws /\ same_word P "PnL" /\
    forallb (fun c => negb (N.eqb c Js.DOLLAR)) mid = true /\
    (symbol = [] \/ symbol = [Js.DOLLAR]) /\
    sign_text sign /\ digit_or_comma d = true.

Lemma Matches_holdings_start H ws P mid symbol sign d :
  same_word H "Holdings" -> blank ws -> same_word P "PnL" ->
  forallb (fun c => negb (N.eqb c Js.DOLLAR)) mid = true ->
  (symbol = [] \/ symbol = [Js.DOLLAR]) ->
  sign_text sign -> digit_or_comma d = true ->
  exists w c,
    w = H ++ ws ++ P ++ mid ++ symbol ++ sign ++ [d] /\
    Matches re_holdings w None c.
Proof.
  intros HH Hws HP Hmid Hsym Hsign Hd.
  exists (H ++ ws ++ P ++ mid ++ symbol ++ sign ++ [d] ++ [] ++ []).
  eexists. split; [reflexivity|].
  unfold re_holdings.
  eapply MSeq; [apply Matches_word; eauto|].
  eapply MSeq; [apply Matches_plus; eauto|].
  eapply MSeq; [apply Matches_word; eauto|].
  eapply MSeq; [apply Matches_star; eauto|].
  eapply MSeq.
  { apply Matches_opt. split; [|reflexivity].
    destruct Hsym as [->| ->]; [left; reflexivity|].
    right. exists Js.DOLLAR. auto. }
  eapply MGroup.
  eapply MSeq.
  { apply Matches_opt. split; [|reflexivity].
    destruct Hsign as [->|[->| ->]]; [left; reflexivity| |];
      right; eexists; split; reflexivity. }
  eapply MSeq.
  { apply Matches_plus. split; [|reflexivity].
    split; [discriminate|]. simpl. rewrite Hd. reflexivity. }
  eapply MSeq.
  { apply Matches_opt. split; [|reflexivity]. left. reflexivity. }
  apply Matches_star. split; reflexivity.
Qed.

(** X20: on a page whose text can be read, the Holdings PnL extractor
    returns a value exactly when the text shows the label followed, after
    text without "$" and at most one "$", by a number (an optional sign
    and a digit or comma); otherwise it throws the error "Unable to
    locate Holdings PnL value on page.", and no other. *)
Theorem holdings_error_when_not_shown :
  forall (World : Type) (env : Env World) (w w1 w2 : World) (text : jsstring),
    page_waitForTimeout env 3000 w = (Returns tt, w1) ->
    page_textContent env (Js.lit "body") w1 = (Returns (Some text), w2) ->
    (shows_holdings text ->
     exists value, res (extractJupiterHoldingsPnl env w) = Ok value) /\
    (~ shows_holdings text ->
     res (extractJupiterHoldingsPnl env w)
     = Throw (Error (Js.lit "Unable to locate Holdings PnL value on page."))).
Proof.
  intros World env w w1 w2 text H1 H2.
  rewrite (@extractJupiterHoldingsPnl_res _ env w w1 w2 text H1 H2).
  split.
  - intros (pre & H & ws & P & mid & symbol & sign & d & post & -> & HH & Hws
            & HP & Hmid & Hsym & Hsign & Hd).
    destruct (@Matches_holdings_start H ws P mid symbol sign d
                HH Hws HP Hmid Hsym Hsign Hd)
      as (ph & c & Eph & Hm).
    destruct (@exec_complete re_holdings
                (pre ++ H ++ ws ++ P ++ mid ++ symbol ++ sign ++ d :: post)
                pre ph c) as [m ->]; [|eauto].
    exists post. split; [|exact Hm].
    rewrite Eph, <- !app_assoc. reflexivity.
  - intros Hno.
    destruct (exec re_holdings text) as [m|] eqn:E; [|reflexivity].
    exfalso. apply Hno.
    apply exec_sound in E. destruct E as (pre & (post & -> & Hm) & _).
    apply Matches_holdings in Hm.
    destruct Hm as (H & ws & P & mid & symbol & sign & ds & dotp & frac
                    & Hw & _ & HH & Hws & HP & Hmid & Hsym & Hsign & Hds & _).
    destruct Hds as [Hne Hall].
    destruct ds as [|d ds']; [congruence|].
    simpl in Hall. apply andb_prop in Hall. destruct Hall as [Hd _].
    exists pre, H, ws, P, mid, symbol, sign, d, (ds' ++ dotp ++ frac ++ post).
    split; [rewrite Hw, <- !app_assoc; reflexivity|].
    repeat (split; [assumption|]). exact Hd.
Qed.

Lemma holdings_error_when_not_shown_witness :
  (shows_holdings (Js.lit "Net worth $1,234.56") ->
   exists value,
     res (extractJupiterHoldingsPnl Sim.env
            (portfolio_view (Js.lit "Net worth $1,234.56"))) = Ok value) /\
  (~ shows_holdings (Js.lit "Net worth $1,234.56") ->
   res (extractJupiterHoldingsPnl Sim.env
          (portfolio_view (Js.lit "Net worth $1,234.56")))
   = Throw (Error (Js.lit "Unable to locate Holdings PnL value on page."))).
Proof.
  apply (@holdings_error_when_not_shown _ Sim.env
           (portfolio_view (Js.lit "Net worth $1,234.56"))
           (Sim.tick 3000 (portfolio_view (Js.lit "Net worth $1,234.56")))
           (Sim.tick 3000 (portfolio_view (Js.lit "Net worth $1,234.56"))));
    reflexivity.
Defined.

(* ================================================================== *)
(** ** The Holdings PnL value without a currency symbol *)

Section Backtracking.
Variable R : Type.
Variable p : N -> bool.
Variable k : jsstring -> option R.

(** A starred class that fits the whole text tries the rest of the
    pattern at the end first, and then one place further to the left at a
    time. *)
Lemma rep_star_fails s :
  forallb p s = true ->
  (forall a b, s = a ++ b -> k b = None) ->
  rep p 0 None s k = None.
Proof.
  induction s as [|c s IH]; intros Hs Hk; cbn [rep Nat.eqb].
  - apply (Hk [] []). reflexivity.
  - cbn [forallb] in Hs. apply andb_prop in Hs. destruct Hs as [Hc Hs].
    rewrite Hc. cbn [room andb Nat.pred less].
    rewrite IH; [apply (Hk [] (c :: s)); reflexivity | exact Hs |].
    intros a b E. apply (Hk (c :: a) b). rewrite E. reflexivity.
Qed.

Lemma rep_star_backtracks u : forall w x,
  forallb p (u ++ w) = true ->
  k w = Some x ->
  (forall a b, w = a ++ b -> a <> [] -> k b = None) ->
  rep p 0 None (u ++ w) k = Some x.
Proof.
  induction u as [|c u IH]; intros w x Hs Hw Hk.
  - cbn [app] in *. destruct w as [|c w]; cbn [rep Nat.eqb]; [exact Hw|].
    cbn [forallb] in Hs. apply andb_prop in Hs. destruct Hs as [Hc Hs].
    rewrite Hc. cbn [room andb Nat.pred less].
    rewrite rep_star_fails; [exact Hw | exact Hs |].
    intros a b E. apply (Hk (c :: a) b); [rewrite E; reflexivity|discriminate].
  - cbn [app forallb] in *. apply andb_prop in Hs. destruct Hs as [Hc Hs].
    cbn [rep Nat.eqb]. rewrite Hc. cbn [room andb Nat.pred less].
    rewrite (IH w x Hs Hw Hk). reflexivity.
Qed.
End Backtracking.

(** The end of the pattern: [\$?] and the group. *)
Definition re_value : regex :=
  Seq (opt (fun c => N.eqb c Js.DOLLAR))
      (Group
         (Seq (opt (fun c => N.eqb c 45 || N.eqb c 43)%N)
              (Seq (plus digit_or_comma)
                   (Seq (opt (fun c => N.eqb c 46)%N)
                        (star Js.is_digit))))).

(** A value begins with a digit or a comma, maybe after "$" and a
    sign. *)
Lemma Matches_value w c c' :
  Matches re_value w c c' -> exists d, In d w /\ digit_or_comma d = true.
Proof.
  unfold re_value. intros M.
  apply Matches_Seq in M. destruct M as (symbol & r1 & c1 & -> & _ & M).
  apply Matches_Group in M. destruct M as (_ & c2 & M).
  apply Matches_Seq in M. destruct M as (sign & r2 & c3 & -> & _ & M).
  apply Matches_Seq in M. destruct M as (ds & r3 & c4 & -> & Hds & _).
  apply Matches_plus in Hds. destruct Hds as ([Hne Hall] & _).
  destruct ds as [|d ds]; [congruence|].
  cbn [forallb] in Hall. apply andb_prop in Hall. destruct Hall as [Hd _].
  exists d. split; [|exact Hd].
  rewrite !in_app_iff. right. right. left. left. reflexivity.
Qed.

(** The point right after the last digit, when there is one. *)
Definition point_after (rest : jsstring) : jsstring :=
  match rest with
  | d :: _ => if N.eqb d 46 then [46%N] else []
  | [] => []
  end.

(** The text after that point. *)
Definition after_point (rest : jsstring) : jsstring :=
  match rest with
  | d :: r => if N.eqb d 46 then r else rest
  | [] => []
  end.

(** At the last digit or comma of the text, the end of the pattern
    matches and captures that character, and the point after it. *)
Lemma value_at_last_digit (c : N) (rest : jsstring)
      (final : jsstring -> option jsstring -> option match_result) found :
  digit_or_comma c = true ->
  forallb (fun x => negb (digit_or_comma x)) rest = true ->
  final (after_point rest) (Some (c :: point_after rest)) = Some found ->
  matcher re_value (c :: rest) None final = Some found.
Proof.
  intros Hc Hrest Hfinal.
  assert (Hnd : forall x, digit_or_comma x = true ->
                          ((x =? Js.DOLLAR) = false /\
                           ((x =? 45) || (x =? 43)) = false /\
                           (x =? 46) = false)%N).
  { intros x Hx. unfold digit_or_comma, Js.is_digit, Js.COMMA, Js.DOLLAR in *.
    rewrite ?orb_true_iff, ?orb_false_iff, ?andb_true_iff, ?N.leb_le,
      ?N.eqb_eq, ?N.eqb_neq in *. lia. }
  destruct (Hnd c Hc) as (Hc1 & Hc2 & Hc3).
  unfold re_value, plus, star, opt. cbn [matcher].
  apply (rep_greedy (fun x => N.eqb x Js.DOLLAR) []);
    [reflexivity | apply Nat.le_0_l | apply Nat.le_0_l
     | left; exact Hc1 |].
  apply (rep_greedy (fun x => N.eqb x 45 || N.eqb x 43)%N []);
    [reflexivity | apply Nat.le_0_l | apply Nat.le_0_l
     | left; exact Hc2 |].
  assert (Hstop : stops digit_or_comma rest).
  { destruct rest as [|d r]; cbn [stops forallb] in *; auto.
    apply andb_prop in Hrest. destruct Hrest as [Hd _].
    apply negb_true_iff in Hd. exact Hd. }
  apply (rep_greedy digit_or_comma [c]);
    [cbn; rewrite Hc; reflexivity | apply Nat.le_refl | exact I
     | left; exact Hstop |].
  assert (Hdigit : forall x, digit_or_comma x = false -> Js.is_digit x = false).
  { intros x Hx. unfold digit_or_comma in Hx.
    apply orb_false_iff in Hx. tauto. }
  destruct rest as [|d r].
  - apply (rep_greedy (fun x => N.eqb x 46)%N []);
      [reflexivity | apply Nat.le_0_l | apply Nat.le_0_l | left; exact I |].
    apply (rep_greedy Js.is_digit []);
      [reflexivity | apply Nat.le_0_l | exact I | left; exact I |].
    cbn [List.length Nat.sub firstn]. exact Hfinal.
  - cbn [forallb] in Hrest. apply andb_prop in Hrest.
    destruct Hrest as [Hd Hr]. apply negb_true_iff in Hd.
    cbn [point_after after_point] in Hfinal.
    destruct (N.eqb d 46) eqn:Ed.
    + apply (rep_greedy (fun x => N.eqb x 46)%N [d]);
        [cbn; rewrite Ed; reflexivity | apply Nat.le_0_l | apply Nat.le_refl
         | right; reflexivity |].
      apply (rep_greedy Js.is_digit []);
        [reflexivity | apply Nat.le_0_l | exact I | left |].
      { destruct r as [|e r]; cbn [stops forallb] in *; auto.
        apply andb_prop in Hr. destruct Hr as [He _].
        apply negb_true_iff in He. apply Hdigit, He. }
      apply N.eqb_eq in Ed. subst d.
      replace (firstn (List.length (c :: 46%N :: r) - List.length r)
                      (c :: 46%N :: r)) with [c; 46%N].
      * exact Hfinal.
      * symmetry. apply (@firstn_consumed [c; 46%N] r).
    + apply (rep_greedy (fun x => N.eqb x 46)%N []);
        [reflexivity | apply Nat.le_0_l | apply Nat.le_0_l
         | left; exact Ed |].
      apply (rep_greedy Js.is_digit []);
        [reflexivity | apply Nat.le_0_l | exact I
         | left; apply Hdigit, Hd |].
      replace (firstn (List.length (c :: d :: r) - List.length (d :: r))
                      (c :: d :: r)) with [c].
      * exact Hfinal.
      * symmetry. apply (@firstn_consumed [c] (d :: r)).
Qed.

(** At the label, when no "$" follows, the match gives back the text
    after the label up to its last digit or comma. *)
Lemma holdings_match_without_symbol H ws P before c rest :
  same_word H "Holdings" -> blank ws -> same_word P "PnL" ->
  forallb (fun x => negb (N.eqb x Js.DOLLAR)) (before ++ c :: rest) = true ->
  digit_or_comma c = true ->
  forallb (fun x => negb (digit_or_comma x)) rest = true ->
  exists m,
    match_here re_holdings (H ++ ws ++ P ++ before ++ c :: rest) = Some m /\
    group1 m = Some (c :: point_after rest).
Proof.
  intros HH Hws HP Hno Hc Hrest.
  assert (HstopP : forall x, stops Js.is_space (P ++ x)).
  { intros x. destruct P as [|a P']; [discriminate HP|].
    unfold same_word in HP. simpl in HP. injection HP as Ha _.
    simpl. apply (@letter_not_space a "P"%char); [simpl; lia | exact Ha]. }
  eexists. split.
  - unfold match_here.
    change re_holdings
      with (Seq (word "Holdings")
              (Seq (plus Js.is_space)
                 (Seq (word "PnL")
                    (Seq (star (fun c => negb (N.eqb c Js.DOLLAR)))
                         re_value)))).
    unfold plus, star. cbn [matcher].
    rewrite matcher_word by exact HH.
    apply rep_greedy;
      [exact (proj2 Hws)
      | destruct ws; [destruct Hws; congruence | simpl; lia]
      | exact I | left; apply HstopP |].
    rewrite matcher_word by exact HP.
    apply rep_star_backtracks; [exact Hno | |].
    + apply value_at_last_digit; [exact Hc | exact Hrest |]. reflexivity.
    + intros a b E Ha.
      match goal with
      | |- ?lhs = None => destruct lhs as [found|] eqn:Ek; [|reflexivity]
      end.
      exfalso. apply matcher_sound in Ek.
      destruct Ek as (w & rest' & c' & -> & Hm & _).
      apply Matches_value in Hm. destruct Hm as (d & Hin & Hd).
      destruct a as [|a0 a]; [congruence|].
      cbn [app] in E. injection E as _ E.
      rewrite forallb_forall in Hrest.
      assert (In d rest) as Hd'.
      { rewrite E. rewrite !in_app_iff. right. left. exact Hin. }
      apply Hrest in Hd'. rewrite Hd in Hd'. discriminate Hd'.
  - reflexivity.
Qed.

(** A match of the pattern begins with a label. *)
Lemma match_here_label s m :
  match_here re_holdings s = Some m ->
  exists H ws P rest,
    s = H ++ ws ++ P ++ rest /\
    same_word H "Holdings" /\ blank ws /\ same_word P "PnL".
Proof.
  intros E. apply match_here_sound in E.
  destruct E as (post & Es & Hm). cbn [app] in Es.
  apply Matches_holdings in Hm.
  destruct Hm as (H & ws & P & mid & symbol & sign & ds & dotp & frac
                  & Hw & _ & HH & Hws & HP & _).
  exists H, ws, P, (mid ++ symbol ++ sign ++ ds ++ dotp ++ frac ++ post).
  split; [|auto]. rewrite Es, Hw, <- !app_assoc. reflexivity.
Qed.

(** The search goes past the text before the first label. *)
Lemma exec_skips_to_first_label pre : forall s,
  (forall pre' H ws P rest,
      pre ++ s = pre' ++ H ++ ws ++ P ++ rest ->
      same_word H "Holdings" -> blank ws -> same_word P "PnL" ->
      (List.length pre <= List.length pre')%nat) ->
  exec re_holdings (pre ++ s) = exec re_holdings s.
Proof.
  induction pre as [|c pre IH]; intros s Hfirst; [reflexivity|].
  cbn [app]. rewrite exec_unfold.
  destruct (match_here re_holdings (c :: pre ++ s)) as [m|] eqn:E.
  - destruct (match_here_label _ E) as (H & ws & P & rest & Es & HH & Hws & HP).
    specialize (Hfirst [] H ws P rest Es HH Hws HP). cbn in Hfirst. lia.
  - apply IH. intros pre' H ws P rest Es HH Hws HP.
    specialize (Hfirst (c :: pre') H ws P rest).
    cbn [app List.length] in Hfirst. rewrite Es in Hfirst.
    specialize (Hfirst eq_refl HH Hws HP). lia.
Qed.

(** X21: without a currency symbol the value of the portfolio page is
    cut down to one character.  When the first "Holdings PnL" label of
    the text (no label starts before it) is followed by text that holds
    no "$", the extractor returns the last digit or comma of that text,
    with the point that follows it if there is one, and not the number
    that follows the label. *)
Theorem holdings_without_symbol_is_last_digit :
  forall (World : Type) (env : Env World) (w w1 w2 : World)
         (pre H ws P before : jsstring) (c : N) (rest : jsstring),
    page_waitForTimeout env 3000 w = (Returns tt, w1) ->
    page_textContent env (Js.lit "body") w1
    = (Returns (Some (pre ++ H ++ ws ++ P ++ before ++ c :: rest)), w2) ->
    same_word H "Holdings" -> blank ws -> same_word P "PnL" ->
    (forall pre' H' ws' P' rest',
        pre ++ H ++ ws ++ P ++ before ++ c :: rest
        = pre' ++ H' ++ ws' ++ P' ++ rest' ->
        same_word H' "Holdings" -> blank ws' -> same_word P' "PnL" ->
        (List.length pre <= List.length pre')%nat) ->
    forallb (fun x => negb (N.eqb x Js.DOLLAR)) (before ++ c :: rest) = true ->
    digit_or_comma c = true ->
    forallb (fun x => negb (digit_or_comma x)) rest = true ->
    res (extractJupiterHoldingsPnl env w)
    = Ok (c :: match rest with
               | d :: _ => if N.eqb d 46 then [46%N] else []
               | [] => []
               end).
Proof.
  intros World env w w1 w2 pre H ws P before c rest H1 H2 HH Hws HP Hfirst
         Hno Hc Hrest.
  rewrite (@extractJupiterHoldingsPnl_res _ env w w1 w2 _ H1 H2).
  rewrite exec_skips_to_first_label by exact Hfirst.
  destruct (@holdings_match_without_symbol H ws P before c rest
              HH Hws HP Hno Hc Hrest) as (m & Hm & Hg).
  rewrite exec_unfold, Hm, Hg.
  fold (point_after rest).
  rewrite trim_id; [reflexivity|].
  intros x [<-|Hx]; [apply count_not_space, Hc|].
  unfold point_after in Hx.
  destruct rest as [|d r]; [destruct Hx|].
  destruct (N.eqb d 46); [|destruct Hx].
  destruct Hx as [<-|[]]. reflexivity.
Qed.

(** A text that begins with a label begins with the letters of
    "Holdings". *)
Lemma label_head s H ws P rest :
  s = H ++ ws ++ P ++ rest -> same_word H "Holdings" ->
  map Js.canonicalize (firstn 8 s)
  = map Js.canonicalize (Js.lit "Holdings").
Proof.
  intros -> HH. pose proof (same_word_length HH) as L. cbn in L.
  replace 8%nat with (List.length H + 0)%nat by lia.
  rewrite firstn_app_2. cbn [firstn]. rewrite app_nil_r. exact HH.
Qed.

(** The text begins with "The", whose "h" begins no label. *)
Lemma holdings_without_symbol_is_last_digit_witness :
  res (extractJupiterHoldingsPnl Sim.env
         (portfolio_view (Js.lit "The Holdings PnL -1,234.56 today")))
  = Ok (Js.lit "6").
Proof.
  apply (@holdings_without_symbol_is_last_digit _ Sim.env
           (portfolio_view (Js.lit "The Holdings PnL -1,234.56 today"))
           (Sim.tick 3000
              (portfolio_view (Js.lit "The Holdings PnL -1,234.56 today")))
           (Sim.tick 3000
              (portfolio_view (Js.lit "The Holdings PnL -1,234.56 today")))
           (Js.lit "The ") (Js.lit "Holdings") (Js.lit " ") (Js.lit "PnL")
           (Js.lit " -1,234.5") 54%N (Js.lit " today"));
    try reflexivity.
  - split; [discriminate | reflexivity].
  - intros pre' H' ws' P' rest' E HH' _ _.
    destruct pre' as [|p0 [|p1 [|p2 [|p3 pre']]]];
      [| | | |cbn; lia];
      exfalso;
      [apply (f_equal (skipn 0)) in E
      |apply (f_equal (skipn 1)) in E
      |apply (f_equal (skipn 2)) in E
      |apply (f_equal (skipn 3)) in E];
      cbn [skipn app] in E;
      pose proof (@label_head _ H' ws' P' rest' E HH') as L;
      vm_compute in L; discriminate L.
Defined.

(* ================================================================== *)
(** ** Failure screenshots of a run *)

Definition is_screenshot (ev : Event) : bool :=
  match ev with EScreenshot _ => true | _ => false end.

Lemma page_work_no_screenshot ev :
  of_page_work ev = true -> is_screenshot ev = false.
Proof. destruct ev; simpl; auto; discriminate. Qed.

Section Screenshots.
Context {World : Type}.
Variable env : Env World.
Variable CONFIG : Config.

Lemma solscanTask_no_screenshot wallet w :
  (count is_screenshot (trace (solscanTask env wallet w)) <= 0)%nat.
Proof.
  destruct (solscanTask_trace env wallet w) as (rest & -> & H).
  rewrite count_cons_false by reflexivity.
  rewrite (@count_none is_screenshot of_page_work _
             page_work_no_screenshot H).
  lia.
Qed.

Lemma jupiterTask_no_screenshot wallet w :
  (count is_screenshot (trace (jupiterTask env wallet w)) <= 0)%nat.
Proof.
  destruct (jupiterTask_trace env wallet w) as (rest & -> & H).
  rewrite count_cons_false by reflexivity.
  rewrite (@count_none is_screenshot of_page_work _
             page_work_no_screenshot H).
  lia.
Qed.

(** The failure hook takes one screenshot at most. *)
Lemma captureFailureScreenshot_once wallet label w :
  (count is_screenshot
         (trace (captureFailureScreenshot env CONFIG wallet label w))
   <= 1)%nat.
Proof.
  unfold captureFailureScreenshot, ensureScreenshotDir, bind, emit, read,
    call, ret, log, prepend.
  cbn [res world trace app].
  destruct (fs_existsSync env (screenshotDir CONFIG) w);
    cbn [negb res world trace app].
  - destruct (page_screenshot env _ w) as [[u|message] w1];
      cbn [res world trace app]; cbn; lia.
  - destruct (fs_mkdirSync env (screenshotDir CONFIG) w) as [[u|message] w1];
      cbn [res world trace app]; [|cbn; lia].
    destruct (page_screenshot env _ w1) as [[u'|message] w2];
      cbn [res world trace app]; cbn; lia.
Qed.

(** A guarded fetch that returns has taken no screenshot; one that
    throws has taken one at most. *)
Lemma guarded_screenshots A (task : M World A) label wallet site w :
  (forall w, (count is_screenshot (trace (task w)) <= 0)%nat) ->
  let o := guarded env CONFIG task label
                   (captureFailureScreenshot env CONFIG wallet site) w in
  (count is_screenshot (trace o) <= 1)%nat /\
  (forall v, res o = Ok v -> count is_screenshot (trace o) = 0%nat).
Proof.
  intros Hc. cbv zeta. unfold guarded, withRetries, try_catch.
  pose proof (@retryLoop_count_le _ env A task label is_screenshot 0
                (maxRetries CONFIG) Hc
                (fun _ _ => eq_refl) (fun _ => eq_refl)
                (Z.to_nat (maxRetries CONFIG)) 1 Undefined w) as Hle.
  destruct (retryLoop env task label _ _ _ _ w) as [[v|e] w1 t1];
    cbn [res world trace] in *.
  - split; [lia|]. intros _ _. lia.
  - unfold prepend. cbn [res trace]. rewrite count_app, rethrow_trace.
    pose proof (captureFailureScreenshot_once wallet site w1).
    split; [lia|]. intros v. rewrite rethrow_res.
    destruct (res (captureFailureScreenshot env CONFIG wallet site w1));
      discriminate.
Qed.

Lemma processWallet_screenshots index wallet rowIndex w :
  let o := processWallet env CONFIG index wallet rowIndex w in
  (count is_screenshot (trace o) <= 1)%nat /\
  (res o = Ok tt -> count is_screenshot (trace o) = 0%nat).
Proof.
  cbv zeta. rewrite processWallet_out. unfold processing_log, updated_log.
  destruct (@guarded_screenshots _ (solscanTask env wallet)
              (Js.lit "solscan-" ++ wallet) wallet (Js.lit "solscan") w
              (solscanTask_no_screenshot wallet)) as [Ha Ha'].
  fold (fetchActivities env CONFIG wallet) in Ha, Ha'.
  destruct (fetchActivities env CONFIG wallet w) as [[v|e] wa ta];
    cbn [res world trace prepend app] in *;
    rewrite count_cons_false by reflexivity;
    [|split; [exact Ha | discriminate]].
  specialize (Ha' v eq_refl).
  destruct (@guarded_screenshots _ (jupiterTask env wallet)
              (Js.lit "jupiter-" ++ wallet) wallet (Js.lit "jupiter")
              (timer env (rateLimitMs CONFIG) wa)
              (jupiterTask_no_screenshot wallet)) as [Hb Hb'].
  fold (fetchHoldingsPnl env CONFIG wallet) in Hb, Hb'.
  destruct (fetchHoldingsPnl env CONFIG wallet _) as [[p|e] wb tb];
    cbn [res world trace prepend app] in *;
    rewrite !count_app, Ha';
    change (count is_screenshot [ESleep (rateLimitMs CONFIG)]) with 0%nat;
    [|split; [lia | discriminate]].
  specialize (Hb' p eq_refl).
  pose proof (writeSheetValues_trace env CONFIG rowIndex v p wb) as Hw.
  destruct (writeSheetValues env CONFIG rowIndex v p wb) as [[[]|e] ww tw];
    cbn [res world trace prepend app] in *; subst tw;
    rewrite ?count_app, Hb';
    repeat match goal with
      | |- context [count is_screenshot (?ev :: ?l)] =>
          change (count is_screenshot (ev :: l)) with 0%nat
      end; split; try lia; discriminate.
Qed.

Lemma walletLoop_screenshots wallets : forall index w,
  let o := walletLoop env CONFIG index wallets w in
  (count is_screenshot (trace o) <= 1)%nat /\
  (res o = Ok tt -> count is_screenshot (trace o) = 0%nat).
Proof.
  induction wallets as [|e rest IH]; intros index w; cbv zeta;
    [split; [cbn; lia | reflexivity]|].
  cbn [walletLoop]. unfold bind.
  assert (Hit : (count is_screenshot (trace (iteration env CONFIG index e w))
                 <= 1)%nat /\
                (res (iteration env CONFIG index e w) = Ok tt ->
                 count is_screenshot (trace (iteration env CONFIG index e w))
                 = 0%nat)).
  { destruct (pending e) eqn:E.
    - destruct (iteration_pending env CONFIG index e w E) as (name & _ & ->).
      apply processWallet_screenshots.
    - destruct (iteration_skipped env CONFIG index e w E) as (m & c & ->).
      split; [cbn; lia | reflexivity]. }
  destruct Hit as [H1 H0].
  destruct (iteration env CONFIG index e w) as [[[]|err] w1 t1];
    cbn [res world trace prepend] in *.
  - destruct (IH (index + 1) w1) as [H1' H0'].
    rewrite count_app, (H0 eq_refl). split; [lia|].
    intros H. rewrite (H0' H). reflexivity.
  - split; [exact H1 | discriminate].
Qed.
End Screenshots.

(** X22: a run takes one failure screenshot at most, whatever the number
    of wallets and of retries: the error that follows the failure hook
    ends the loop; and a loop that completes has taken none. *)
Theorem one_failure_screenshot_at_most :
  forall (World : Type) (env : Env World) (CONFIG : Config)
         (wallets : list WalletEntry) (index : Z) (w : World),
    (count is_screenshot (trace (walletLoop env CONFIG index wallets w))
     <= 1)%nat /\
    (res (walletLoop env CONFIG index wallets w) = Ok tt ->
     count is_screenshot (trace (walletLoop env CONFIG index wallets w))
     = 0%nat).
Proof.
  intros World env CONFIG wallets index w.
  apply (walletLoop_screenshots env CONFIG wallets index w).
Qed.

(* ================================================================== *)
(** ** The lengths of the pauses *)

(** A pause of the loop: the rate limit, or the back-off after attempt
    [k] of the allowed ones. *)
Definition allowed_pause (CONFIG : Config) (ms : Z) : Prop :=
  ms = rateLimitMs CONFIG \/
  exists k, 1 <= k <= maxRetries CONFIG /\ ms = 2000 * k.

Lemma hook_no_sleep ev : of_hook ev = true -> is_sleep ev = false.
Proof. destruct ev; simpl; auto; discriminate. Qed.

Section Pauses.
Context {World : Type}.
Variable env : Env World.
Variable CONFIG : Config.

Lemma retryLoop_sleeps A (task : M World A) label attempts :
  (forall w, sleeps (trace (task w)) = []) ->
  forall n attempt lastError w,
    Forall (fun ms => exists k, attempt <= k <= attempts /\ ms = 2000 * k)
           (sleeps (trace (retryLoop env task label n attempts attempt
                                     lastError w))).
Proof.
  intros Hq.
  induction n as [|n IH]; intros attempt lastError w; cbn [retryLoop].
  - destruct (attempt <=? attempts); constructor.
  - destruct (attempt <=? attempts) eqn:E; [|constructor].
    apply Z.leb_le in E.
    unfold try_catch. specialize (Hq w).
    destruct (task w) as [[v|e] w1 t1]; cbn [res world trace] in *.
    + rewrite Hq. constructor.
    + unfold prepend. cbn [trace]. rewrite sleeps_app, Hq. cbn [app].
      destruct e as [|message]; [constructor|].
      unfold bind, message_of, ret, log, emit, sleep, prepend.
      cbn [res world trace app sleeps].
      constructor.
      * exists attempt. lia.
      * eapply Forall_impl; [|apply IH].
        intros ms (k & Hk & ->). exists k. lia.
Qed.

Lemma guarded_sleeps A (task : M World A) label wallet site w :
  (forall w, sleeps (trace (task w)) = []) ->
  Forall (allowed_pause CONFIG)
         (sleeps (trace (guarded env CONFIG task label
                           (captureFailureScreenshot env CONFIG wallet site)
                           w))).
Proof.
  intros Hq. unfold guarded, withRetries, try_catch.
  pose proof (@retryLoop_sleeps A task label (maxRetries CONFIG) Hq
                (Z.to_nat (maxRetries CONFIG)) 1 Undefined w) as H.
  assert (H' : Forall (allowed_pause CONFIG)
                 (sleeps (trace (retryLoop env task label
                                   (Z.to_nat (maxRetries CONFIG))
                                   (maxRetries CONFIG) 1 Undefined w)))).
  { eapply Forall_impl; [|exact H]. intros ms Hms. right. exact Hms. }
  clear H.
  destruct (retryLoop env task label _ _ _ _ w) as [[v|e] w1 t1];
    cbn [res world trace] in *; [exact H'|].
  unfold prepend. cbn [trace]. rewrite sleeps_app, rethrow_trace.
  rewrite (@sleeps_none of_hook _ hook_no_sleep
             (emits_captureFailureScreenshot env CONFIG wallet site w1)).
  rewrite app_nil_r. exact H'.
Qed.

Lemma jupiterTask_no_sleep wallet w :
  sleeps (trace (jupiterTask env wallet w)) = [].
Proof.
  destruct (jupiterTask_trace env wallet w) as (rest & -> & H).
  change (sleeps rest = []).
  apply (@sleeps_none _ _ page_work_no_sleep H).
Qed.

Lemma processWallet_sleeps index wallet rowIndex w :
  Forall (allowed_pause CONFIG)
         (sleeps (trace (processWallet env CONFIG index wallet rowIndex w))).
Proof.
  assert (Hrate : allowed_pause CONFIG (rateLimitMs CONFIG))
    by (left; reflexivity).
  rewrite processWallet_out. unfold processing_log, updated_log.
  pose proof (@guarded_sleeps _ (solscanTask env wallet)
                (Js.lit "solscan-" ++ wallet) wallet (Js.lit "solscan") w
                (solscanTask_no_sleep env wallet)) as Ha.
  fold (fetchActivities env CONFIG wallet) in Ha.
  destruct (fetchActivities env CONFIG wallet w) as [[v|e] wa ta];
    cbn [res world trace prepend app sleeps] in *; [|exact Ha].
  pose proof (@guarded_sleeps _ (jupiterTask env wallet)
                (Js.lit "jupiter-" ++ wallet) wallet (Js.lit "jupiter")
                (timer env (rateLimitMs CONFIG) wa)
                (jupiterTask_no_sleep wallet)) as Hb.
  fold (fetchHoldingsPnl env CONFIG wallet) in Hb.
  destruct (fetchHoldingsPnl env CONFIG wallet _) as [[p|e] wb tb];
    cbn [res world trace prepend app sleeps] in *.
  - pose proof (writeSheetValues_trace env CONFIG rowIndex v p wb) as Hw.
    destruct (writeSheetValues env CONFIG rowIndex v p wb) as [[[]|e] ww tw];
      cbn [res world trace prepend app sleeps] in *; subst tw;
      rewrite !sleeps_app; cbn [sleeps app];
      repeat (apply Forall_app; split); auto.
  - rewrite !sleeps_app. cbn [sleeps app].
    repeat (apply Forall_app; split); auto.
Qed.

Lemma walletLoop_sleeps wallets : forall index w,
  Forall (allowed_pause CONFIG)
         (sleeps (trace (walletLoop env CONFIG index wallets w))).
Proof.
  induction wallets as [|e rest IH]; intros index w; [constructor|].
  cbn [walletLoop]. unfold bind.
  assert (Hit : Forall (allowed_pause CONFIG)
                  (sleeps (trace (iteration env CONFIG index e w)))).
  { destruct (pending e) eqn:E.
    - destruct (iteration_pending env CONFIG index e w E) as (name & _ & ->).
      apply processWallet_sleeps.
    - destruct (iteration_skipped env CONFIG index e w E) as (m & c & ->).
      constructor. }
  destruct (iteration env CONFIG index e w) as [[[]|err] w1 t1];
    cbn [res world trace prepend] in *; [|exact Hit].
  rewrite sleeps_app. apply Forall_app. split; [exact Hit | apply IH].
Qed.
End Pauses.

(** X23: every pause of the loop over the records is either the
    rate-limit pause or a back-off of 2000 * k milliseconds for an
    attempt number k from 1 to maxRetries: the loop never sleeps for any
    other length, so never for more than the larger of the rate limit and
    2000 * maxRetries milliseconds at a time. *)
Theorem pauses_are_rate_limit_or_backoff :
  forall (World : Type) (env : Env World) (CONFIG : Config)
         (wallets : list WalletEntry) (index : Z) (w : World),
    Forall (allowed_pause CONFIG)
           (sleeps (trace (walletLoop env CONFIG index wallets w))) /\
    Forall (fun ms => ms <= Z.max (rateLimitMs CONFIG)
                                  (2000 * maxRetries CONFIG))
           (sleeps (trace (walletLoop env CONFIG index wallets w))).
Proof.
  intros World env CONFIG wallets index w.
  pose proof (walletLoop_sleeps env CONFIG wallets index w) as H.
  split; [exact H|].
  eapply Forall_impl; [|exact H].
  intros ms [->|(k & Hk & ->)]; lia.
Qed.
